(** * Rubinius concurrency core: channels, fiber stacks, fibers, variable
      scopes, threads and their locals, the concurrent Immix marker, the
      JIT primitives and the request for a collection.

    A shallow embedding of the C++ sources under [machine/] together with
    the properties the specification states about them.  Each module
    embeds one translation unit and keeps the names of the source. *)

From Stdlib Require Import ZArith Lia List Bool String.
From stdpp Require Import base functions relations option list gmap.

Local Open Scope Z_scope.

(** ** Managed values

    Object references as the channel, fiber, scope and thread code sees
    them: the immediates [cNil], [cTrue], [cFalse], fixnums, floats (by
    the bits of their double) and references to other heap objects. *)

Inductive Object : Type :=
| cNil
| cTrue
| cFalse
| Fixnum (n : Z)
| Float (bits : Z)
| Ref (addr : positive).

#[global] Instance Object_eq_dec : EqDecision Object.
Proof. solve_decision. Defined.

Definition nil_p (o : Object) : bool :=
  match o with cNil => true | _ => false end.

Definition true_p (o : Object) : bool :=
  match o with cTrue => true | _ => false end.

(** ** The C [int]

    The counters of a channel and the index of a local are C [int]s: 32
    bits, two's complement.  [wrap_int z] is the [int] an arithmetic step
    or a conversion leaves when its exact result is [z], so that
    [INT_MAX + 1] is [INT_MIN]. *)

Definition INT_MAX : Z := 2 ^ 31 - 1.

Definition INT_MIN : Z := - 2 ^ 31.

Definition wrap_int (z : Z) : Z := (z + 2 ^ 31) mod 2 ^ 32 - 2 ^ 31.

(** ** machine/builtin/channel.cpp *)

Module Channel.

(** The [Channel] object.  [value_] is the [List] of queued objects,
    [semaphore_count_] the number of outstanding permits, an [int] that
    [send] increments with no bound and that therefore wraps, and
    [waiters_] the number of receivers blocked in [receive_timeout]: an
    [int] too, but one that counts threads of the process, each inside
    its own call, and so stays far from [INT_MAX].
    [condition_] records how many times the condition variable has been
    signalled. *)
Record Channel : Type := mkChannel {
  value_ : list Object;
  semaphore_count_ : Z;
  waiters_ : Z;
  condition_ : nat
}.

(** Modelled from the spec: [List::append], [List::empty_p] and
    [List::shift] live in builtin/list.cpp, which is not among the
    sources; the channel's list is "a FIFO of values" whose front entry
    is popped by a receive. *)
Definition append (l : list Object) (o : Object) : list Object := l ++ [o].

Definition empty_p (l : list Object) : bool :=
  match l with [] => true | _ => false end.

Definition shift (l : list Object) : Object * list Object :=
  match l with
  | [] => (cNil, [])
  | o :: rest => (o, rest)
  end.

(** [Channel::create] *)
Definition create : Channel :=
  {| value_ := []; semaphore_count_ := 0; waiters_ := 0; condition_ := 0%nat |}.

(** [for(int i = 0; i < semaphore_count_; i++) value_->append(cNil)],
    as a loop over the remaining iterations. *)
Fixpoint append_permits (n : nat) (l : list Object) : list Object :=
  match n with
  | O => l
  | S k => append_permits k (append l cNil)
  end.

(** [Channel::send] *)
Definition send (self : Channel) (val : Object) : Object * Channel :=
  let self1 :=
    if nil_p val then
      {| value_ := value_ self;
         semaphore_count_ := wrap_int (semaphore_count_ self + 1);
         waiters_ := waiters_ self;
         condition_ := condition_ self |}
    else
      let self' :=
        if 0 <? semaphore_count_ self then
          {| value_ := append_permits (Z.to_nat (semaphore_count_ self)) (value_ self);
             semaphore_count_ := 0;
             waiters_ := waiters_ self;
             condition_ := condition_ self |}
        else self in
      {| value_ := append (value_ self') val;
         semaphore_count_ := semaphore_count_ self';
         waiters_ := waiters_ self';
         condition_ := condition_ self' |} in
  let self2 :=
    if 0 <? waiters_ self1 then
      {| value_ := value_ self1;
         semaphore_count_ := semaphore_count_ self1;
         waiters_ := waiters_ self1;
         condition_ := S (condition_ self1) |}
    else self1 in
  (cNil, self2).

(** [Channel::try_receive].  The decrement is taken on a positive
    counter and cannot wrap. *)
Definition try_receive (self : Channel) : Object * Channel :=
  if 0 <? semaphore_count_ self then
    (cNil,
     {| value_ := value_ self;
        semaphore_count_ := semaphore_count_ self - 1;
        waiters_ := waiters_ self;
        condition_ := condition_ self |})
  else if empty_p (value_ self) then (cNil, self)
  else
    let '(o, rest) := shift (value_ self) in
    (o,
     {| value_ := rest;
        semaphore_count_ := semaphore_count_ self;
        waiters_ := waiters_ self;
        condition_ := condition_ self |}).

(** A client of the channel: a sequence of sends and receives issued
    against one channel, and what the receivers observe. *)
Inductive op : Type :=
| Send (val : Object)
| TryReceive.

Fixpoint run (ops : list op) (self : Channel) : list Object * Channel :=
  match ops with
  | [] => ([], self)
  | Send v :: rest => run rest (snd (send self v))
  | TryReceive :: rest =>
      let '(o, self') := try_receive self in
      let '(os, self'') := run rest self' in
      (o :: os, self'')
  end.

Definition received (ops : list op) (self : Channel) : list Object :=
  fst (run ops self).

Fixpoint sent (ops : list op) : list Object :=
  match ops with
  | [] => []
  | Send v :: rest => v :: sent rest
  | TryReceive :: rest => sent rest
  end.

(** The real payloads of a sequence of observations: everything but the
    no-value sentinel. *)
Definition payloads (l : list Object) : list Object :=
  filter (fun o => o <> cNil) l.

(** [n] receives in a row. *)
Fixpoint receives (n : nat) (self : Channel) : list Object * Channel :=
  match n with
  | O => ([], self)
  | S k =>
      let '(o, self') := try_receive self in
      let '(os, self'') := receives k self' in
      (o :: os, self'')
  end.

Fixpoint sends (vals : list Object) (self : Channel) : Channel :=
  match vals with
  | [] => self
  | v :: rest => sends rest (snd (send self v))
  end.

(** The entries a channel still owes its receivers, oldest first: the
    queued objects, then one no-value entry per outstanding permit. *)
Definition pending (self : Channel) : list Object :=
  value_ self ++ repeat cNil (Z.to_nat (semaphore_count_ self)).

End Channel.

(** ** machine/fiber_stack.cpp *)

Module FiberStacks.

(** How a call into the pool ends: with a value, at a failed [assert], or
    in [rubinius::abort()]. *)
Inductive outcome (A : Type) : Type :=
| Done (a : A)
| AssertFailed
| Aborted.
Arguments Done {A} a.
Arguments AssertFailed {A}.
Arguments Aborted {A}.

(** [FiberStack]: [address_] is the malloc'ed block ([None] for 0),
    [size_] a [size_t], [refs_] an [int], [user_] the [FiberData] that
    currently runs on the stack. *)
Record FiberStack : Type := mkFiberStack {
  address_ : option positive;
  size_ : N;
  refs_ : Z;
  user_ : option positive
}.

(** [FiberStack::FiberStack(size_t size)] *)
Definition new_FiberStack (size : N) : FiberStack :=
  {| address_ := None; size_ := size; refs_ := 0; user_ := None |}.

(** Modelled from the spec: the accessors of fiber_stack.hpp, which is not
    among the sources.  [inc_ref] and [dec_ref] count the outstanding
    leases, and "a region with zero outstanding references becomes
    eligible for reuse". *)
Definition unused_p (s : FiberStack) : bool := refs_ s =? 0.

Definition inc_ref (s : FiberStack) : FiberStack :=
  {| address_ := address_ s; size_ := size_ s;
     refs_ := refs_ s + 1; user_ := user_ s |}.

Definition dec_ref (s : FiberStack) : FiberStack :=
  {| address_ := address_ s; size_ := size_ s;
     refs_ := refs_ s - 1; user_ := user_ s |}.

Section WithMalloc.

(** The C allocator: [None] is the null pointer. *)
Variable malloc : N -> option positive.

(** [FiberStack::allocate] *)
Definition FiberStack_allocate (s : FiberStack) : outcome FiberStack :=
  match address_ s with
  | Some _ => AssertFailed
  | None =>
      match malloc (size_ s) with
      | None => Aborted
      | Some a =>
          Done {| address_ := Some a; size_ := size_ s;
                  refs_ := refs_ s; user_ := user_ s |}
      end
  end.

(** [FiberStack::orphan] *)
Definition orphan (s : FiberStack) (user : positive) : FiberStack :=
  dec_ref
    (if decide (user_ s = Some user)
     then {| address_ := address_ s; size_ := size_ s;
             refs_ := refs_ s; user_ := None |}
     else s).

(** [FiberStacks]: the pool.  [stacks_] is a [std::list<FiberStack>], so
    a [FiberStack*] into it is stable and is modelled by the position of
    the element. *)
Record FiberStacks : Type := mkFiberStacks {
  max_stacks_ : N;
  stacks_ : list FiberStack
}.

(** First loop of [FiberStacks::allocate]: the first element that is
    unused and large enough, scanning from [stacks_.begin()]. *)
Fixpoint first_fit (l : list FiberStack) (stack_size : N) (i : nat)
  : option nat :=
  match l with
  | [] => None
  | s :: rest =>
      if unused_p s && (stack_size <=? size_ s)%N then Some i
      else first_fit rest stack_size (S i)
  end.

(** Second loop of [FiberStacks::allocate]:
    [if(!stack || i->refs() < stack->refs()) stack = &*i]. *)
Fixpoint least_refs (l : list FiberStack) (i : nat)
    (stack : option (nat * FiberStack)) : option (nat * FiberStack) :=
  match l with
  | [] => stack
  | s :: rest =>
      least_refs rest (S i)
        (match stack with
         | None => Some (i, s)
         | Some (_, best) =>
             if refs_ s <? refs_ best then Some (i, s) else stack
         end)
  end.

(** [FiberStacks::allocate]: the leased stack (its position in
    [stacks_]) and the pool afterwards. *)
Definition allocate (self : FiberStacks) (stack_size : N)
  : outcome (nat * FiberStacks) :=
  match first_fit (stacks_ self) stack_size 0 with
  | Some i =>
      Done (i, {| max_stacks_ := max_stacks_ self;
                  stacks_ := alter inc_ref i (stacks_ self) |})
  | None =>
      if (N.of_nat (length (stacks_ self)) <? max_stacks_ self)%N then
        match FiberStack_allocate (new_FiberStack stack_size) with
        | Done stack =>
            Done (length (stacks_ self),
                  {| max_stacks_ := max_stacks_ self;
                     stacks_ := stacks_ self ++ [inc_ref stack] |})
        | AssertFailed => AssertFailed
        | Aborted => Aborted
        end
      else
        match least_refs (stacks_ self) 0 None with
        | None => AssertFailed
        | Some (i, _) =>
            Done (i, {| max_stacks_ := max_stacks_ self;
                        stacks_ := alter inc_ref i (stacks_ self) |})
        end
  end.

End WithMalloc.

(** *** What the pool's loops compute, and an example pool *)

(** A stack the first loop accepts. *)
Definition fits (stack_size : N) (s : FiberStack) : bool :=
  unused_p s && (stack_size <=? size_ s)%N.

(** The candidate the second loop carries is the least referenced stack
    among those already visited. *)
Definition least_among (seen : list FiberStack)
    (stack : option (nat * FiberStack)) : Prop :=
  match stack with
  | None => seen = []
  | Some (k, best) =>
      seen !! k = Some best /\
      forall j t, seen !! j = Some t -> refs_ best <= refs_ t
  end.

(** An example pool: one stack of 4096 bytes, leased once, in a pool
    limited to one stack. *)
Definition busy_stack : FiberStack :=
  {| address_ := Some 1%positive; size_ := 4096;
     refs_ := 1; user_ := Some 1%positive |}.

Definition full_pool : FiberStacks :=
  {| max_stacks_ := 1; stacks_ := [busy_stack] |}.

End FiberStacks.

(** ** machine/builtin/fiber.cpp *)

Module Fiber.

(** [Fiber::Status] (declared in fiber.hpp): the spec's Created,
    Sleeping, Running and Dead. *)
Inductive Status : Type := eNotStarted | eSleeping | eRunning | eDead.

#[global] Instance Status_eq_dec : EqDecision Status.
Proof. solve_decision. Defined.

(** Modelled from the spec: [FiberData] (fiber_data.hpp is not among the
    sources), the CoroutineContext of a fiber, with its "liveness flag"
    ([dead_p]) and "owning native thread id" ([thread]).  A context made
    by [FiberStacks::new_data] belongs to the VM that owns the pool and
    is alive. *)
Record FiberData : Type := mkFiberData {
  thread_ : option positive;
  data_dead_ : bool;
  data_root_ : bool
}.

Definition dead_p (d : FiberData) : bool := data_dead_ d.

Definition new_fiber_data (vm : positive) (root : bool) : FiberData :=
  {| thread_ := Some vm; data_dead_ := false; data_root_ := root |}.

(** The [Fiber] object.  [prev_], [value_] and [exception_] are object
    slots: [None] is [nil].  [data_] is a C++ pointer: [None] is [NULL]. *)
Record Fiber : Type := mkFiber {
  status_ : Status;
  root_ : bool;
  prev_ : option positive;
  value_ : option (list Object);
  exception_ : option Object;
  data_ : option FiberData
}.

(** The part of [VM] and of the managed heap the fiber primitives touch:
    [vm] identifies [state->vm()], [fibers] holds the [Fiber] objects by
    address. *)
Record State : Type := mkState {
  vm : positive;
  current_fiber : option positive;
  root_fiber : option positive;
  fibers : gmap positive Fiber
}.

(** Exceptions raised into managed code. *)
Inductive Exception : Type :=
| FiberError (reason : string).

(** How a primitive ends: it returns, raises a managed exception, stops
    at a failed [assert], or dereferences something that is no object. *)
Inductive Result (A : Type) : Type :=
| Ok (a : A)
| Raise (e : Exception)
| AssertFailed
| Undefined.
Arguments Ok {A} a.
Arguments Raise {A} e.
Arguments AssertFailed {A}.
Arguments Undefined {A}.

(** Primitives run against the state and leave it as it was at the point
    where they stopped. *)
Definition M (A : Type) : Type := State -> Result A * State.

#[global] Instance M_ret : MRet M := fun A a st => (Ok a, st).

#[global] Instance M_bind : MBind M := fun A B k m st =>
  match m st with
  | (Ok a, st') => k a st'
  | (Raise e, st') => (Raise e, st')
  | (AssertFailed, st') => (AssertFailed, st')
  | (Undefined, st') => (Undefined, st')
  end.

Definition get_state : M State := fun st => (Ok st, st).

Definition put_state (st : State) : M unit := fun _ => (Ok tt, st).

Definition assert (b : bool) : M unit := fun st =>
  if b then (Ok tt, st) else (AssertFailed, st).

(** Modelled from the spec: [Exception::raise_fiber_error]
    (builtin/exception.cpp is not among the sources) makes the primitive
    fail: nothing after it runs. *)
Definition raise_fiber_error {A : Type} (reason : string) : M A := fun st =>
  (Raise (FiberError reason), st).

Definition when (b : bool) (m : M unit) : M unit :=
  if b then m else mret tt.

(** Reading and writing a [Fiber] through a pointer.  Following [nil] or
    an address that holds no fiber is undefined. *)
Definition deref (p : option positive) : M Fiber := fun st =>
  match p with
  | None => (Undefined, st)
  | Some a =>
      match fibers st !! a with
      | Some f => (Ok f, st)
      | None => (Undefined, st)
      end
  end.

Definition update (p : option positive) (g : Fiber -> Fiber) : M unit :=
  f ← deref p;
  st ← get_state;
  match p with
  | Some a =>
      put_state {| vm := vm st; current_fiber := current_fiber st;
                   root_fiber := root_fiber st;
                   fibers := <[a := g f]> (fibers st) |}
  | None => mret tt
  end.

(** Slot writers of the header: [value(state, v)], [prev(state, f)]. *)
Definition set_value (v : option (list Object)) (f : Fiber) : Fiber :=
  {| status_ := status_ f; root_ := root_ f; prev_ := prev_ f;
     value_ := v; exception_ := exception_ f; data_ := data_ f |}.

Definition set_prev (p : option positive) (f : Fiber) : Fiber :=
  {| status_ := status_ f; root_ := root_ f; prev_ := p;
     value_ := value_ f; exception_ := exception_ f; data_ := data_ f |}.

Definition set_status (s : Status) (f : Fiber) : Fiber :=
  {| status_ := s; root_ := root_ f; prev_ := prev_ f;
     value_ := value_ f; exception_ := exception_ f; data_ := data_ f |}.

Definition set_data (d : option FiberData) (f : Fiber) : Fiber :=
  {| status_ := status_ f; root_ := root_ f; prev_ := prev_ f;
     value_ := value_ f; exception_ := exception_ f; data_ := d |}.

(** Modelled from the spec: [Fiber::sleep] and [Fiber::run] (fiber.hpp is
    not among the sources): the fiber that gives up control is marked
    Sleeping, the one that receives it is marked Running and becomes the
    fiber the VM is executing, which [Fiber::current] reads back after the
    switch. *)
Definition sleep (p : option positive) : M unit :=
  update p (set_status eSleeping).

Definition run (p : option positive) : M unit :=
  _ ← update p (set_status eRunning);
  st ← get_state;
  put_state {| vm := vm st; current_fiber := p;
               root_fiber := root_fiber st; fibers := fibers st |}.

(** Modelled from the spec: [FiberData::switch_to], the machine context
    switch.  Control leaves the caller here; the state the destination
    fiber finds is the state at this point. *)
Definition switch_to (dest cur : option positive) : M unit := mret tt.

(** [Fiber::current]: the running fiber, lazily allocating the root fiber
    of the thread. *)
Definition current : M (option positive) :=
  st ← get_state;
  match current_fiber st with
  | Some a => mret (Some a)
  | None =>
      let a := fresh (dom (fibers st)) in
      let fib :=
        {| status_ := eRunning; root_ := true; prev_ := None;
           value_ := None; exception_ := None;
           data_ := Some (new_fiber_data (vm st) true) |} in
      _ ← put_state {| vm := vm st; current_fiber := Some a;
                       root_fiber := Some a;
                       fibers := <[a := fib]> (fibers st) |};
      mret (Some a)
  end.

(** [if(!data_) data_ = state->vm()->new_fiber_data();] *)
Definition ensure_data (self : option positive) : M FiberData :=
  f ← deref self;
  match data_ f with
  | Some d => mret d
  | None =>
      st ← get_state;
      let d := new_fiber_data (vm st) false in
      _ ← update self (set_data (Some d));
      mret d
  end.

(** [data_->thread() && data_->thread() != state->vm()] *)
Definition other_thread (d : FiberData) (vm : positive) : bool :=
  match thread_ d with
  | Some t => negb (bool_decide (t = vm))
  | None => false
  end.

Definition is_Some_b {A : Type} (o : option A) : bool :=
  match o with Some _ => true | None => false end.

(** [Fiber::resume], up to and including the switch into the fiber. *)
Definition resume (self : option positive) (args : list Object) : M unit :=
  d ← ensure_data self;
  f ← deref self;
  _ ← when (bool_decide (status_ f = eDead) || dead_p d)
        (raise_fiber_error "dead fiber called");
  _ ← when (is_Some_b (prev_ f))
        (raise_fiber_error "double resume");
  st ← get_state;
  _ ← when (other_thread d (vm st))
        (raise_fiber_error "cross thread fiber resuming is illegal");
  _ ← update self (set_value (Some args));
  cur ← current;
  _ ← update self (set_prev cur);
  _ ← sleep cur;
  _ ← run self;
  switch_to self cur.

(** [Fiber::transfer], up to and including the switch into the fiber. *)
Definition transfer (self : option positive) (args : list Object) : M unit :=
  d ← ensure_data self;
  f ← deref self;
  _ ← when (bool_decide (status_ f = eDead) || dead_p d)
        (raise_fiber_error "dead fiber called");
  st ← get_state;
  _ ← when (other_thread d (vm st))
        (raise_fiber_error "cross thread fiber resuming is illegal");
  _ ← update self (set_value (Some args));
  cur ← current;
  st' ← get_state;
  let root := root_fiber st' in
  _ ← assert (is_Some_b root);
  _ ← update self (set_prev root);
  _ ← sleep cur;
  _ ← run self;
  switch_to self cur.

(** [Fiber::s_yield], up to and including the switch to the resumer. *)
Definition s_yield (args : list Object) : M unit :=
  cur ← current;
  c ← deref cur;
  let dest_fib := prev_ c in
  _ ← assert (negb (bool_decide (cur = dest_fib)));
  _ ← when (root_ c) (raise_fiber_error "can't yield from root fiber");
  _ ← update cur (set_prev None);
  _ ← update dest_fib (set_value (Some args));
  _ ← sleep cur;
  _ ← run dest_fib;
  switch_to dest_fib cur.

(** *** The phases of a switch, and example threads *)

(** The context a fiber has once [resume] or [transfer] has made sure
    there is one, and the state after that step. *)
Definition context_of (st : State) (f : Fiber) : FiberData :=
  match data_ f with
  | Some d => d
  | None => new_fiber_data (vm st) false
  end.

Definition with_context (st : State) (a : positive) (f : Fiber) : State :=
  match data_ f with
  | Some _ => st
  | None =>
      {| vm := vm st; current_fiber := current_fiber st;
         root_fiber := root_fiber st;
         fibers := <[a := set_data (Some (new_fiber_data (vm st) false)) f]>
                     (fibers st) |}
  end.

Definition fiber_with_context (st : State) (f : Fiber) : Fiber :=
  set_data (Some (context_of st f)) f.

(** The dead check of [resume] and [transfer]. *)
Definition dead (st : State) (f : Fiber) : bool :=
  bool_decide (status_ f = eDead) || dead_p (context_of st f).

(** A state is well formed when the fiber the VM is executing is an
    object of the heap and the VM knows its root fiber. *)
Definition wf (st : State) : Prop :=
  forall c, current_fiber st = Some c ->
    is_Some (fibers st !! c) /\ is_Some (root_fiber st).

(** The last steps every switch shares: link the destination, put the
    current fiber to sleep, run the destination and switch. *)
Definition enter (self : option positive) (p cur : option positive)
  : M unit :=
  _ ← update self (set_prev p);
  _ ← sleep cur;
  _ ← run self;
  switch_to self cur.

(** What is left of [resume] once the three checks have passed. *)
Definition resume_switch (self : option positive) (args : list Object)
  : M unit :=
  _ ← update self (set_value (Some args));
  cur ← current;
  _ ← update self (set_prev cur);
  _ ← sleep cur;
  _ ← run self;
  switch_to self cur.

(** What is left of [transfer] once its two checks have passed. *)
Definition transfer_switch (self : option positive) (args : list Object)
  : M unit :=
  _ ← update self (set_value (Some args));
  cur ← current;
  st' ← get_state;
  _ ← assert (is_Some_b (root_fiber st'));
  _ ← update self (set_prev (root_fiber st'));
  _ ← sleep cur;
  _ ← run self;
  switch_to self cur.

(** Three fibers on VM 1: the root fiber (address 1) resumed [worker]
    (address 2), which resumed [inner] (address 3), the fiber that is
    running. *)
Definition root_fib : Fiber :=
  {| status_ := eSleeping; root_ := true; prev_ := None; value_ := None;
     exception_ := None; data_ := Some (new_fiber_data 1 true) |}.

Definition worker : Fiber :=
  {| status_ := eSleeping; root_ := false; prev_ := Some 1%positive;
     value_ := None; exception_ := None;
     data_ := Some (new_fiber_data 1 false) |}.

Definition inner : Fiber :=
  {| status_ := eRunning; root_ := false; prev_ := Some 2%positive;
     value_ := None; exception_ := None;
     data_ := Some (new_fiber_data 1 false) |}.

Definition nested : State :=
  {| vm := 1; current_fiber := Some 3%positive;
     root_fiber := Some 1%positive;
     fibers := <[1%positive := root_fib]>
                 (<[2%positive := worker]> {[3%positive := inner]}) |}.

(** A thread that has one fiber, created and not yet resumed (address
    2), and what its root fiber and that fiber then do: the root fiber
    resumes the fiber and the fiber transfers to the root fiber. *)
Definition fresh_fiber : Fiber :=
  {| status_ := eNotStarted; root_ := false; prev_ := None; value_ := None;
     exception_ := None; data_ := None |}.

Definition one_fiber : State :=
  {| vm := 1; current_fiber := None; root_fiber := None;
     fibers := {[2%positive := fresh_fiber]} |}.

Definition resume_then_transfer_to_root : M unit :=
  _ ← resume (Some 2%positive) [];
  st ← get_state;
  transfer (root_fiber st) [].

End Fiber.

(** ** machine/builtin/variable_scope.cpp *)

Module VariableScope.

(** [memory::AddressDisplacement]: where the stack region a fiber runs on
    currently is. *)
Record AddressDisplacement : Type := mkAddressDisplacement {
  offset_ : Z;
  lower_bound_ : Z;
  upper_bound_ : Z
}.

(** The [VariableScope] object.  [parent_] and [fiber_] are object slots
    ([None] is [nil]); [heap_locals_] is the slot holding the [Tuple] of
    promoted locals; [locals_] is the address of the first stack slot;
    [number_of_locals_], [isolated_] and [flags_] are [int] fields;
    [lock_] is the spin lock, [true] while it is held. *)
Record VariableScope : Type := mkVariableScope {
  parent_ : option positive;
  heap_locals_ : option (list Object);
  locals_ : Z;
  number_of_locals_ : Z;
  isolated_ : bool;
  flags_ : Z;
  lock_ : bool;
  fiber_ : option positive
}.

(** What an access does, in the order it does it. *)
Inductive event : Type :=
| EvLock (scope : positive)
| EvUnlock (scope : positive)
| EvDisplace (ptr : Z)
| EvStackRead (addr : Z)
| EvStackWrite (addr : Z)
| EvHeapAt (scope : positive) (pos : Z)
| EvHeapPut (scope : positive) (pos : Z).

#[global] Instance event_eq_dec : EqDecision event.
Proof. solve_decision. Defined.

(** The store the scope code works on: the scope objects by address, for
    each [Fiber] object the displacement of its [FiberData] ([None] when
    the fiber has no data), the stack memory by slot address, and the
    trace of events so far. *)
Record Heap : Type := mkHeap {
  scopes : gmap positive VariableScope;
  fibers : gmap positive (option AddressDisplacement);
  stack : Z -> Object;
  log : list event
}.

(** How an access ends: with a value, in a fatal abort, or spinning on a
    lock that is held. *)
Inductive Result (A : Type) : Type :=
| Ok (a : A)
| Fatal
| Blocked.
Arguments Ok {A} a.
Arguments Fatal {A}.
Arguments Blocked {A}.

Definition emit (e : event) (h : Heap) : Heap :=
  {| scopes := scopes h; fibers := fibers h; stack := stack h;
     log := log h ++ [e] |}.

Definition store_scope (self : positive) (vs : VariableScope) (h : Heap)
  : Heap :=
  {| scopes := <[self := vs]> (scopes h); fibers := fibers h;
     stack := stack h; log := log h |}.

Definition store_stack (addr : Z) (val : Object) (h : Heap) : Heap :=
  {| scopes := scopes h; fibers := fibers h;
     stack := <[addr := val]> (stack h); log := log h |}.

Definition set_flags (fl : Z) (vs : VariableScope) : VariableScope :=
  {| parent_ := parent_ vs; heap_locals_ := heap_locals_ vs;
     locals_ := locals_ vs; number_of_locals_ := number_of_locals_ vs;
     isolated_ := isolated_ vs; flags_ := fl; lock_ := lock_ vs;
     fiber_ := fiber_ vs |}.

Definition set_lock (b : bool) (vs : VariableScope) : VariableScope :=
  {| parent_ := parent_ vs; heap_locals_ := heap_locals_ vs;
     locals_ := locals_ vs; number_of_locals_ := number_of_locals_ vs;
     isolated_ := isolated_ vs; flags_ := flags_ vs; lock_ := b;
     fiber_ := fiber_ vs |}.

Definition set_heap_locals (t : option (list Object)) (vs : VariableScope)
  : VariableScope :=
  {| parent_ := parent_ vs; heap_locals_ := t;
     locals_ := locals_ vs; number_of_locals_ := number_of_locals_ vs;
     isolated_ := isolated_ vs; flags_ := flags_ vs; lock_ := lock_ vs;
     fiber_ := fiber_ vs |}.

Definition set_isolated (b : bool) (vs : VariableScope) : VariableScope :=
  {| parent_ := parent_ vs; heap_locals_ := heap_locals_ vs;
     locals_ := locals_ vs; number_of_locals_ := number_of_locals_ vs;
     isolated_ := b; flags_ := flags_ vs; lock_ := lock_ vs;
     fiber_ := fiber_ vs |}.

(** Modelled from the spec: [Tuple::at] and [Tuple::put] (builtin/tuple.hpp
    is not among the sources) read and write one slot of the "owned heap
    storage addressed directly"; an index outside the tuple reads [nil]
    and is a fatal error when written. *)
Definition at_ (t : list Object) (pos : Z) : Object :=
  if 0 <=? pos then default cNil (t !! Z.to_nat pos) else cNil.

Definition put (t : list Object) (pos : Z) (val : Object)
  : option (list Object) :=
  if (0 <=? pos) && (pos <? Z.of_nat (length t))
  then Some (<[Z.to_nat pos := val]> t)
  else None.

(** A client of one scope: a sequence of local reads, local writes and
    promotions issued one after the other, and the store they leave. *)
Inductive access : Type :=
| Get (pos : Z)
| Put (pos : Z) (val : Object)
| Flush.

Definition is_flush (a : access) : bool :=
  match a with Flush => true | _ => false end.

Section WithConstants.

(** [CallFrame::cScopeLocked], a flag bit declared in call_frame.hpp. *)
Variable cScopeLocked : Z.

(** [AddressDisplacement::displace], declared in
    memory/address_displacement.hpp: the current address of a nominal
    stack pointer, or [None] where it gives up. *)
Variable displace : AddressDisplacement -> Z -> option Z.

(** Modelled from the spec: [locked_p] (variable_scope.hpp is not among
    the sources) tests the flag that [set_locked] sets: the scope is
    "lock-protected". *)
Definition locked_p (vs : VariableScope) : bool :=
  negb (Z.land (flags_ vs) cScopeLocked =? 0).

(** The [while] loop of [VariableScope::set_locked]:
    [while(parent && !parent->nil_p()) { parent->set_locked(state);
    parent = parent->parent(); }], with [recur] for the recursive call
    and [k] bounding the number of iterations. *)
Fixpoint set_locked_parents
    (recur : positive -> gmap positive VariableScope ->
             option (gmap positive VariableScope))
    (k : nat) (parent : option positive) (m : gmap positive VariableScope)
  : option (gmap positive VariableScope) :=
  match parent with
  | None => Some m
  | Some p =>
      match k with
      | O => None
      | S k' =>
          match recur p m with
          | None => None
          | Some m' =>
              match m' !! p with
              | None => None
              | Some pvs => set_locked_parents recur k' (parent_ pvs) m'
              end
          end
      end
  end.

(** [VariableScope::set_locked].  The recursion and the loop both walk
    the parent chain; [fuel] bounds the depth of the recursion and the
    number of iterations of each loop, and running out of it is [None]. *)
Fixpoint set_locked (fuel : nat) (self : positive)
    (m : gmap positive VariableScope) {struct fuel}
  : option (gmap positive VariableScope) :=
  match fuel with
  | O => None
  | S n =>
      match m !! self with
      | None => None
      | Some vs =>
          set_locked_parents (set_locked n) n (parent_ vs)
            (<[self := set_flags (Z.lor (flags_ vs) cScopeLocked) vs]> m)
      end
  end.

(** [utilities::thread::SpinLock::LockGuard guard(lock_)] around [body]:
    taking a lock that is held never returns. *)
Definition with_lock {A : Type} (self : positive)
    (body : Heap -> Result A * Heap) (h : Heap) : Result A * Heap :=
  match scopes h !! self with
  | None => (Fatal, h)
  | Some vs =>
      if lock_ vs then (Blocked, h)
      else
        let '(r, h') :=
          body (emit (EvLock self) (store_scope self (set_lock true vs) h)) in
        match scopes h' !! self with
        | None => (Fatal, h')
        | Some vs' =>
            (r, emit (EvUnlock self) (store_scope self (set_lock false vs') h'))
        end
  end.

(** The pointer computation the stack accessors share: [locals_], moved
    by the displacement of the fiber's data when the scope has a fiber and
    the fiber has data. *)
Definition displaced_locals (vs : VariableScope) (h : Heap)
  : Result Z * Heap :=
  match fiber_ vs with
  | Some fib =>
      match fibers h !! fib with
      | Some (Some dis) =>
          match displace dis (locals_ vs) with
          | Some ary => (Ok ary, emit (EvDisplace (locals_ vs)) h)
          | None => (Fatal, emit (EvDisplace (locals_ vs)) h)
          end
      | _ => (Ok (locals_ vs), h)
      end
  | None => (Ok (locals_ vs), h)
  end.

(** [VariableScope::get_local(int pos)] *)
Definition get_local_stack (vs : VariableScope) (pos : Z) (h : Heap)
  : Result Object * Heap :=
  match displaced_locals vs h with
  | (Ok ary, h') => (Ok (stack h' (ary + pos)), emit (EvStackRead (ary + pos)) h')
  | (Fatal, h') => (Fatal, h')
  | (Blocked, h') => (Blocked, h')
  end.

(** [VariableScope::set_local(int pos, Object* val)] *)
Definition set_local_stack (vs : VariableScope) (pos : Z) (val : Object)
    (h : Heap) : Result unit * Heap :=
  match displaced_locals vs h with
  | (Ok ary, h') =>
      (Ok tt, emit (EvStackWrite (ary + pos)) (store_stack (ary + pos) val h'))
  | (Fatal, h') => (Fatal, h')
  | (Blocked, h') => (Blocked, h')
  end.

(** [VariableScope::get_local_internal] *)
Definition get_local_internal (self : positive) (pos : Z) (h : Heap)
  : Result Object * Heap :=
  match scopes h !! self with
  | None => (Fatal, h)
  | Some vs =>
      if isolated_ vs then
        match heap_locals_ vs with
        | Some t => (Ok (at_ t pos), emit (EvHeapAt self pos) h)
        | None => (Fatal, h)
        end
      else get_local_stack vs pos h
  end.

(** [VariableScope::set_local_internal] *)
Definition set_local_internal (self : positive) (pos : Z) (val : Object)
    (h : Heap) : Result unit * Heap :=
  match scopes h !! self with
  | None => (Fatal, h)
  | Some vs =>
      if isolated_ vs then
        match heap_locals_ vs with
        | Some t =>
            match put t pos val with
            | Some t' =>
                (Ok tt, emit (EvHeapPut self pos)
                          (store_scope self (set_heap_locals (Some t') vs) h))
            | None => (Fatal, h)
            end
        | None => (Fatal, h)
        end
      else set_local_stack vs pos val h
  end.

(** [VariableScope::get_local(STATE, int pos)] *)
Definition get_local (self : positive) (pos : Z) (h : Heap)
  : Result Object * Heap :=
  match scopes h !! self with
  | None => (Fatal, h)
  | Some vs =>
      if locked_p vs then with_lock self (get_local_internal self pos) h
      else get_local_internal self pos h
  end.

(** [VariableScope::set_local(STATE, int pos, Object* val)] *)
Definition set_local (self : positive) (pos : Z) (val : Object) (h : Heap)
  : Result unit * Heap :=
  match scopes h !! self with
  | None => (Fatal, h)
  | Some vs =>
      if locked_p vs then with_lock self (set_local_internal self pos val) h
      else set_local_internal self pos val h
  end.

(** The copy loop of [flush_to_heap_internal]:
    [for(int i = 0; i < number_of_locals_; i++) new_locals[i] = locals_[i]],
    reading [count] slots from [addr] on. *)
Fixpoint copy_locals (count : nat) (addr : Z) (mem : Z -> Object)
  : list Object :=
  match count with
  | O => []
  | S k => mem addr :: copy_locals k (addr + 1) mem
  end.

(** [VariableScope::flush_to_heap_internal] *)
Definition flush_to_heap_internal (self : positive) (h : Heap)
  : Result unit * Heap :=
  match scopes h !! self with
  | None => (Fatal, h)
  | Some vs =>
      if isolated_ vs then (Ok tt, h)
      else
        let new_locals :=
          copy_locals (Z.to_nat (number_of_locals_ vs)) (locals_ vs) (stack h) in
        (Ok tt,
         store_scope self
           (set_isolated true (set_heap_locals (Some new_locals) vs)) h)
  end.

(** [flags_ &= ~CallFrame::cScopeLocked] *)
Definition clear_locked (self : positive) (h : Heap) : Heap :=
  match scopes h !! self with
  | None => h
  | Some vs =>
      store_scope self
        (set_flags (Z.land (flags_ vs) (Z.lnot cScopeLocked)) vs) h
  end.

(** [VariableScope::flush_to_heap] *)
Definition flush_to_heap (self : positive) (h : Heap) : Result unit * Heap :=
  match scopes h !! self with
  | None => (Fatal, h)
  | Some vs =>
      if locked_p vs then
        with_lock self
          (fun h1 =>
             match flush_to_heap_internal self h1 with
             | (Ok _, h2) => (Ok tt, clear_locked self h2)
             | other => other
             end) h
      else flush_to_heap_internal self h
  end.

(** The store after one access, and after a sequence of them. *)
Definition perform (self : positive) (a : access) (h : Heap) : Heap :=
  match a with
  | Get pos => snd (get_local self pos h)
  | Put pos val => snd (set_local self pos val h)
  | Flush => snd (flush_to_heap self h)
  end.

Fixpoint accesses (self : positive) (l : list access) (h : Heap) : Heap :=
  match l with
  | [] => h
  | a :: rest => accesses self rest (perform self a h)
  end.

(** *** Parent chains, traces and the promoted scope *)

(** The events of the spin lock. *)
Definition lock_event (e : event) : bool :=
  match e with
  | EvLock _ | EvUnlock _ => true
  | _ => false
  end.


(** [flags_ |= CallFrame::cScopeLocked] on one scope. *)
Definition lock_flag (vs : VariableScope) : VariableScope :=
  set_flags (Z.lor (flags_ vs) cScopeLocked) vs.

(** [chain m a l]: following the parent links from [a] visits exactly the
    scopes [l], [a] first, and ends at a scope whose parent is nil. *)
Inductive chain (m : gmap positive VariableScope)
  : positive -> list positive -> Prop :=
| chain_top a vs :
    m !! a = Some vs -> parent_ vs = None -> chain m a [a]
| chain_up a vs p l :
    m !! a = Some vs -> parent_ vs = Some p -> chain m p l ->
    chain m a (a :: l).

(** The chain that starts at a parent link. *)
Definition chain_from (m : gmap positive VariableScope)
    (parent : option positive) (l : list positive) : Prop :=
  match parent with
  | None => l = []
  | Some p => chain m p l
  end.

(** [locks l m m']: [m'] is [m] with the locked flag set on the scopes
    [l] and nothing else changed. *)
Definition locks (l : list positive) (m m' : gmap positive VariableScope)
  : Prop :=
  forall x, m' !! x = if decide (x ∈ l) then lock_flag <$> m !! x else m !! x.

(** The scope after [flush_to_heap_internal]: already isolated scopes are
    left alone, the others get a tuple copied from the stack slots. *)
Definition promote (h : Heap) (vs : VariableScope) : VariableScope :=
  if isolated_ vs then vs
  else
    set_isolated true
      (set_heap_locals
         (Some (copy_locals (Z.to_nat (number_of_locals_ vs)) (locals_ vs)
                  (stack h))) vs).

(** The scope after [flush_to_heap]. *)
Definition flushed (h : Heap) (vs : VariableScope) : VariableScope :=
  if locked_p vs
  then set_flags (Z.land (flags_ vs) (Z.lnot cScopeLocked)) (promote h vs)
  else promote h vs.

(** The trace of [n] accesses each made under the lock of [self]. *)
Inductive locked_trace (self : positive) : nat -> list event -> Prop :=
| locked_trace_nil : locked_trace self 0 []
| locked_trace_cons n inner tr :
    Forall (fun e => lock_event e = false) inner ->
    locked_trace self n tr ->
    locked_trace self (S n) (EvLock self :: inner ++ EvUnlock self :: tr).

End WithConstants.

(** *** An example store

    Three nested scopes: [leaf] (address 1) inside [middle] (address 2)
    inside [top] (address 3).  [leaf] is locked and lives on the stack at
    slots 100 and 101.  The flag bit and the displacement function are
    one possible choice for the two constants. *)
Definition example_cScopeLocked : Z := 4096.

Definition example_displace (dis : AddressDisplacement) (ptr : Z) : option Z :=
  if (lower_bound_ dis <=? ptr) && (ptr <? upper_bound_ dis)
  then Some (ptr + offset_ dis) else None.

Definition leaf : VariableScope :=
  {| parent_ := Some 2%positive; heap_locals_ := None; locals_ := 100;
     number_of_locals_ := 2; isolated_ := false; flags_ := 4096;
     lock_ := false; fiber_ := None |}.

Definition middle : VariableScope :=
  {| parent_ := Some 3%positive; heap_locals_ := None; locals_ := 200;
     number_of_locals_ := 1; isolated_ := false; flags_ := 0;
     lock_ := false; fiber_ := None |}.

Definition top : VariableScope :=
  {| parent_ := None; heap_locals_ := None; locals_ := 300;
     number_of_locals_ := 0; isolated_ := false; flags_ := 1;
     lock_ := false; fiber_ := None |}.

Definition example_scopes : gmap positive VariableScope :=
  <[1%positive := leaf]> (<[2%positive := middle]> {[3%positive := top]}).

Definition example_heap : Heap :=
  {| scopes := example_scopes; fibers := ∅;
     stack := fun a => if a =? 100 then Fixnum 7
                       else if a =? 101 then cTrue else cNil;
     log := [] |}.

(** The same store once [set_locked] has run on [leaf]: the three scopes
    carry the flag. *)
Definition locked_heap : Heap :=
  {| scopes :=
       <[1%positive := leaf]>
         (<[2%positive := set_flags 4096 middle]>
            {[3%positive := set_flags 4097 top]});
     fibers := ∅; stack := stack example_heap; log := [] |}.

End VariableScope.

(** ** machine/builtin/thread.cpp *)

Module Thread.

(** The part of a [Thread] object that [Thread::join] and the end of
    [Thread::run] read and write: [vm_] is the [VM*] ([None] is NULL) and
    [alive_] the slot holding [cTrue] or [cFalse]. *)
Record Thread : Type := mkThread {
  vm_ : option positive;
  alive_ : Object
}.

(** [Thread::stopped] *)
Definition stopped (t : Thread) : Thread :=
  {| vm_ := vm_ t; alive_ := cFalse |}.

(** [utilities::thread::Code], as far as a wait on a condition returns
    it. *)
Inductive Code : Type := cReady | cTimedOut.

(** Exceptions [join] can raise: [as<Float>] on something that is not a
    [Float]. *)
Inductive Exception : Type := TypeError.

(** Where [Thread::join] stands once it holds [join_lock_] and has read
    [alive]: it returns, it raises, or it waits on [join_cond_], with or
    without a deadline. *)
Inductive JoinStep : Type :=
| Return (result : option positive)
| Raise (e : Exception)
| Wait
| WaitUntil (deadline : Z).

(** [Thread::join] up to the wait.  [self] is the address of the thread
    object, the handle [join] returns; [None] is [nil<Thread>()]. *)
Definition join_enter (self : positive) (t : Thread) (timeout : Object)
  : JoinStep :=
  match vm_ t with
  | None => Return None
  | Some _ =>
      if true_p (alive_ t) then
        if nil_p timeout then Wait
        else
          match timeout with
          | Float bits => WaitUntil bits
          | _ => Raise TypeError
          end
      else Return (Some self)
  end.

(** [Thread::join] after the wait has returned [code]. *)
Definition join_resume (self : positive) (timed : bool) (code : Code)
  : option positive :=
  match timed, code with
  | true, cTimedOut => None
  | _, _ => Some self
  end.

(** [Thread::join] from call to return, given what the wait returns if
    there is one.  [inl] is the returned [Thread*]. *)
Definition join (self : positive) (t : Thread) (timeout : Object)
    (code : Code) : option positive + Exception :=
  match join_enter self t timeout with
  | Return r => inl r
  | Raise e => inr e
  | Wait => inl (join_resume self false code)
  | WaitUntil _ => inl (join_resume self true code)
  end.

(** *** The joiner and the joined thread together

    One thread runs the end of [Thread::run] on the thread object, the
    other calls [join] on it.  [join_lock_] is held by one of them or
    free. *)
Inductive Owner : Type := Target | Joiner.

(** Where the joined thread is in [Thread::run]: still running its
    function, after [join_lock_.lock()], after [stopped()], after
    [join_cond_.broadcast()], after [join_lock_.unlock()]. *)
Inductive TargetPc : Type :=
| TRunning | TLocked | TStopped | TBroadcast | TExited.

(** Where the joiner is in [Thread::join]: called, holding the lock,
    inside the wait (lock released), out of the wait with [code] but not
    yet holding the lock again, or done. *)
Inductive JoinerPc : Type :=
| JCalled
| JLocked
| JWaiting (timed : bool)
| JWoken (timed : bool) (code : Code)
| JReturned (result : option positive)
| JRaised (e : Exception).

Record System : Type := mkSystem {
  thread : Thread;
  join_lock_ : option Owner;
  target : TargetPc;
  joiner : JoinerPc
}.

#[global] Instance Owner_eq_dec : EqDecision Owner.
Proof. solve_decision. Defined.

(** Modelled from the spec: [Mutex] and [Condition] of
    utilities/thread.hpp, which is not among the sources.  A lock is
    taken only when it is free; a wait releases the lock, returns
    [cReady] once the condition has been broadcast and, when it has a
    deadline, [cTimedOut] once the deadline has passed; it returns
    holding the lock again.  [spurious] tells whether the condition
    variable is one whose wait may also return [cReady] with no
    broadcast, as the waits of a pthread condition may. *)
Inductive step (spurious : bool) (self : positive) (timeout : Object)
  : System -> System -> Prop :=
| step_target_lock t jp :
    step spurious self timeout
      {| thread := t; join_lock_ := None; target := TRunning; joiner := jp |}
      {| thread := t; join_lock_ := Some Target; target := TLocked; joiner := jp |}
| step_target_stopped t jp :
    step spurious self timeout
      {| thread := t; join_lock_ := Some Target; target := TLocked; joiner := jp |}
      {| thread := stopped t; join_lock_ := Some Target; target := TStopped;
         joiner := jp |}
| step_target_broadcast t jp :
    step spurious self timeout
      {| thread := t; join_lock_ := Some Target; target := TStopped; joiner := jp |}
      {| thread := t; join_lock_ := Some Target; target := TBroadcast;
         joiner := match jp with
                   | JWaiting timed => JWoken timed cReady
                   | _ => jp
                   end |}
| step_target_unlock t jp :
    step spurious self timeout
      {| thread := t; join_lock_ := Some Target; target := TBroadcast; joiner := jp |}
      {| thread := t; join_lock_ := None; target := TExited; joiner := jp |}
| step_join_unbound t l tp :
    vm_ t = None ->
    step spurious self timeout
      {| thread := t; join_lock_ := l; target := tp; joiner := JCalled |}
      {| thread := t; join_lock_ := l; target := tp; joiner := JReturned None |}
| step_join_lock t tp :
    vm_ t <> None ->
    step spurious self timeout
      {| thread := t; join_lock_ := None; target := tp; joiner := JCalled |}
      {| thread := t; join_lock_ := Some Joiner; target := tp; joiner := JLocked |}
| step_join_enter t tp :
    step spurious self timeout
      {| thread := t; join_lock_ := Some Joiner; target := tp; joiner := JLocked |}
      {| thread := t; join_lock_ := None; target := tp;
         joiner := match join_enter self t timeout with
                   | Return r => JReturned r
                   | Raise e => JRaised e
                   | Wait => JWaiting false
                   | WaitUntil _ => JWaiting true
                   end |}
| step_join_deadline t l tp :
    step spurious self timeout
      {| thread := t; join_lock_ := l; target := tp; joiner := JWaiting true |}
      {| thread := t; join_lock_ := l; target := tp;
         joiner := JWoken true cTimedOut |}
| step_join_spurious t l tp timed :
    spurious = true ->
    step spurious self timeout
      {| thread := t; join_lock_ := l; target := tp; joiner := JWaiting timed |}
      {| thread := t; join_lock_ := l; target := tp;
         joiner := JWoken timed cReady |}
| step_join_resume t tp timed code :
    step spurious self timeout
      {| thread := t; join_lock_ := None; target := tp;
         joiner := JWoken timed code |}
      {| thread := t; join_lock_ := None; target := tp;
         joiner := JReturned (join_resume self timed code) |}.

(** The two situations in which [join] is called: on a thread that is
    still running its function, and on one that has finished. *)
Definition running (v : positive) : System :=
  {| thread := {| vm_ := Some v; alive_ := cTrue |};
     join_lock_ := None; target := TRunning; joiner := JCalled |}.


(** *** The invariant of the join protocol *)






End Thread.

(** ** machine/memory/immix_marker.cpp *)

Module ImmixMarker.

(** The flags of [Memory] the marker reads and writes. *)
Record Memory : Type := mkMemory {
  mature_mark_in_progress_ : bool;
  interrupt_ : bool;
  collect_full_ : bool;
  collect_young_ : bool
}.

(** What the marker thread sees: the memory flags, its own [thread_exit_]
    and [data_] ([None] is NULL), and [clock], the number of calls it has
    made into the rest of the VM so far. *)
Record World : Type := mkWorld {
  memory : Memory;
  thread_exit_ : bool;
  data_ : option positive;
  clock : nat
}.

(** Modelled from the spec: the accessors of memory.hpp, which is not
    among the sources: the "mark in progress" flag and the three requests
    the loop checks (full collection, young collection, interrupt). *)
Definition clear_mature_mark_in_progress (w : World) : World :=
  {| memory := {| mature_mark_in_progress_ := false;
                  interrupt_ := interrupt_ (memory w);
                  collect_full_ := collect_full_ (memory w);
                  collect_young_ := collect_young_ (memory w) |};
     thread_exit_ := thread_exit_ w; data_ := data_ w; clock := clock w |}.

Definition reset_interrupt (w : World) : World :=
  {| memory := {| mature_mark_in_progress_ := mature_mark_in_progress_ (memory w);
                  interrupt_ := false;
                  collect_full_ := collect_full_ (memory w);
                  collect_young_ := collect_young_ (memory w) |};
     thread_exit_ := thread_exit_ w; data_ := data_ w; clock := clock w |}.

Definition collect_full_p (w : World) : bool := collect_full_ (memory w).
Definition collect_young_p (w : World) : bool := collect_young_ (memory w).
Definition interrupt_p (w : World) : bool := interrupt_ (memory w).

(** [ImmixMarker::cleanup] *)
Definition cleanup (w : World) : World :=
  {| memory := memory w; thread_exit_ := thread_exit_ w;
     data_ := None; clock := clock w |}.

(** The calls [run] makes into the rest of the VM; [LockPhaseEnter] and
    [LockPhaseLeave] are the constructor and the destructor of the
    [LockPhase] guard. *)
Inductive Call : Type :=
| BecomeManaged
| Blocking
| Yielding
| SetStop
| LockPhaseEnter
| CollectFullFinish
| CollectFullRestart
| LockPhaseLeave
| SleepingSuspend.

Section WithEnvironment.

(** What a call does to the world, the other threads included: anything.
    [process_mark_stack] also returns whether the loop goes on. *)
Variable env : Call -> World -> World.
Variable process_mark_stack : bool -> World -> bool * World.

(** The base class method [InternalThread::after_fork_child]
    (internal_thread.cpp is not among the sources): it works on the
    thread object, here [thread_exit_]. *)
Variable InternalThread_after_fork_child : bool -> bool.

Definition tick (before after : World) : World :=
  {| memory := memory after; thread_exit_ := thread_exit_ after;
     data_ := data_ after; clock := S (clock before) |}.

Definition call (c : Call) (w : World) : World := tick w (env c w).

(** [ImmixMarker::after_fork_child] *)
Definition after_fork_child (w : World) : World :=
  let w1 := cleanup w in
  let w2 := clear_mature_mark_in_progress w1 in
  {| memory := memory w2;
     thread_exit_ := InternalThread_after_fork_child (thread_exit_ w2);
     data_ := data_ w2; clock := clock w2 |}.

(** The inner loop of [run]:
    [while(immix_->process_mark_stack(interrupt_p())) { ... }].  The
    result is the world at the exit of the loop, [None] when the fuel is
    used up first. *)
Fixpoint mark_loop (fuel : nat) (w : World) : option World :=
  match fuel with
  | O => None
  | S k =>
      let '(more, after) := process_mark_stack (interrupt_p w) w in
      let w1 := tick w after in
      if more then
        if thread_exit_ w1 || collect_full_p w1 then Some w1
        else
          let w2 :=
            if collect_young_p w1 then call Yielding w1
            else if interrupt_p w1 then reset_interrupt (call Yielding w1)
            else w1 in
          mark_loop k (call Blocking w2)
      else Some w1
  end.

(** The outer loop of [run]: [while(!thread_exit_) { ... }]. *)
Fixpoint run_loop (fuel : nat) (w : World) : option World :=
  match fuel with
  | O => None
  | S k =>
      if thread_exit_ w then Some w
      else
        match mark_loop k (call Blocking w) with
        | None => None
        | Some w1 =>
            if thread_exit_ w1 then Some w1
            else if collect_full_p w1 then
              run_loop k
                (call LockPhaseLeave
                   (call CollectFullRestart
                      (call CollectFullFinish
                         (call LockPhaseEnter (call SetStop w1)))))
            else run_loop k (call SleepingSuspend w1)
        end
  end.

(** [ImmixMarker::run] *)
Definition run (fuel : nat) (w : World) : option World :=
  match run_loop fuel (call BecomeManaged w) with
  | None => None
  | Some w' => Some (clear_mature_mark_in_progress w')
  end.

(** *** Stop requests *)

(** [stop_by k0]: the stop request has reached the marker by the time its
    [k0]-th call returns: from then on every call returns with
    [thread_exit_] set. *)
Definition stop_by (k0 : nat) : Prop :=
  (forall c w, (k0 <= S (clock w))%nat -> thread_exit_ (env c w) = true) /\
  (forall b w, (k0 <= S (clock w))%nat ->
     thread_exit_ (snd (process_mark_stack b w)) = true).

(** A world the marker holds after a call has returned. *)
Definition settled (k0 : nat) (w : World) : Prop :=
  (k0 <= clock w)%nat -> thread_exit_ w = true.

End WithEnvironment.

(** A marker that is asked to stop before it starts: the environment
    sets [thread_exit_] in every call and finds no more marking work. *)
Definition stopping_env (c : Call) (w : World) : World :=
  {| memory := {| mature_mark_in_progress_ := true;
                  interrupt_ := interrupt_ (memory w);
                  collect_full_ := collect_full_ (memory w);
                  collect_young_ := collect_young_ (memory w) |};
     thread_exit_ := true; data_ := data_ w; clock := clock w |}.

Definition idle_mark_stack (b : bool) (w : World) : bool * World :=
  (false, stopping_env Blocking w).

Definition marking_world : World :=
  {| memory := {| mature_mark_in_progress_ := true; interrupt_ := false;
                  collect_full_ := false; collect_young_ := false |};
     thread_exit_ := false; data_ := Some 1%positive; clock := 0 |}.

End ImmixMarker.

(** ** machine/builtin/channel.cpp: the blocking receive *)

Module ChannelWait.

Import Channel.

(** What the receiving thread carries besides the channel: whether the
    channel object is pinned, whether the VM is registered as waiting on
    it ([wait_on_channel] / [clear_waiter]) and the [sleep] slot of its
    [Thread]. *)
Record World : Type := mkWorld {
  channel : Channel;
  pinned : bool;
  waiter : bool;
  thread_sleep : Object
}.

Definition set_channel (w : World) (c : Channel) : World :=
  {| channel := c; pinned := pinned w; waiter := waiter w;
     thread_sleep := thread_sleep w |}.

(** How the primitive ends: with an object, with [NULL] (an exception is
    pending), with [Primitives::failure()], or in [rubinius::bug]. *)
Inductive Returned : Type :=
| Value (o : Object)
| Null
| Failure
| Bug.

(** One return of [condition_.wait] / [condition_.wait_until]: the code
    it returns, what the other threads did to the channel while the mutex
    was released, and the answer of the [check_async] that follows. *)
Record Wake : Type := mkWake {
  code : Thread.Code;
  during : Channel -> Channel;
  async : bool
}.

(** [semaphore_count_ > 0 || !value()->empty_p()] *)
Definition available (c : Channel) : bool :=
  (0 <? semaphore_count_ c) || negb (empty_p (value_ c)).

(** The [for(;;)] loop: the exception flag and the channel when it is
    left; [None] while the thread is still blocked in the wait. *)
Fixpoint wait_loop (use_timed_wait : bool) (wakes : list Wake) (c : Channel)
  : option (bool * Channel) :=
  match wakes with
  | [] => None
  | w :: rest =>
      let c' := during w c in
      if use_timed_wait &&
         match code w with Thread.cTimedOut => true | Thread.cReady => false end
      then Some (false, c')
      else if available c' then Some (false, c')
      else if negb (async w) then Some (true, c')
      else wait_loop use_timed_wait rest c'
  end.

(** The three kinds of [duration] the primitive accepts. *)
Definition use_timed_wait (duration : Object) : option bool :=
  match duration with
  | Fixnum _ => Some true
  | Float _ => Some true
  | cNil => Some false
  | _ => None
  end.

(** [Channel::receive_timeout].  [pin] is the result of [self->pin()],
    [async0] and [async_end] the answers of the [check_async] before and
    after the loop, [wakes] the returns of the condition variable. *)
Definition receive_timeout (duration : Object) (pin async0 : bool)
    (wakes : list Wake) (async_end : bool) (w : World)
  : option (Returned * World) :=
  let self := channel w in
  if 0 <? semaphore_count_ self then
    Some (Value cNil,
          set_channel w
            {| value_ := value_ self;
               semaphore_count_ := semaphore_count_ self - 1;
               waiters_ := waiters_ self;
               condition_ := condition_ self |})
  else if negb (empty_p (value_ self)) then
    let '(o, rest) := shift (value_ self) in
    Some (Value o,
          set_channel w
            {| value_ := rest;
               semaphore_count_ := semaphore_count_ self;
               waiters_ := waiters_ self;
               condition_ := condition_ self |})
  else
    match use_timed_wait duration with
    | None => Some (Failure, w)
    | Some timed =>
        if negb pin then Some (Bug, w)
        else
          let w1 := {| channel := self; pinned := true; waiter := waiter w;
                       thread_sleep := thread_sleep w |} in
          if negb async0 then Some (Null, w1)
          else
            let self1 :=
              {| value_ := value_ self;
                 semaphore_count_ := semaphore_count_ self;
                 waiters_ := waiters_ self + 1;
                 condition_ := condition_ self |} in
            match wait_loop timed wakes self1 with
            | None => None
            | Some (exception, self2) =>
                let self3 :=
                  {| value_ := value_ self2;
                     semaphore_count_ := semaphore_count_ self2;
                     waiters_ := waiters_ self2 - 1;
                     condition_ := condition_ self2 |} in
                let w3 := {| channel := self3; pinned := false;
                             waiter := false; thread_sleep := cFalse |} in
                if exception || negb async_end then Some (Null, w3)
                else if 0 <? semaphore_count_ self3 then
                  Some (Value cNil,
                        {| channel :=
                             {| value_ := value_ self3;
                                semaphore_count_ := semaphore_count_ self3 - 1;
                                waiters_ := waiters_ self3;
                                condition_ := condition_ self3 |};
                           pinned := false; waiter := false;
                           thread_sleep := cFalse |})
                else if empty_p (value_ self3) then Some (Value cFalse, w3)
                else
                  let '(o, rest) := shift (value_ self3) in
                  Some (Value o,
                        {| channel :=
                             {| value_ := rest;
                                semaphore_count_ := semaphore_count_ self3;
                                waiters_ := waiters_ self3;
                                condition_ := condition_ self3 |};
                           pinned := false; waiter := false;
                           thread_sleep := cFalse |})
            end
    end.

(** [Channel::receive] *)
Definition receive (pin async0 : bool) (wakes : list Wake) (async_end : bool)
    (w : World) : option (Returned * World) :=
  receive_timeout cNil pin async0 wakes async_end w.

(** A return of the wait at which nothing has changed and nothing is
    pending for the thread: a spurious wake-up. *)
Definition spurious (w : Wake) : Prop :=
  (forall c, during w c = c) /\ async w = true /\ code w = Thread.cReady.

(** The wake-up caused by another thread's [send] of [val]. *)
Definition sent_by (val : Object) (w : Wake) : Prop :=
  (forall c, during w c = snd (send c val)) /\ code w = Thread.cReady.

(** The expiry of the deadline, nothing having been sent. *)
Definition timed_out (w : Wake) : Prop :=
  (forall c, during w c = c) /\ code w = Thread.cTimedOut.

End ChannelWait.

(** ** machine/fiber_stack.cpp: giving a lease back, and the GC hooks *)

Module FiberStacksPool.

Import FiberStacks.

(** [FiberStack::orphan] called through the [FiberStack*] that
    [FiberStacks::allocate] returned: the stack at position [i] of the
    pool gives up the lease of [user]. *)
Definition orphan_at (self : FiberStacks) (i : nat) (user : positive)
  : FiberStacks :=
  {| max_stacks_ := max_stacks_ self;
     stacks_ := alter (fun s => orphan s user) i (stacks_ self) |}.

(** A client of the pool: leases and the return of leases, in any
    order. *)
Inductive request : Type :=
| Lease (stack_size : N)
| Orphan (i : nat) (user : positive).

Section WithMalloc.

Variable malloc : N -> option positive.

Fixpoint serve (reqs : list request) (self : FiberStacks)
  : outcome FiberStacks :=
  match reqs with
  | [] => Done self
  | Lease stack_size :: rest =>
      match allocate malloc self stack_size with
      | Done (_, self') => serve rest self'
      | AssertFailed => AssertFailed
      | Aborted => Aborted
      end
  | Orphan i user :: rest => serve rest (orphan_at self i user)
  end.

End WithMalloc.

(** Modelled from the spec: the part of [FiberData] (fiber_data.hpp is
    not among the sources) the pool's GC hooks read and write; a context
    "tracks liveness and GC-markedness".  [dead] stands for
    [status_ == eDead], [mark] for the flag behind [marked_p],
    [set_mark] and [clear_mark]; [call_frame] is [None] for a null
    [CallFrame*]. *)
Record FiberData : Type := mkFiberData {
  dead : bool;
  mark : bool;
  call_frame : option positive
}.

Definition set_mark (d : FiberData) : FiberData :=
  {| dead := dead d; mark := true; call_frame := call_frame d |}.

Definition clear_mark (d : FiberData) : FiberData :=
  {| dead := dead d; mark := false; call_frame := call_frame d |}.

(** [datas_], a [std::set<FiberData*>]: the registered contexts by
    address. *)
Abbreviation Datas := (gmap positive FiberData).

(** What [gc_scan] asks of the collector for the context at [data]. *)
Inductive GcCall : Type :=
| walk_call_frame (data : positive) (cf : positive)
| scan (data : positive).

(** The body of the loop of [FiberStacks::gc_scan] for one context:
    what becomes of the context, and the calls made to the collector. *)
Definition gc_scan_data (marked_only : bool) (d : FiberData) : FiberData :=
  if dead d then d
  else if marked_only && negb (mark d) then
    {| dead := true; mark := mark d; call_frame := call_frame d |}
  else d.

Definition gc_scan_calls (marked_only : bool) (a : positive) (d : FiberData)
  : list GcCall :=
  if dead d then []
  else if marked_only && negb (mark d) then []
  else
    match call_frame d with
    | Some cf => [walk_call_frame a cf; scan a]
    | None => [scan a]
    end.

(** [FiberStacks::gc_scan].  The calls are listed context by context;
    the order in which the set is walked is that of [map_to_list]. *)
Definition gc_scan (marked_only : bool) (datas : Datas)
  : Datas * list GcCall :=
  (fmap (gc_scan_data marked_only) datas,
   concat (map (fun '(a, d) => gc_scan_calls marked_only a d)
             (map_to_list datas))).

(** [FiberStacks::gc_clear_mark] *)
Definition gc_clear_mark (datas : Datas) : Datas := fmap clear_mark datas.

(** [Fiber::Info::mark] (builtin/fiber.cpp), after [auto_mark]: [data] is
    the [data_] pointer of the fiber the collector has reached; a pointer
    the pool does not hold is not followed. *)
Definition Info_mark (data : option positive) (datas : Datas) : Datas :=
  match data with
  | None => datas
  | Some a =>
      match datas !! a with
      | Some d => if dead d then datas else <[a := set_mark d]> datas
      | None => datas
      end
  end.

(** One collection as the pool sees it: the marks are cleared, the
    collector reaches the fibers whose contexts are [reached], and the
    contexts are scanned with [marked_only]. *)
Definition collection (reached : list (option positive)) (datas : Datas)
  : Datas * list GcCall :=
  gc_scan true (foldr Info_mark (gc_clear_mark datas) reached).

(** Two candidates of the second loop that the loop cannot tell apart:
    it looks at the reference counts only. *)
Definition same_candidate (a b : option (nat * FiberStack)) : Prop :=
  match a, b with
  | None, None => True
  | Some (i, s), Some (j, t) => i = j /\ refs_ s = refs_ t
  | _, _ => False
  end.

(** What every request keeps: the pool is within its maximum, and the
    stacks it had are where they were, with their memory. *)
Definition within_maximum (self : FiberStacks) : Prop :=
  (N.of_nat (length (stacks_ self)) <= max_stacks_ self)%N.

Definition extends (self self' : FiberStacks) : Prop :=
  max_stacks_ self' = max_stacks_ self /\
  forall j s, stacks_ self !! j = Some s ->
    exists s', stacks_ self' !! j = Some s' /\
      address_ s' = address_ s /\ size_ s' = size_ s.

(** The marks of the contexts after the collector has reached the
    fibers whose contexts are [reached]. *)
Definition marked_if_reached (reached : list (option positive))
    (a : positive) (d : FiberData) : FiberData :=
  {| dead := dead d;
     mark := negb (dead d) && bool_decide (Some a ∈ reached);
     call_frame := call_frame d |}.

(** Two registered contexts: the first carries a mark from an earlier
    collection, the second belongs to a fiber that is still reachable. *)
Definition two_contexts : gmap positive FiberData :=
  <[1%positive := {| dead := false; mark := true;
                     call_frame := Some 9%positive |}]>
    {[2%positive := {| dead := false; mark := false; call_frame := None |}]}.

End FiberStacksPool.

(** ** machine/builtin/fiber.cpp: after the switch, and the end of a fiber *)

Module FiberReturn.

Import Fiber.

(** What a fiber primitive hands to managed code once control is back in
    the fiber that called it: an object, the [Array] of the values
    passed, or (a null result) the exception it has raised. *)
Inductive Returned : Type :=
| Value (o : Object)
| ArrayValue (elems : list Object)
| Raised (exc : Object).

(** The end of [resume], [transfer] and [s_yield]:
    [if(ret->nil_p()) return cNil; switch(ret->size()) ...]. *)
Definition unwrap (ret : option (list Object)) : Returned :=
  match ret with
  | None => Value cNil
  | Some [] => Value cNil
  | Some [o] => Value o
  | Some elems => ArrayValue elems
  end.

(** Slot writer of the header: [exception(state, e)]. *)
Definition set_exception (e : option Object) (f : Fiber) : Fiber :=
  {| status_ := status_ f; root_ := root_ f; prev_ := prev_ f;
     value_ := value_ f; exception_ := e; data_ := data_ f |}.

(** [Fiber::resume] from "Back here when someone yields back to us!":
    the pending exception is raised and cleared, otherwise the pending
    value is unwrapped.  [Fiber::transfer] ends with the same lines. *)
Definition resume_return : M Returned :=
  cur ← current;
  c ← deref cur;
  match exception_ c with
  | Some exc =>
      _ ← update cur (set_exception None);
      mret (Raised exc)
  | None => mret (unwrap (value_ c))
  end.

Definition transfer_return : M Returned := resume_return.

(** [Fiber::s_yield] from "Back here when someone yields back to us!":
    no exception is looked for. *)
Definition yield_return : M Returned :=
  cur ← current;
  c ← deref cur;
  mret (unwrap (value_ c)).

(** [Fiber::start_on_stack] once the block of the fiber has returned:
    [obj] is its result ([None] for a null result) and [exc] the current
    exception of the thread when its raise reason is [cException].  The
    [dead_] slot and the call frame the function also resets are not part
    of [Fiber]; the switch orphans the context of the finished fiber. *)
Definition finish (obj : option Object) (exc : option Object) : M unit :=
  fib ← current;
  _ ← update fib (set_status eDead);
  f ← deref fib;
  let dest := prev_ f in
  d ← deref dest;
  match data_ d with
  | None => mret tt
  | Some _ =>
      _ ← assert (is_Some_b dest);
      _ ← match obj with
          | Some _ => mret tt
          | None =>
              match exc with
              | Some e => update dest (set_exception (Some e))
              | None => mret tt
              end
          end;
      _ ← run dest;
      _ ← update dest
            (set_value (match obj with Some o => Some [o] | None => None end));
      switch_to dest fib
  end.

(** Hoare triples over [M]: from a state that satisfies [P], [m] either
    returns [a] in a state that satisfies [Q a], or stops (raising,
    failing an assertion or dereferencing nil) in a state that satisfies
    [E]. *)
Definition triple {A : Type} (P : State -> Prop) (m : M A)
    (Q : A -> State -> Prop) (E : State -> Prop) : Prop :=
  forall st, P st ->
    match m st with
    | (Ok a, st') => Q a st'
    | (_, st') => E st'
    end.

(** The scheduling invariant of a native thread: a fiber that is marked
    Running is the fiber the VM is executing. *)
Definition one_running (st : State) : Prop :=
  map_Forall (fun a f => status_ f = eRunning -> current_fiber st = Some a)
    (fibers st).

(** Between [sleep] and [run] no fiber is marked Running. *)
Definition none_running (st : State) : Prop :=
  map_Forall (fun _ f => status_ f <> eRunning) (fibers st).

End FiberReturn.

(** ** machine/builtin/variable_scope.cpp: the primitives over the locals
    and the GC hook *)

Module VariableScopePrims.

Import VariableScope.

(** How a primitive of the scope ends: it returns an object, raises an
    [ArgumentError], or ends as the access it makes ends ([Fatal],
    [Blocked]). *)
Inductive Returned (A : Type) : Type :=
| Return (a : A)
| ArgumentError (reason : string)
| Stop (how : Result unit).
Arguments Return {A} a.
Arguments ArgumentError {A} reason.
Arguments Stop {A} how.

(** Where a collector finds the object a slot refers to: [call i o] is
    the answer of the [i]-th [mark.call] of one [Info::mark], made on the
    object [o]; [None] is a null pointer (the object has not moved). *)
Definition MarkCall : Type := nat -> Object -> option Object.

(** Modelled from the spec: [Fixnum::to_int] is declared in
    builtin/fixnum.hpp, which is not among the sources, and the
    specification speaks of the index only.  [set_local_prim] stores the
    result in an [int] ([int num = number->to_int()]): the value of the
    fixnum converted to 32 bits, which keeps an index within the range of
    an [int] and wraps every other one into it. *)
Definition to_int (number : Z) : Z := wrap_int number.

Section WithConstants.

Variable cScopeLocked : Z.
Variable displace : AddressDisplacement -> Z -> option Z.

(** Modelled from the spec: [Exception::raise_argument_error]
    (builtin/exception.cpp is not among the sources) makes the primitive
    fail: nothing after it runs. *)
Definition raise_argument_error {A : Type} (reason : string) (h : Heap)
  : Returned A * Heap := (ArgumentError reason, h).

(** [VariableScope::set_local_prim] *)
Definition set_local_prim (self : positive) (number : Z) (object : Object)
    (h : Heap) : Returned Object * Heap :=
  match scopes h !! self with
  | None => (Stop Fatal, h)
  | Some vs =>
      let num := to_int number in
      if num <? 0 then raise_argument_error "negative local index" h
      else if number_of_locals_ vs <=? num then
        raise_argument_error "index larger than number of locals" h
      else
        match set_local cScopeLocked displace self num object h with
        | (Ok _, h') => (Return cNil, h')
        | (other, h') => (Stop other, h')
        end
  end.

(** The loop of [VariableScope::locals]:
    [for(int i = 0; i < number_of_locals_; i++) tup[i] = get_local(state, i)],
    with [count] iterations left from index [i] on. *)
Fixpoint locals_from (self : positive) (count : nat) (i : Z) (h : Heap)
  : Result (list Object) * Heap :=
  match count with
  | O => (Ok [], h)
  | S k =>
      match get_local cScopeLocked displace self i h with
      | (Ok o, h1) =>
          match locals_from self k (i + 1) h1 with
          | (Ok os, h2) => (Ok (o :: os), h2)
          | other => other
          end
      | (Fatal, h1) => (Fatal, h1)
      | (Blocked, h1) => (Blocked, h1)
      end
  end.

(** [VariableScope::locals]: a new tuple with the current value of every
    local. *)
Definition locals (self : positive) (h : Heap) : Result (list Object) * Heap :=
  match scopes h !! self with
  | None => (Fatal, h)
  | Some vs => locals_from self (Z.to_nat (number_of_locals_ vs)) 0 h
  end.

(** The value a scope holds at [pos], as [get_local_internal] finds it:
    the slot of its tuple when it is isolated, the slot of the
    (displaced) stack otherwise. *)
Definition slot (vs : VariableScope) (h : Heap) (pos : Z) : Result Object :=
  if isolated_ vs then
    match heap_locals_ vs with
    | Some t => Ok (at_ t pos)
    | None => Fatal
    end
  else
    match fst (displaced_locals displace vs h) with
    | Ok ary => Ok (stack h (ary + pos))
    | Fatal => Fatal
    | Blocked => Blocked
    end.

(** The values [locals] collects: [count] slots from index [i] on, up to
    the first that cannot be read. *)
Fixpoint slots (vs : VariableScope) (h : Heap) (count : nat) (i : Z)
  : Result (list Object) :=
  match count with
  | O => Ok []
  | S k =>
      match slot vs h i with
      | Ok o =>
          match slots vs h k (i + 1) with
          | Ok os => Ok (o :: os)
          | other => other
          end
      | Fatal => Fatal
      | Blocked => Blocked
      end
  end.

(** The loop of [VariableScope::Info::mark]:
    [for(size_t i = 0; i < locals; i++)
       if(Object* tmp = mark.call(ary[i])) ary[i] = tmp;],
    with [count] iterations left from index [i] on. *)
Fixpoint mark_slots (call : MarkCall) (ary : Z) (count : nat) (i : nat)
    (mem : Z -> Object) : Z -> Object :=
  match count with
  | O => mem
  | S k =>
      let addr := ary + Z.of_nat i in
      mark_slots call ary k (S i)
        (match call i (mem addr) with
         | Some tmp => <[addr := tmp]> mem
         | None => mem
         end)
  end.

(** [VariableScope::Info::mark], after [auto_mark] (which visits the
    object slots of the scope): the stack slots of a scope that is not
    isolated are offered to the collector one by one.  The number of
    locals, an [int], is converted to [size_t]. *)
Definition Info_mark (call : MarkCall) (self : positive) (h : Heap)
  : Result unit * Heap :=
  match scopes h !! self with
  | None => (Fatal, h)
  | Some vs =>
      if isolated_ vs then (Ok tt, h)
      else
        match displaced_locals displace vs h with
        | (Ok ary, h') =>
            (Ok tt,
             {| scopes := scopes h'; fibers := fibers h';
                stack := mark_slots call ary
                           (Z.to_nat (number_of_locals_ vs mod 2 ^ 64)) 0
                           (stack h');
                log := log h' |})
        | (Fatal, h') => (Fatal, h')
        | (Blocked, h') => (Blocked, h')
        end
  end.

End WithConstants.

End VariableScopePrims.

(** ** machine/builtin/thread.cpp: thread locals and fiber locals *)

Module ThreadLocals.

(** A [LookupTable] object: a finite map from symbols (their ids) to
    objects. *)
Abbreviation LookupTable := (gmap positive Object).

(** The part of a [Thread] object the locals primitives read: its [VM*]
    ([None] is NULL), its [locals] slot and whether the object is
    frozen. *)
Record Thread : Type := mkThread {
  vm_ : option positive;
  locals_ : Object;
  frozen_ : bool
}.

(** The part of a [Fiber] object they read and write: [root_] and the
    [locals] slot. *)
Record Fiber : Type := mkFiber {
  root_ : bool;
  fiber_locals_ : Object
}.

(** What a primitive runs against: [vm] is [state->vm()], [current_fiber]
    the fiber that VM is executing ([None] is nil), [fibers] and [tables]
    the [Fiber] and [LookupTable] objects of the heap by address. *)
Record State : Type := mkState {
  vm : positive;
  current_fiber : option positive;
  fibers : gmap positive Fiber;
  tables : gmap positive LookupTable
}.

(** How a primitive ends: with an object, with the array of keys, with
    the error [check_frozen] raises, or by using as a table something
    that is none. *)
Inductive Returned : Type :=
| Return (o : Object)
| ReturnKeys (keys : list positive)
| FrozenError
| Undefined.

(** Modelled from the spec: the operations of [LookupTable]
    (builtin/lookup_table.cpp is not among the sources), the "storage"
    behind the "thread-locals read/write/enumerate/remove interface".
    [aref] answers nil for a missing key; the primitive [store] returns
    the value stored and [remove] the value removed (nil when there was
    none). *)
Definition aref (t : LookupTable) (key : positive) : Object :=
  default cNil (t !! key).

Definition store (t : LookupTable) (key : positive) (value : Object)
  : LookupTable := <[key := value]> t.

Definition remove (t : LookupTable) (key : positive) : LookupTable :=
  delete key t.

Definition has_key (t : LookupTable) (key : positive) : Object :=
  match t !! key with Some _ => cTrue | None => cFalse end.

Definition all_keys (t : LookupTable) : list positive :=
  (map_to_list t).*1.

(** Modelled from the spec: [check_frozen] (builtin/object.hpp is not
    among the sources) raises on a frozen object: nothing after it
    runs. *)
Definition check_frozen (self : Thread) : bool := frozen_ self.

(** [try_as<LookupTable>(o)]: the table [o] refers to, with its
    address. *)
Definition as_table (st : State) (o : Object)
  : option (positive * LookupTable) :=
  match o with
  | Ref a => match tables st !! a with Some t => Some (a, t) | None => None end
  | _ => None
  end.

(** Where a primitive finds the storage: in the thread, in the table of
    the active fiber, in an active fiber that has no table yet (its slot
    is nil), in an active fiber whose slot holds something else, or
    nowhere (the active fiber is no object). *)
Inductive Storage : Type :=
| OfThread
| OfFiber (fib : positive) (a : positive) (t : LookupTable)
| FiberWithout (fib : positive)
| FiberOther (fib : positive)
| Dangling.

(** The tests the five primitives open with:
    [if(state->vm() != vm()) ...; fib = state->vm()->current_fiber.get();
     if(fib->nil_p() || fib->root_p()) ...]. *)
Definition storage (self : Thread) (st : State) : Storage :=
  if negb (bool_decide (Some (vm st) = vm_ self)) then OfThread
  else
    match current_fiber st with
    | None => OfThread
    | Some fib =>
        match fibers st !! fib with
        | None => Dangling
        | Some f =>
            if root_ f then OfThread
            else
              match as_table st (fiber_locals_ f) with
              | Some (a, t) => OfFiber fib a t
              | None =>
                  if nil_p (fiber_locals_ f) then FiberWithout fib
                  else FiberOther fib
              end
        end
    end.

Definition put_table (a : positive) (t : LookupTable) (st : State) : State :=
  {| vm := vm st; current_fiber := current_fiber st; fibers := fibers st;
     tables := <[a := t]> (tables st) |}.

(** [Thread::locals_aref] *)
Definition locals_aref (self : Thread) (key : positive) (st : State)
  : Returned :=
  match storage self st with
  | OfThread =>
      match as_table st (locals_ self) with
      | Some (_, t) => Return (aref t key)
      | None => Undefined
      end
  | OfFiber _ _ t => Return (aref t key)
  | FiberWithout _ | FiberOther _ => Return cNil
  | Dangling => Undefined
  end.

(** [Thread::locals_store] *)
Definition locals_store (self : Thread) (key : positive) (value : Object)
    (st : State) : Returned * State :=
  if check_frozen self then (FrozenError, st)
  else
    match storage self st with
    | OfThread =>
        match as_table st (locals_ self) with
        | Some (a, t) => (Return value, put_table a (store t key value) st)
        | None => (Undefined, st)
        end
    | OfFiber _ a t => (Return value, put_table a (store t key value) st)
    | FiberWithout fib =>
        let a := fresh (dom (tables st)) in
        (Return value,
         {| vm := vm st; current_fiber := current_fiber st;
            fibers := alter (fun f => {| root_ := root_ f;
                                         fiber_locals_ := Ref a |})
                        fib (fibers st);
            tables := <[a := store ∅ key value]> (tables st) |})
    | FiberOther _ => (Undefined, st)
    | Dangling => (Undefined, st)
    end.

(** [Thread::locals_remove] *)
Definition locals_remove (self : Thread) (key : positive) (st : State)
  : Returned * State :=
  if check_frozen self then (FrozenError, st)
  else
    match storage self st with
    | OfThread =>
        match as_table st (locals_ self) with
        | Some (a, t) => (Return (aref t key), put_table a (remove t key) st)
        | None => (Undefined, st)
        end
    | OfFiber _ a t => (Return (aref t key), put_table a (remove t key) st)
    | FiberWithout _ => (Return cNil, st)
    | FiberOther _ => (Undefined, st)
    | Dangling => (Undefined, st)
    end.

(** [Thread::locals_keys] *)
Definition locals_keys (self : Thread) (st : State) : Returned :=
  match storage self st with
  | OfThread =>
      match as_table st (locals_ self) with
      | Some (_, t) => ReturnKeys (all_keys t)
      | None => Undefined
      end
  | OfFiber _ _ t => ReturnKeys (all_keys t)
  | FiberWithout _ | FiberOther _ => ReturnKeys []
  | Dangling => Undefined
  end.

(** [Thread::locals_has_key] *)
Definition locals_has_key (self : Thread) (key : positive) (st : State)
  : Returned :=
  match storage self st with
  | OfThread =>
      match as_table st (locals_ self) with
      | Some (_, t) => Return (has_key t key)
      | None => Undefined
      end
  | OfFiber _ _ t => Return (has_key t key)
  | FiberWithout _ | FiberOther _ => Return cFalse
  | Dangling => Undefined
  end.

(** The same heap seen by the primitives when they are called from
    another VM, or while another fiber of the VM is active. *)
Definition seen_from (v : positive) (fib : option positive) (st : State)
  : State :=
  {| vm := v; current_fiber := fib; fibers := fibers st;
     tables := tables st |}.

(** A thread on VM 1 with an empty table (address 10), executing a
    fiber (address 5) that is not its root fiber and has no locals
    yet. *)
Definition main_thread : Thread :=
  {| vm_ := Some 1%positive; locals_ := Ref 10; frozen_ := false |}.

Definition in_fiber : State :=
  {| vm := 1; current_fiber := Some 5%positive;
     fibers := {[5%positive := {| root_ := false; fiber_locals_ := cNil |}]};
     tables := {[10%positive := ∅]} |}.

End ThreadLocals.

(** ** machine/builtin/thread.cpp: where join and the end of a thread stand *)

Module ThreadProgress.

Import Thread.


End ThreadProgress.

(** ** machine/builtin/jit.cpp *)

Module JIT.

(** The [JIT] module object: its [enabled] slot. *)
Record JIT : Type := mkJIT {
  enabled_ : Object
}.

(** The primitives of the file. *)
Inductive primitive : Type :=
| compile
| compile_threshold
| sync_set (flag : Object)
| sync_get
| enable
| compile_soon
| compile_callframe
| start_method_update
| end_method_update.

Section WithCBOOL.

(** The [CBOOL] macro, declared in the object headers: the truth value
    of an object. *)
Variable CBOOL : Object -> bool.

(** What each primitive returns and what it leaves of the object. *)
Definition call (p : primitive) (self : JIT) : Object * JIT :=
  match p with
  | compile | compile_soon | compile_callframe
  | start_method_update | end_method_update =>
      if negb (CBOOL (enabled_ self)) then (cFalse, self) else (cTrue, self)
  | compile_threshold => (Fixnum 0, self)
  | sync_set _ => (cFalse, self)
  | sync_get => (cFalse, self)
  | enable =>
      if negb (CBOOL (enabled_ self)) then (cFalse, self)
      else (cTrue, {| enabled_ := cTrue |})
  end.

Fixpoint calls (ps : list primitive) (self : JIT) : list Object * JIT :=
  match ps with
  | [] => ([], self)
  | p :: rest =>
      let '(o, self') := call p self in
      let '(os, self'') := calls rest self' in
      (o :: os, self'')
  end.

End WithCBOOL.

(** What a primitive answers on a JIT that is not enabled. *)
Definition refused (p : primitive) : Object :=
  match p with
  | compile_threshold => Fixnum 0
  | _ => cFalse
  end.

End JIT.

(** ** machine/shared_state.hpp: the request for a collection *)

Module SharedState.

(** The flags of [SharedState] behind [gc_soon] and [check_gc_p], two
    plain [bool] members that the threads of the process read and write
    with no lock; [stop_] counts the calls of
    [thread_nexus_->set_stop()]. *)
Record SharedState : Type := mkSharedState {
  check_global_interrupts_ : bool;
  check_gc_ : bool;
  stop_ : nat
}.

(** One access of a thread to the shared state, the unit at which the
    calls of different threads interleave: [bool c = check_gc_];
    [if(c) check_gc_ = false; return c]; [check_global_interrupts_ = b];
    [check_gc_ = true]; [thread_nexus_->set_stop()]. *)
Inductive access : Type :=
| ReadCheckGc
| ReturnCheckGc
| WriteInterrupts (b : bool)
| WriteCheckGc
| SetStop.

(** [SharedState::check_gc_p] *)
Definition check_gc_p : list access := [ReadCheckGc; ReturnCheckGc].

(** [SharedState::gc_soon] *)
Definition gc_soon : list access := [WriteInterrupts true; WriteCheckGc; SetStop].

(** [set_check_global_interrupts] and [clear_check_global_interrupts] *)
Definition set_check_global_interrupts : list access := [WriteInterrupts true].

Definition clear_check_global_interrupts : list access := [WriteInterrupts false].

(** The shared state together with the local [c] of each thread inside
    [check_gc_p] and the answers [check_gc_p] has returned so far, oldest
    first. *)
Record Machine : Type := mkMachine {
  shared : SharedState;
  c_ : nat -> bool;
  answers : list bool
}.

Definition perform (thread : nat) (a : access) (m : Machine) : Machine :=
  match a with
  | ReadCheckGc =>
      {| shared := shared m;
         c_ := <[thread := check_gc_ (shared m)]> (c_ m);
         answers := answers m |}
  | ReturnCheckGc =>
      {| shared :=
           if c_ m thread then
             {| check_global_interrupts_ := check_global_interrupts_ (shared m);
                check_gc_ := false; stop_ := stop_ (shared m) |}
           else shared m;
         c_ := c_ m;
         answers := answers m ++ [c_ m thread] |}
  | WriteInterrupts b =>
      {| shared := {| check_global_interrupts_ := b;
                      check_gc_ := check_gc_ (shared m);
                      stop_ := stop_ (shared m) |};
         c_ := c_ m; answers := answers m |}
  | WriteCheckGc =>
      {| shared := {| check_global_interrupts_ :=
                        check_global_interrupts_ (shared m);
                      check_gc_ := true; stop_ := stop_ (shared m) |};
         c_ := c_ m; answers := answers m |}
  | SetStop =>
      {| shared := {| check_global_interrupts_ :=
                        check_global_interrupts_ (shared m);
                      check_gc_ := check_gc_ (shared m);
                      stop_ := S (stop_ (shared m)) |};
         c_ := c_ m; answers := answers m |}
  end.

(** A schedule: the accesses of all threads in the order they take
    effect, each with the thread that makes it. *)
Fixpoint run (sched : list (nat * access)) (m : Machine) : Machine :=
  match sched with
  | [] => m
  | (thread, a) :: rest => run rest (perform thread a m)
  end.

(** The accesses of one thread in a schedule, in order. *)
Fixpoint project (thread : nat) (sched : list (nat * access)) : list access :=
  match sched with
  | [] => []
  | (t, a) :: rest =>
      if Nat.eqb t thread then a :: project thread rest
      else project thread rest
  end.

(** The calls the threads make. *)
Inductive request : Type :=
| GcSoon
| CheckGc
| SetInterrupts
| ClearInterrupts.

Definition accesses (r : request) : list access :=
  match r with
  | GcSoon => gc_soon
  | CheckGc => check_gc_p
  | SetInterrupts => set_check_global_interrupts
  | ClearInterrupts => clear_check_global_interrupts
  end.

(** The schedule in which no two calls overlap: each call makes all its
    accesses before the next call starts. *)
Fixpoint serial (calls : list (nat * request)) : list (nat * access) :=
  match calls with
  | [] => []
  | (thread, r) :: rest => map (pair thread) (accesses r) ++ serial rest
  end.

(** How many collections have been asked for: the calls of [gc_soon]
    among the calls, the writes of [check_gc_ = true] in a schedule; how
    many times [set_stop] is called in a schedule; and how many times
    [check_gc_p] has answered that a collection is due. *)
Fixpoint requested (calls : list (nat * request)) : nat :=
  match calls with
  | [] => 0
  | (_, GcSoon) :: rest => S (requested rest)
  | _ :: rest => requested rest
  end.

Fixpoint written (sched : list (nat * access)) : nat :=
  match sched with
  | [] => 0
  | (_, WriteCheckGc) :: rest => S (written rest)
  | _ :: rest => written rest
  end.

Fixpoint stops (sched : list (nat * access)) : nat :=
  match sched with
  | [] => 0
  | (_, SetStop) :: rest => S (stops rest)
  | _ :: rest => stops rest
  end.

Fixpoint granted (answers : list bool) : nat :=
  match answers with
  | [] => 0
  | true :: rest => S (granted rest)
  | false :: rest => granted rest
  end.

(** Whether a request waits for the next [check_gc_p]. *)
Definition pending (s : SharedState) : nat := if check_gc_ s then 1 else 0.

(** A process that has asked for nothing yet. *)
Definition boot : Machine :=
  {| shared := {| check_global_interrupts_ := false; check_gc_ := false;
                  stop_ := 0 |};
     c_ := fun _ => false;
     answers := [] |}.

(** One [gc_soon] of thread 0, then two [check_gc_p], of threads 1 and
    2, that overlap: both read the flag before either clears it. *)
Definition overlapping : list (nat * access) :=
  [(0, WriteInterrupts true); (0, WriteCheckGc); (0, SetStop);
   (1, ReadCheckGc); (2, ReadCheckGc); (1, ReturnCheckGc); (2, ReturnCheckGc)]%nat.

End SharedState.

(** ** machine/builtin/thread.cpp: raise, kill, wakeup and finalization *)

Module ThreadSignals.

Import Thread.

(** How one of these primitives ends: it returns an object, the thread
    itself ([this]), a null pointer (the thread-kill unwinding has been
    raised), or [Primitives::failure()]; following a pointer that leads
    nowhere is undefined. *)
Inductive Returned : Type :=
| Return (o : Object)
| ReturnThis
| Null
| Failure
| Undefined.

Section WithVM.

(** The [VM] objects and what the thread primitives call on them, all
    declared in vm.hpp: [zombie_p], [register_raise], [register_kill],
    [wakeup] and [thread_state_.raise_thread_kill()].  [CBOOL] is the
    truth value of an object. *)
Variable VM : Type.
Variable zombie_p : VM -> bool.
Variable register_raise : Object -> VM -> VM.
Variable register_kill : VM -> VM.
Variable vm_wakeup : VM -> VM.
Variable raise_thread_kill : VM -> VM.
Variable CBOOL : Object -> bool.

(** The threads and their VMs by address; [current] is
    [state->vm()->thread.get()], the thread that makes the call. *)
Record State : Type := mkState {
  current : option positive;
  vms : gmap positive VM;
  threads : gmap positive Thread
}.

Definition set_vm (v : positive) (m : VM) (st : State) : State :=
  {| current := current st; vms := <[v := m]> (vms st);
     threads := threads st |}.

(** Modelled from the spec: [VM::discard] (vm.cpp is not among the
    sources) gives up a VM that is bound to no live native thread any
    more. *)
Definition discard (v : positive) (st : State) : State :=
  {| current := current st; vms := delete v (vms st);
     threads := threads st |}.

(** [Thread::finalize_instance] *)
Definition finalize_instance (self : positive) (st : State) : State :=
  match threads st !! self with
  | None => st
  | Some t =>
      match vm_ t with
      | None => st
      | Some v =>
          match vms st !! v with
          | None => st
          | Some m =>
              if zombie_p m then
                let st' := discard v st in
                {| current := current st'; vms := vms st';
                   threads := <[self := {| vm_ := None; alive_ := alive_ t |}]>
                                (threads st') |}
              else st
          end
      end
  end.

(** [Thread::raise] *)
Definition raise (self : positive) (exc : Object) (st : State)
  : Returned * State :=
  match threads st !! self with
  | None => (Undefined, st)
  | Some t =>
      match vm_ t with
      | None => (Return cNil, st)
      | Some v =>
          match vms st !! v with
          | None => (Undefined, st)
          | Some m =>
              (Return exc, set_vm v (vm_wakeup (register_raise exc m)) st)
          end
      end
  end.

(** [Thread::kill] *)
Definition kill (self : positive) (st : State) : Returned * State :=
  match threads st !! self with
  | None => (Undefined, st)
  | Some t =>
      match vm_ t with
      | None => (Return cNil, st)
      | Some v =>
          match vms st !! v with
          | None => (Undefined, st)
          | Some m =>
              if bool_decide (current st = Some self) then
                (Null, set_vm v (raise_thread_kill m) st)
              else
                (ReturnThis, set_vm v (vm_wakeup (register_kill m)) st)
          end
      end
  end.

(** [Thread::wakeup] *)
Definition wakeup (self : positive) (st : State) : Returned * State :=
  match threads st !! self with
  | None => (Undefined, st)
  | Some t =>
      match negb (CBOOL (alive_ t)), vm_ t with
      | true, _ | _, None => (Failure, st)
      | false, Some v =>
          match vms st !! v with
          | None => (Undefined, st)
          | Some m => (ReturnThis, set_vm v (vm_wakeup m) st)
          end
      end
  end.

End WithVM.

End ThreadSignals.

(** * Properties *)

Lemma nil_p_true o : nil_p o = true <-> o = cNil.
Proof. destruct o; simpl; split; congruence. Qed.

Lemma nil_p_false o : nil_p o = false <-> o <> cNil.
Proof. destruct o; simpl; split; congruence. Qed.

(** ** The C [int] *)

Lemma wrap_int_small z : INT_MIN <= z <= INT_MAX -> wrap_int z = z.
Proof.
  unfold INT_MIN, INT_MAX, wrap_int. intros H.
  rewrite Z.mod_small by lia. lia.
Qed.

Lemma wrap_int_range z : INT_MIN <= wrap_int z <= INT_MAX.
Proof.
  unfold INT_MIN, INT_MAX, wrap_int.
  pose proof (Z.mod_pos_bound (z + 2 ^ 31) (2 ^ 32)). lia.
Qed.

Lemma wrap_int_add z k : wrap_int (wrap_int z + k) = wrap_int (z + k).
Proof.
  unfold wrap_int. f_equal.
  replace ((z + 2 ^ 31) mod 2 ^ 32 - 2 ^ 31 + k + 2 ^ 31)
    with ((z + 2 ^ 31) mod 2 ^ 32 + k) by lia.
  rewrite Zplus_mod_idemp_l. f_equal. lia.
Qed.

Lemma wrap_int_overflow : wrap_int (INT_MAX + 1) = INT_MIN.
Proof. reflexivity. Qed.

(** ** Channel: ordering of sends and receives *)

Module ChannelFacts.
Import Channel.

Lemma append_permits_repeat n l :
  append_permits n l = l ++ repeat cNil n.
Proof.
  revert l. induction n as [|n IH]; intros l; simpl.
  - by rewrite app_nil_r.
  - rewrite IH. unfold append. by rewrite <- app_assoc.
Qed.

Lemma payloads_app l1 l2 : payloads (l1 ++ l2) = payloads l1 ++ payloads l2.
Proof. unfold payloads. apply filter_app. Qed.

Lemma payloads_repeat_nil n : payloads (repeat cNil n) = [].
Proof.
  unfold payloads. induction n as [|n IH]; simpl; [done|].
  rewrite filter_cons. destruct (decide (cNil <> cNil)); [congruence | done].
Qed.

Lemma payloads_permit : payloads [cNil] = [].
Proof. apply (payloads_repeat_nil 1). Qed.

Lemma payloads_single v : v <> cNil -> payloads [v] = [v].
Proof.
  intros Hv. unfold payloads. rewrite filter_cons, filter_nil.
  destruct (decide (v <> cNil)); [done | contradiction].
Qed.

(** What [send] does to the two fields that carry the queue. *)
Lemma send_permit self :
  value_ (snd (send self cNil)) = value_ self /\
  semaphore_count_ (snd (send self cNil)) = wrap_int (semaphore_count_ self + 1).
Proof. unfold send; simpl. destruct (0 <? waiters_ self); simpl; done. Qed.

(** Below [INT_MAX] the increment is exact. *)
Lemma send_permit_exact self :
  0 <= semaphore_count_ self < INT_MAX ->
  semaphore_count_ (snd (send self cNil)) = semaphore_count_ self + 1.
Proof.
  intros Hs. destruct (send_permit self) as [_ ->].
  apply wrap_int_small. unfold INT_MIN, INT_MAX in *. lia.
Qed.

Lemma send_payload self v :
  v <> cNil ->
  value_ (snd (send self v)) =
    (if 0 <? semaphore_count_ self
     then value_ self ++ repeat cNil (Z.to_nat (semaphore_count_ self))
     else value_ self) ++ [v] /\
  semaphore_count_ (snd (send self v)) =
    (if 0 <? semaphore_count_ self then 0 else semaphore_count_ self).
Proof.
  intros Hv. apply nil_p_false in Hv. unfold send. rewrite Hv.
  destruct (0 <? semaphore_count_ self) eqn:Hs; simpl;
    destruct (0 <? waiters_ self); simpl;
    rewrite ?append_permits_repeat; done.
Qed.

Lemma send_payloads self v :
  payloads (value_ (snd (send self v))) =
  payloads (value_ self) ++ payloads [v].
Proof.
  destruct (decide (v = cNil)) as [->|Hv].
  - destruct (send_permit self) as [-> _].
    rewrite payloads_permit. by rewrite app_nil_r.
  - destruct (send_payload self v Hv) as [-> _].
    destruct (0 <? semaphore_count_ self);
      rewrite !payloads_app, ?payloads_repeat_nil, ?app_nil_r; done.
Qed.

Lemma try_receive_payloads self :
  payloads [fst (try_receive self)] ++ payloads (value_ (snd (try_receive self))) =
  payloads (value_ self).
Proof.
  unfold try_receive.
  destruct (0 <? semaphore_count_ self); cbn [fst snd value_].
  - by rewrite payloads_permit.
  - destruct (value_ self) as [|o rest] eqn:E; cbn [empty_p shift fst snd value_].
    + by rewrite payloads_permit, E.
    + by rewrite <- payloads_app.
Qed.

(** Real payloads leave the channel in the order they entered it. *)
Lemma run_payloads ops : forall self,
  payloads (received ops self) ++ payloads (value_ (snd (run ops self))) =
  payloads (value_ self) ++ payloads (sent ops).
Proof.
  unfold received.
  induction ops as [|[v|] ops IH]; intros self; cbn [run sent].
  - cbn [fst snd]. by rewrite app_nil_r.
  - rewrite IH, send_payloads. rewrite <- app_assoc.
    by rewrite <- payloads_app.
  - pose proof (try_receive_payloads self) as Ht.
    destruct (try_receive self) as [o self'] eqn:Et.
    specialize (IH self').
    destruct (run ops self') as [os self''] eqn:Er.
    cbn [fst snd] in *.
    change (o :: os) with ([o] ++ os).
    rewrite payloads_app, <- app_assoc, IH, app_assoc, Ht. done.
Qed.

(** Every send extends the pending entries at the back, as long as the
    permit counter stays below [INT_MAX]. *)
Lemma send_pending self v :
  0 <= semaphore_count_ self < INT_MAX ->
  pending (snd (send self v)) = pending self ++ [v] /\
  0 <= semaphore_count_ (snd (send self v)) <= semaphore_count_ self + 1.
Proof.
  intros Hs. unfold pending.
  destruct (decide (v = cNil)) as [->|Hv].
  - rewrite (send_permit_exact self Hs).
    destruct (send_permit self) as [-> _]. split; [|lia].
    rewrite Z2Nat.inj_add by lia. rewrite repeat_app. simpl.
    by rewrite app_assoc.
  - destruct (send_payload self v Hv) as [-> ->].
    destruct (0 <? semaphore_count_ self) eqn:E; simpl.
    + rewrite app_nil_r. split; [done | lia].
    + apply Z.ltb_ge in E. replace (semaphore_count_ self) with 0 by lia.
      simpl. rewrite !app_nil_r. split; [done | lia].
Qed.

Lemma sends_pending vals : forall self,
  0 <= semaphore_count_ self ->
  semaphore_count_ self + Z.of_nat (length vals) <= INT_MAX ->
  pending (sends vals self) = pending self ++ vals /\
  0 <= semaphore_count_ (sends vals self)
    <= semaphore_count_ self + Z.of_nat (length vals).
Proof.
  induction vals as [|v vals IH]; intros self Hs Hb; cbn [sends].
  - cbn [length] in *. rewrite app_nil_r. split; [done | lia].
  - cbn [length] in Hb |- *.
    destruct (send_pending self v) as [Hp Hs']; [lia|].
    destruct (IH (snd (send self v))) as [-> ?]; [lia | lia |].
    rewrite Hp, <- app_assoc. split; [done | lia].
Qed.

Lemma sends_app vs ws self : sends (vs ++ ws) self = sends ws (sends vs self).
Proof.
  revert self. induction vs as [|v vs IH]; intros self; cbn [sends app]; auto.
Qed.

(** With no permit outstanding, receives drain the queue front to back. *)
Lemma receives_drain : forall l self,
  semaphore_count_ self = 0 ->
  value_ self = l ->
  fst (receives (length l) self) = l.
Proof.
  induction l as [|o l IH]; intros self Hs Hv; cbn [receives length]; [done|].
  unfold try_receive. rewrite Hs, Hv. cbn [Z.ltb Z.compare empty_p shift].
  specialize (IH {| value_ := l; semaphore_count_ := 0;
                    waiters_ := waiters_ self; condition_ := condition_ self |}
                 eq_refl eq_refl).
  destruct (receives (length l) _) as [os s'] eqn:E. simpl in *.
  by rewrite IH.
Qed.

Lemma sends_then_payload vs v self :
  v <> cNil ->
  0 <= semaphore_count_ self ->
  semaphore_count_ self + Z.of_nat (length vs) <= INT_MAX ->
  semaphore_count_ (sends (vs ++ [v]) self) = 0 /\
  value_ (sends (vs ++ [v]) self) = pending self ++ vs ++ [v].
Proof.
  intros Hv Hs Hb. rewrite sends_app. cbn [sends].
  destruct (sends_pending vs self Hs Hb) as [Hp Hs'].
  destruct (send_payload (sends vs self) v Hv) as [Hval Hsem].
  rewrite Hval, Hsem. unfold pending in Hp.
  destruct (0 <? semaphore_count_ (sends vs self)) eqn:E.
  - split; [done|]. rewrite Hp. by rewrite <- app_assoc.
  - apply Z.ltb_ge in E.
    assert (semaphore_count_ (sends vs self) = 0) as H0 by lia.
    split; [done|]. rewrite H0 in Hp. simpl in Hp. rewrite app_nil_r in Hp.
    rewrite Hp. by rewrite <- app_assoc.
Qed.

(** A permit is handed out by the next receive, whatever is queued: the
    receive after [send(nil)] yields the no-value sentinel and leaves the
    queue and the counter as they were before the send. *)
Lemma permit_received_first self :
  0 <= semaphore_count_ self < INT_MAX ->
  fst (try_receive (snd (send self cNil))) = cNil /\
  value_ (snd (try_receive (snd (send self cNil)))) = value_ self /\
  semaphore_count_ (snd (try_receive (snd (send self cNil))))
    = semaphore_count_ self.
Proof.
  intros Hs. pose proof (send_permit_exact self Hs) as Hsem.
  destruct (send_permit self) as [Hval _].
  unfold try_receive.
  assert ((0 <? semaphore_count_ (snd (send self cNil))) = true) as ->
    by (apply Z.ltb_lt; lia).
  cbn [fst snd value_ semaphore_count_]. rewrite Hval, Hsem.
  repeat split; lia.
Qed.

(** C1 (as stated, refuted).  A permit issued while a real value is still
    queued overtakes it: after [send(5); send(nil)] the first receive
    yields the no-value sentinel and only the second yields 5, so the
    receivers do not observe the two sends in the order they were made. *)
Lemma C1_permit_overtakes_queued_value :
  sent [Send (Fixnum 5); Send cNil; TryReceive; TryReceive] = [Fixnum 5; cNil] /\
  received [Send (Fixnum 5); Send cNil; TryReceive; TryReceive] create
    = [cNil; Fixnum 5] /\
  received [Send (Fixnum 5); Send cNil; TryReceive; TryReceive] create
    <> sent [Send (Fixnum 5); Send cNil; TryReceive; TryReceive].
Proof. repeat split; vm_compute; congruence. Qed.

(** C1 (amended).  For every sequence of sends and receives on a fresh
    channel the real (non-nil) values are received in the order they were
    sent: the payloads received so far followed by the payloads still
    queued are exactly the payloads sent.  Sending a real value while
    permits are outstanding first appends one no-value entry per permit,
    in issue order, and zeroes the counter, then appends the value.
    Consequently every burst of at most [INT_MAX] sends followed by a
    real value is received back entry for entry, permits included; in
    particular [send(nil); send(nil); send(5)] followed by three receives
    yields [nil, nil, 5].  A permit issued while fewer than [INT_MAX]
    permits are outstanding is consumed by the next receive, before
    every value that is queued: that receive yields nil and leaves the
    queue and the counter as they were before the permit was issued. *)
Theorem C1_channel_order :
  (forall ops,
     payloads (received ops create) ++ payloads (value_ (snd (run ops create)))
     = payloads (sent ops)) /\
  (forall self v,
     v <> cNil -> 0 < semaphore_count_ self ->
     value_ (snd (send self v))
       = value_ self ++ repeat cNil (Z.to_nat (semaphore_count_ self)) ++ [v] /\
     semaphore_count_ (snd (send self v)) = 0) /\
  (forall vs v,
     v <> cNil ->
     Z.of_nat (length vs) <= INT_MAX ->
     fst (receives (length (vs ++ [v])) (sends (vs ++ [v]) create)) = vs ++ [v]) /\
  received [Send cNil; Send cNil; Send (Fixnum 5);
            TryReceive; TryReceive; TryReceive] create
    = [cNil; cNil; Fixnum 5] /\
  (forall self,
     0 <= semaphore_count_ self < INT_MAX ->
     fst (try_receive (snd (send self cNil))) = cNil /\
     value_ (snd (try_receive (snd (send self cNil)))) = value_ self /\
     semaphore_count_ (snd (try_receive (snd (send self cNil))))
       = semaphore_count_ self).
Proof.
  split; [|split; [|split; [|split]]].
  - intros ops. apply (run_payloads ops create).
  - intros self v Hv Hs. destruct (send_payload self v Hv) as [Hval Hsem].
    apply Z.ltb_lt in Hs. rewrite Hs in Hval, Hsem.
    split; [|done]. rewrite Hval. by rewrite <- app_assoc.
  - intros vs v Hv Hb.
    destruct (sends_then_payload vs v create Hv) as [Hsem Hval];
      [done | cbn [semaphore_count_ create]; lia |].
    apply receives_drain; [done|]. by rewrite Hval.
  - reflexivity.
  - apply permit_received_first.
Qed.

Lemma C1_channel_order_witness :
  value_ (snd (send (snd (send (snd (send create cNil)) cNil)) (Fixnum 5)))
    = [cNil; cNil; Fixnum 5] /\
  fst (receives 3 (sends [cNil; Fixnum 7; Fixnum 5] create))
    = [cNil; Fixnum 7; Fixnum 5] /\
  fst (try_receive (snd (send (snd (send create (Fixnum 5))) cNil))) = cNil.
Proof.
  destruct C1_channel_order as (_ & Hsend & Hburst & _ & Hpermit).
  split; [|split].
  - destruct (Hsend (snd (send (snd (send create cNil)) cNil)) (Fixnum 5))
      as [Hval _]; [discriminate | vm_compute; reflexivity |].
    rewrite Hval. reflexivity.
  - apply (Hburst [cNil; Fixnum 7] (Fixnum 5)); [discriminate|].
    vm_compute. discriminate.
  - destruct (Hpermit (snd (send create (Fixnum 5)))) as [Hfst _];
      [vm_compute; split; [discriminate | reflexivity] | exact Hfst].
Defined.

End ChannelFacts.

(** ** FiberStacks: leasing a stack from the pool *)

Module FiberStacksFacts.
Import FiberStacks.

Lemma first_fit_found l stack_size : forall i j,
  first_fit l stack_size i = Some j ->
  (i <= j)%nat /\
  exists s, l !! (j - i)%nat = Some s /\ fits stack_size s = true /\
    forall k t, (k < j - i)%nat -> l !! k = Some t -> fits stack_size t = false.
Proof.
  induction l as [|s l IH]; intros i j H; cbn [first_fit] in H; [done|].
  fold (fits stack_size s) in H.
  destruct (fits stack_size s) eqn:Hf.
  - inversion H; subst j. split; [lia|]. exists s.
    replace (i - i)%nat with 0%nat by lia. split; [done|]. split; [done|].
    intros k t Hk. lia.
  - apply IH in H as (Hle & s' & Hl & Hfs & Hmin). split; [lia|].
    exists s'. replace (j - i)%nat with (S (j - S i)) by lia.
    split; [done|]. split; [done|].
    intros [|k] t Hk Hlk; cbn in Hlk.
    + by inversion Hlk; subst.
    + apply (Hmin k t); [lia | done].
Qed.

Lemma least_refs_invariant l : forall seen stack,
  least_among seen stack ->
  least_among (seen ++ l) (least_refs l (length seen) stack).
Proof.
  induction l as [|s l IH]; intros seen stack Hinv; cbn [least_refs].
  - by rewrite app_nil_r.
  - replace (seen ++ s :: l) with ((seen ++ [s]) ++ l)
      by (by rewrite <- app_assoc).
    replace (S (length seen)) with (length (seen ++ [s]))
      by (rewrite length_app; simpl; lia).
    apply IH.
    destruct stack as [[k best]|]; cbn [least_among] in *.
    + destruct Hinv as [Hk Hmin].
      destruct (refs_ s <? refs_ best) eqn:Hlt.
      * apply Z.ltb_lt in Hlt. split.
        { rewrite lookup_app_r by lia.
          by replace (length seen - length seen)%nat with 0%nat by lia. }
        intros j t Hj. apply lookup_app_Some in Hj as [Hj|[_ Hj]].
        { specialize (Hmin j t Hj). lia. }
        { destruct (j - length seen)%nat; cbn in Hj; [|done].
          inversion Hj; subst. lia. }
      * apply Z.ltb_ge in Hlt. split.
        { rewrite lookup_app_l; [done|]. by eapply lookup_lt_Some. }
        intros j t Hj. apply lookup_app_Some in Hj as [Hj|[_ Hj]].
        { by apply (Hmin j t). }
        { destruct (j - length seen)%nat; cbn in Hj; [|done].
          inversion Hj; subst. lia. }
    + subst seen. cbn. split; [done|].
      intros [|j] t Hj; cbn in Hj; [|done]. inversion Hj; subst. lia.
Qed.

Lemma least_refs_least l :
  least_among l (least_refs l 0 None).
Proof. apply (least_refs_invariant l [] None). reflexivity. Qed.

Lemma first_fit_exists l stack_size : forall i,
  (exists k t, l !! k = Some t /\ fits stack_size t = true) ->
  exists j, first_fit l stack_size i = Some j.
Proof.
  induction l as [|s l IH]; intros i (k & t & Hk & Hf); [done|].
  cbn [first_fit]. fold (fits stack_size s).
  destruct (fits stack_size s) eqn:Hs; [by eexists|].
  destruct k as [|k]; cbn in Hk.
  - inversion Hk; subst. congruence.
  - apply IH. eauto.
Qed.

Lemma first_fit_absent l stack_size : forall i,
  (forall k t, l !! k = Some t -> fits stack_size t = false) ->
  first_fit l stack_size i = None.
Proof.
  induction l as [|s l IH]; intros i H; [done|].
  cbn [first_fit]. fold (fits stack_size s).
  rewrite (H 0%nat s eq_refl). apply IH.
  intros k t Hk. by apply (H (S k) t).
Qed.

(** C2 (as stated, refuted).  In a pool that has reached its maximum the
    lease of 8192 bytes returns the only stack there is: it holds 4096
    bytes, less than requested, and it is not unused, its reference count
    being 1 before the lease and 2 after it. *)
Lemma C2_lease_at_maximum_shares_a_small_stack :
  allocate (fun _ => Some 2%positive) full_pool 8192
    = Done (0%nat, {| max_stacks_ := 1; stacks_ := [inc_ref busy_stack] |}) /\
  stacks_ full_pool !! 0%nat = Some busy_stack /\
  unused_p busy_stack = false /\
  (size_ busy_stack < 8192)%N.
Proof. repeat split. Qed.

(** C2 (amended).  For every pool and requested size: when some stack of
    the pool is unused (no outstanding reference) and holds at least the
    requested size, the lease returns the first such stack; otherwise,
    when the pool holds fewer stacks than its maximum and malloc succeeds,
    it appends and returns a new stack of exactly the requested size;
    otherwise, the maximum being at least one, it does not fail and
    returns a stack whose reference count is lowest among all stacks of
    the pool, whether or not that stack is in use.  In each case the
    reference count of the returned stack is incremented and no other
    stack changes. *)
Theorem C2_allocate_lease malloc (self : FiberStacks) (stack_size : N) :
  ((exists k t, stacks_ self !! k = Some t /\ fits stack_size t = true) ->
   exists i s,
     allocate malloc self stack_size
       = Done (i, {| max_stacks_ := max_stacks_ self;
                     stacks_ := alter inc_ref i (stacks_ self) |}) /\
     stacks_ self !! i = Some s /\
     refs_ s = 0 /\ (stack_size <= size_ s)%N /\
     forall k t, (k < i)%nat -> stacks_ self !! k = Some t ->
                 fits stack_size t = false) /\
  ((forall k t, stacks_ self !! k = Some t -> fits stack_size t = false) ->
   (N.of_nat (length (stacks_ self)) < max_stacks_ self)%N ->
   forall a, malloc stack_size = Some a ->
     allocate malloc self stack_size
       = Done (length (stacks_ self),
               {| max_stacks_ := max_stacks_ self;
                  stacks_ := stacks_ self ++
                    [{| address_ := Some a; size_ := stack_size;
                        refs_ := 1; user_ := None |}] |})) /\
  ((forall k t, stacks_ self !! k = Some t -> fits stack_size t = false) ->
   (max_stacks_ self <= N.of_nat (length (stacks_ self)))%N ->
   (0 < max_stacks_ self)%N ->
   exists i s,
     allocate malloc self stack_size
       = Done (i, {| max_stacks_ := max_stacks_ self;
                     stacks_ := alter inc_ref i (stacks_ self) |}) /\
     stacks_ self !! i = Some s /\
     forall j t, stacks_ self !! j = Some t -> refs_ s <= refs_ t).
Proof.
  split; [|split].
  - intros Hex.
    destruct (first_fit_exists _ _ 0%nat Hex) as [i Hi].
    destruct (first_fit_found _ _ _ _ Hi) as (_ & s & Hs & Hf & Hmin).
    rewrite Nat.sub_0_r in Hs, Hmin.
    exists i, s. unfold allocate. rewrite Hi.
    unfold fits in Hf. apply andb_true_iff in Hf as [Hu Hsz].
    unfold unused_p in Hu. apply Z.eqb_eq in Hu. apply N.leb_le in Hsz.
    repeat split; done.
  - intros Hnone Hlt a Ha. unfold allocate.
    rewrite (first_fit_absent _ _ 0%nat Hnone).
    apply N.ltb_lt in Hlt. rewrite Hlt.
    unfold FiberStack_allocate, new_FiberStack. cbn [address_ size_].
    rewrite Ha. reflexivity.
  - intros Hnone Hmax Hpos. unfold allocate.
    rewrite (first_fit_absent _ _ 0%nat Hnone).
    apply N.ltb_ge in Hmax. rewrite Hmax.
    pose proof (least_refs_least (stacks_ self)) as Hl.
    destruct (least_refs (stacks_ self) 0 None) as [[i s]|];
      cbn [least_among] in Hl.
    + destruct Hl as [Hi Hmin]. by exists i, s.
    + apply N.ltb_ge in Hmax. rewrite Hl in Hmax. simpl in Hmax. lia.
Qed.

Lemma C2_allocate_lease_witness :
  (exists i s,
     allocate (fun _ => Some 2%positive)
       {| max_stacks_ := 2;
          stacks_ := [busy_stack; new_FiberStack 8192] |} 4096
       = Done (i, {| max_stacks_ := 2;
                     stacks_ := alter inc_ref i [busy_stack; new_FiberStack 8192] |}) /\
     [busy_stack; new_FiberStack 8192] !! i = Some s /\
     refs_ s = 0 /\ (4096 <= size_ s)%N) /\
  allocate (fun _ => Some 2%positive)
       {| max_stacks_ := 2; stacks_ := [busy_stack] |} 4096
    = Done (1%nat,
            {| max_stacks_ := 2;
               stacks_ := [busy_stack;
                           {| address_ := Some 2%positive; size_ := 4096;
                              refs_ := 1; user_ := None |}] |}) /\
  (exists i s,
     allocate (fun _ => Some 2%positive) full_pool 4096
       = Done (i, {| max_stacks_ := 1;
                     stacks_ := alter inc_ref i [busy_stack] |}) /\
     [busy_stack] !! i = Some s /\
     forall j t, [busy_stack] !! j = Some t -> refs_ s <= refs_ t).
Proof.
  split; [|split].
  - destruct (C2_allocate_lease (fun _ => Some 2%positive)
                {| max_stacks_ := 2;
                   stacks_ := [busy_stack; new_FiberStack 8192] |} 4096)
      as (H & _ & _).
    destruct H as (i & s & Ha & Hs & Hr & Hsz & _).
    + exists 1%nat, (new_FiberStack 8192). split; reflexivity.
    + exists i, s. repeat split; assumption.
  - destruct (C2_allocate_lease (fun _ => Some 2%positive)
                {| max_stacks_ := 2; stacks_ := [busy_stack] |} 4096)
      as (_ & H & _).
    apply (H ltac:(intros [|[|k]] t Hk; cbn in Hk; [by inversion Hk; subst | done | done])
             ltac:(cbn; lia) 2%positive eq_refl).
  - destruct (C2_allocate_lease (fun _ => Some 2%positive) full_pool 4096)
      as (_ & _ & H).
    apply H.
    + intros [|k] t Hk; cbn in Hk; [by inversion Hk; subst | done].
    + cbn; lia.
    + cbn; lia.
Defined.

End FiberStacksFacts.

(** ** Fiber: resume, transfer and yield *)

Module FiberFacts.
Import Fiber.

Lemma bind_Ok {A B} (m : M A) (k : A -> M B) st a st' :
  m st = (Ok a, st') -> (m ≫= k) st = k a st'.
Proof. intros H. unfold mbind, M_bind. by rewrite H. Qed.

Lemma bind_Raise {A B} (m : M A) (k : A -> M B) st e st' :
  m st = (Raise e, st') -> (m ≫= k) st = (Raise e, st').
Proof. intros H. unfold mbind, M_bind. by rewrite H. Qed.

Lemma when_false m st : when false m st = (Ok tt, st).
Proof. reflexivity. Qed.

Lemma when_raise reason st :
  when true (raise_fiber_error reason) st = (Raise (FiberError reason), st).
Proof. reflexivity. Qed.

Lemma get_state_Ok st : get_state st = (Ok st, st).
Proof. reflexivity. Qed.

Lemma deref_Some st a f :
  fibers st !! a = Some f -> deref (Some a) st = (Ok f, st).
Proof. intros H. unfold deref. by rewrite H. Qed.

Lemma update_Some st a f g :
  fibers st !! a = Some f ->
  update (Some a) g st =
    (Ok tt, {| vm := vm st; current_fiber := current_fiber st;
               root_fiber := root_fiber st;
               fibers := <[a := g f]> (fibers st) |}).
Proof.
  intros H. unfold update.
  rewrite (bind_Ok _ _ _ _ _ (deref_Some st a f H)). reflexivity.
Qed.

Lemma ensure_data_Some st a f :
  fibers st !! a = Some f ->
  ensure_data (Some a) st = (Ok (context_of st f), with_context st a f).
Proof.
  intros H. unfold ensure_data.
  rewrite (bind_Ok _ _ _ _ _ (deref_Some st a f H)).
  unfold context_of, with_context. destruct (data_ f) as [d|]; [done|].
  unfold mbind, M_bind, get_state.
  rewrite (update_Some st a f _ H). reflexivity.
Qed.

Lemma with_context_lookup st a f :
  fibers st !! a = Some f ->
  fibers (with_context st a f) !! a = Some (fiber_with_context st f).
Proof.
  intros H. unfold with_context, fiber_with_context, context_of.
  destruct f as [s r p v e [d|]]; cbn.
  - done.
  - by rewrite lookup_insert_eq.
Qed.

Lemma with_context_vm st a f : vm (with_context st a f) = vm st.
Proof. unfold with_context. by destruct (data_ f). Qed.

Lemma with_context_current st a f :
  current_fiber (with_context st a f) = current_fiber st.
Proof. unfold with_context. by destruct (data_ f). Qed.

Lemma with_context_root st a f :
  root_fiber (with_context st a f) = root_fiber st.
Proof. unfold with_context. by destruct (data_ f). Qed.

Lemma sleep_Some st c fc :
  fibers st !! c = Some fc ->
  sleep (Some c) st =
    (Ok tt, {| vm := vm st; current_fiber := current_fiber st;
               root_fiber := root_fiber st;
               fibers := <[c := set_status eSleeping fc]> (fibers st) |}).
Proof. apply update_Some. Qed.

Lemma run_Some st a fa :
  fibers st !! a = Some fa ->
  run (Some a) st =
    (Ok tt, {| vm := vm st; current_fiber := Some a;
               root_fiber := root_fiber st;
               fibers := <[a := set_status eRunning fa]> (fibers st) |}).
Proof.
  intros H. unfold run.
  rewrite (bind_Ok _ _ _ _ _ (update_Some st a fa _ H)).
  reflexivity.
Qed.

Lemma enter_spec st a c p fa fc :
  fibers st !! a = Some fa ->
  fibers st !! c = Some fc ->
  exists st' fa',
    enter (Some a) p (Some c) st = (Ok tt, st') /\
    fibers st' !! a = Some fa' /\
    prev_ fa' = p /\ status_ fa' = eRunning /\
    value_ fa' = value_ fa /\ root_ fa' = root_ fa /\
    current_fiber st' = Some a /\
    root_fiber st' = root_fiber st /\
    vm st' = vm st /\
    (c <> a -> fibers st' !! c = Some (set_status eSleeping fc)) /\
    (forall x, x <> a -> x <> c -> fibers st' !! x = fibers st !! x).
Proof.
  intros Ha Hc. unfold enter.
  rewrite (bind_Ok _ _ _ _ _ (update_Some st a fa _ Ha)).
  set (st1 := {| vm := vm st; current_fiber := current_fiber st;
                 root_fiber := root_fiber st;
                 fibers := <[a := set_prev p fa]> (fibers st) |}).
  assert (exists fc1, fibers st1 !! c = Some fc1 /\
            (c = a -> fc1 = set_prev p fa) /\ (c <> a -> fc1 = fc))
    as (fc1 & Hc1 & Hca & Hcn).
  { cbn. destruct (decide (c = a)) as [->|Hne].
    - exists (set_prev p fa). rewrite lookup_insert_eq. by repeat split.
    - exists fc. rewrite lookup_insert_ne by done. by repeat split. }
  rewrite (bind_Ok _ _ _ _ _ (sleep_Some st1 c fc1 Hc1)).
  set (st2 := {| vm := vm st1; current_fiber := current_fiber st1;
                 root_fiber := root_fiber st1;
                 fibers := <[c := set_status eSleeping fc1]> (fibers st1) |}).
  assert (exists fa2, fibers st2 !! a = Some fa2 /\
            prev_ fa2 = p /\ value_ fa2 = value_ fa /\ root_ fa2 = root_ fa)
    as (fa2 & Ha2 & Hp2 & Hv2 & Hr2).
  { cbn. destruct (decide (c = a)) as [->|Hne].
    - exists (set_status eSleeping fc1). rewrite lookup_insert_eq.
      rewrite (Hca eq_refl). by repeat split.
    - exists (set_prev p fa).
      rewrite lookup_insert_ne by done. rewrite lookup_insert_eq.
      by repeat split. }
  rewrite (bind_Ok _ _ _ _ _ (run_Some st2 a fa2 Ha2)).
  eexists _, (set_status eRunning fa2). split; [reflexivity|].
  cbn. rewrite lookup_insert_eq. repeat split; try done.
  - intros Hne. rewrite lookup_insert_ne by done.
    rewrite lookup_insert_eq. by rewrite (Hcn Hne).
  - intros x Hxa Hxc. by rewrite !lookup_insert_ne.
Qed.

(** [Fiber::current] on a well-formed state yields a fiber of the heap,
    allocating the root fiber when the VM has none yet, and leaves every
    existing fiber as it was. *)
Lemma current_spec st :
  wf st ->
  exists c st',
    current st = (Ok (Some c), st') /\
    is_Some (fibers st' !! c) /\
    root_fiber st' <> None /\
    vm st' = vm st /\
    (forall x f, fibers st !! x = Some f -> fibers st' !! x = Some f) /\
    (forall c0, current_fiber st = Some c0 -> c = c0 /\ st' = st) /\
    (current_fiber st = None ->
       root_fiber st' = Some c /\ fibers st !! c = None).
Proof.
  intros Hwf. unfold current.
  rewrite (bind_Ok _ _ _ _ _ (get_state_Ok st)).
  destruct (current_fiber st) as [c|] eqn:Hc.
  - destruct (Hwf c Hc) as [Hf Hr].
    exists c, st. split; [reflexivity|].
    split; [done|]. split; [by intros E; rewrite E in Hr; destruct Hr|].
    split; [done|]. split; [done|]. split; [|done].
    intros c0 E. by inversion E.
  - set (r := fresh (dom (fibers st))).
    assert (fibers st !! r = None) as Hfresh.
    { apply not_elem_of_dom. apply is_fresh. }
    eexists r, _. split; [reflexivity|]. cbn.
    rewrite lookup_insert_eq. repeat split; try done.
    intros x f Hx. rewrite lookup_insert_ne; [done|]. congruence.
Qed.

Lemma wf_insert st a g :
  wf st ->
  wf {| vm := vm st; current_fiber := current_fiber st;
        root_fiber := root_fiber st; fibers := <[a := g]> (fibers st) |}.
Proof.
  intros Hwf c Hc. cbn in *. destruct (Hwf c Hc) as [Hf Hr].
  split; [|done]. rewrite lookup_insert. case_decide; [by eexists | done].
Qed.

Lemma wf_with_context st a f : wf st -> wf (with_context st a f).
Proof.
  intros Hwf. unfold with_context. destruct (data_ f); [done|].
  by apply wf_insert.
Qed.

(** The switch of [resume]: the target is linked to the fiber that was
    running, which goes to sleep, and the target runs. *)
Lemma resume_switch_spec st a fa args :
  wf st ->
  fibers st !! a = Some fa ->
  exists c st' fa',
    resume_switch (Some a) args st = (Ok tt, st') /\
    fibers st' !! a = Some fa' /\
    prev_ fa' = Some c /\ status_ fa' = eRunning /\
    value_ fa' = Some args /\
    current_fiber st' = Some a /\
    (forall c0, current_fiber st = Some c0 -> c = c0) /\
    (c <> a -> exists fc, fibers st' !! c = Some fc /\ status_ fc = eSleeping).
Proof.
  intros Hwf Ha. unfold resume_switch.
  rewrite (bind_Ok _ _ _ _ _ (update_Some st a fa _ Ha)).
  set (st1 := {| vm := vm st; current_fiber := current_fiber st;
                 root_fiber := root_fiber st;
                 fibers := <[a := set_value (Some args) fa]> (fibers st) |}).
  assert (wf st1) as Hwf1 by (by apply wf_insert).
  destruct (current_spec st1 Hwf1)
    as (c & st2 & Hcur & [fc Hfc] & _ & _ & Hkeep & Hsame & _).
  rewrite (bind_Ok _ _ _ _ _ Hcur).
  assert (fibers st2 !! a = Some (set_value (Some args) fa)) as Ha2.
  { apply Hkeep. cbn. by rewrite lookup_insert_eq. }
  destruct (enter_spec st2 a c (Some c) _ fc Ha2 Hfc)
    as (st' & fa' & He & Ha' & Hp & Hs & Hv & _ & Hc' & _ & _ & Hsl & _).
  fold (enter (Some a) (Some c) (Some c)). rewrite He.
  exists c, st', fa'. repeat split; try done.
  - intros c0 Hc0. by destruct (Hsame c0 Hc0).
  - intros Hne. exists (set_status eSleeping fc). split; [by apply Hsl | done].
Qed.

(** The switch of [transfer]: the target is linked to the root fiber of
    the thread, whatever fiber was running. *)
Lemma transfer_switch_spec st a fa args :
  wf st ->
  fibers st !! a = Some fa ->
  exists r st' fa',
    transfer_switch (Some a) args st = (Ok tt, st') /\
    fibers st' !! a = Some fa' /\
    root_fiber st' = Some r /\
    prev_ fa' = Some r /\ status_ fa' = eRunning /\
    value_ fa' = Some args /\
    current_fiber st' = Some a /\
    (forall c0, current_fiber st = Some c0 -> root_fiber st = Some r).
Proof.
  intros Hwf Ha. unfold transfer_switch.
  rewrite (bind_Ok _ _ _ _ _ (update_Some st a fa _ Ha)).
  set (st1 := {| vm := vm st; current_fiber := current_fiber st;
                 root_fiber := root_fiber st;
                 fibers := <[a := set_value (Some args) fa]> (fibers st) |}).
  assert (wf st1) as Hwf1 by (by apply wf_insert).
  destruct (current_spec st1 Hwf1)
    as (c & st2 & Hcur & [fc Hfc] & Hroot & _ & Hkeep & Hsame & _).
  rewrite (bind_Ok _ _ _ _ _ Hcur).
  rewrite (bind_Ok _ _ _ _ _ (get_state_Ok st2)).
  destruct (root_fiber st2) as [r|] eqn:Hr; [|done].
  cbn [is_Some_b].
  assert (assert true st2 = (Ok tt, st2)) as Hassert by reflexivity.
  rewrite (bind_Ok _ _ _ _ _ Hassert).
  assert (fibers st2 !! a = Some (set_value (Some args) fa)) as Ha2.
  { apply Hkeep. cbn. by rewrite lookup_insert_eq. }
  destruct (enter_spec st2 a c (Some r) _ fc Ha2 Hfc)
    as (st' & fa' & He & Ha' & Hp & Hs & Hv & _ & Hc' & Hr' & _).
  fold (enter (Some a) (Some r) (Some c)). rewrite He.
  exists r, st', fa'. repeat split; try done.
  - by rewrite Hr'.
  - intros c0 Hc0. destruct (Hsame c0 Hc0) as [_ ->] in Hr. done.
Qed.

(** [resume] is a cascade of three checks followed by the switch. *)
Lemma resume_cascade st a f args :
  fibers st !! a = Some f ->
  resume (Some a) args st =
    if dead st f then
      (Raise (FiberError "dead fiber called"), with_context st a f)
    else if is_Some_b (prev_ f) then
      (Raise (FiberError "double resume"), with_context st a f)
    else if other_thread (context_of st f) (vm st) then
      (Raise (FiberError "cross thread fiber resuming is illegal"),
       with_context st a f)
    else resume_switch (Some a) args (with_context st a f).
Proof.
  intros H. unfold resume.
  rewrite (bind_Ok _ _ _ _ _ (ensure_data_Some st a f H)).
  rewrite (bind_Ok _ _ _ _ _
             (deref_Some _ a _ (with_context_lookup st a f H))).
  unfold dead. cbn [fiber_with_context set_data status_ prev_].
  destruct (bool_decide (status_ f = eDead) || dead_p (context_of st f)).
  { apply bind_Raise, when_raise. }
  rewrite (bind_Ok _ _ _ _ _ (when_false _ _)).
  destruct (is_Some_b (prev_ f)).
  { apply bind_Raise, when_raise. }
  rewrite (bind_Ok _ _ _ _ _ (when_false _ _)).
  rewrite (bind_Ok _ _ _ _ _ (get_state_Ok _)).
  rewrite with_context_vm.
  destruct (other_thread (context_of st f) (vm st)).
  { apply bind_Raise, when_raise. }
  rewrite (bind_Ok _ _ _ _ _ (when_false _ _)).
  reflexivity.
Qed.

(** [transfer] is a cascade of two checks followed by the switch. *)
Lemma transfer_cascade st a f args :
  fibers st !! a = Some f ->
  transfer (Some a) args st =
    if dead st f then
      (Raise (FiberError "dead fiber called"), with_context st a f)
    else if other_thread (context_of st f) (vm st) then
      (Raise (FiberError "cross thread fiber resuming is illegal"),
       with_context st a f)
    else transfer_switch (Some a) args (with_context st a f).
Proof.
  intros H. unfold transfer.
  rewrite (bind_Ok _ _ _ _ _ (ensure_data_Some st a f H)).
  rewrite (bind_Ok _ _ _ _ _
             (deref_Some _ a _ (with_context_lookup st a f H))).
  unfold dead. cbn [fiber_with_context set_data status_ prev_].
  destruct (bool_decide (status_ f = eDead) || dead_p (context_of st f)).
  { apply bind_Raise, when_raise. }
  rewrite (bind_Ok _ _ _ _ _ (when_false _ _)).
  rewrite (bind_Ok _ _ _ _ _ (get_state_Ok _)).
  rewrite with_context_vm.
  destruct (other_thread (context_of st f) (vm st)).
  { apply bind_Raise, when_raise. }
  rewrite (bind_Ok _ _ _ _ _ (when_false _ _)).
  reflexivity.
Qed.

(** The failing checks leave every fiber's scheduling fields alone. *)
Lemma with_context_keeps st a f :
  fibers st !! a = Some f ->
  current_fiber (with_context st a f) = current_fiber st /\
  forall x g, fibers st !! x = Some g ->
    exists g', fibers (with_context st a f) !! x = Some g' /\
      status_ g' = status_ g /\ prev_ g' = prev_ g /\ value_ g' = value_ g.
Proof.
  intros Ha. split; [apply with_context_current|].
  intros x g Hx. unfold with_context. destruct (data_ f) eqn:Hd.
  - by exists g.
  - cbn. destruct (decide (a = x)) as [->|Hne].
    + rewrite lookup_insert_eq. eexists. split; [done|].
      assert (g = f) as -> by congruence. done.
    + rewrite lookup_insert_ne by done. by exists g.
Qed.

Lemma dead_iff st f :
  dead st f = true <->
  status_ f = eDead \/ exists d, data_ f = Some d /\ dead_p d = true.
Proof.
  unfold dead, context_of. rewrite orb_true_iff, bool_decide_eq_true.
  split; intros [H|H]; auto.
  - destruct (data_ f) as [d|]; [right; eauto | done].
  - destruct H as (d & -> & Hd). by right.
Qed.

Lemma other_thread_iff st f :
  other_thread (context_of st f) (vm st) = true <->
  exists d t, data_ f = Some d /\ thread_ d = Some t /\ t <> vm st.
Proof.
  unfold other_thread, context_of. split.
  - destruct (data_ f) as [d|] eqn:Hd.
    + destruct (thread_ d) as [t|] eqn:Ht; [|done].
      intros H. apply negb_true_iff, bool_decide_eq_false in H. eauto.
    + cbn. intros H. apply negb_true_iff, bool_decide_eq_false in H. done.
  - intros (d & t & -> & -> & Hne).
    by apply negb_true_iff, bool_decide_eq_false.
Qed.

(** C4.  For every fiber [f] at address [a]: when [f] is Dead or its
    context is dead, [resume] raises "dead fiber called"; when the prev
    link of [f] is not nil, [resume] raises as well, with "double resume"
    unless the dead check, which comes first, has already raised; when
    the context of [f] is bound to a thread other than the calling VM,
    [resume] raises as well, with "cross thread fiber resuming is
    illegal" unless one of the two earlier checks has already raised.  In
    none of these cases is the failure swallowed: the caller gets the
    exception, the VM keeps executing the same fiber and no fiber's
    status, prev link or pending value changes. *)
Theorem C4_resume_preconditions st a f args :
  fibers st !! a = Some f ->
  ((status_ f = eDead \/ exists d, data_ f = Some d /\ dead_p d = true) ->
   fst (resume (Some a) args st) = Raise (FiberError "dead fiber called")) /\
  (prev_ f <> None ->
   fst (resume (Some a) args st) =
     Raise (FiberError (if dead st f then "dead fiber called"
                        else "double resume"))) /\
  ((exists d t, data_ f = Some d /\ thread_ d = Some t /\ t <> vm st) ->
   fst (resume (Some a) args st) =
     Raise (FiberError (if dead st f then "dead fiber called"
                        else if is_Some_b (prev_ f) then "double resume"
                        else "cross thread fiber resuming is illegal"))) /\
  (((status_ f = eDead \/ exists d, data_ f = Some d /\ dead_p d = true) \/
    prev_ f <> None \/
    (exists d t, data_ f = Some d /\ thread_ d = Some t /\ t <> vm st)) ->
   (exists e, fst (resume (Some a) args st) = Raise e) /\
   current_fiber (snd (resume (Some a) args st)) = current_fiber st /\
   forall x g, fibers st !! x = Some g ->
     exists g', fibers (snd (resume (Some a) args st)) !! x = Some g' /\
       status_ g' = status_ g /\ prev_ g' = prev_ g /\ value_ g' = value_ g).
Proof.
  intros Ha. rewrite (resume_cascade st a f args Ha).
  split; [|split; [|split]].
  - intros Hd. apply (proj2 (dead_iff st f)) in Hd. by rewrite Hd.
  - intros Hp. destruct (dead st f); [done|].
    destruct (prev_ f); [done | congruence].
  - intros Ht. apply (proj2 (other_thread_iff st f)) in Ht.
    destruct (dead st f); [done|].
    destruct (is_Some_b (prev_ f)); [done|]. by rewrite Ht.
  - intros Hany.
    assert (dead st f = true \/ is_Some_b (prev_ f) = true \/
            other_thread (context_of st f) (vm st) = true) as Hb.
    { destruct Hany as [H|[H|H]].
      - left. by apply dead_iff.
      - right; left. by destruct (prev_ f).
      - right; right. by apply other_thread_iff. }
    destruct (with_context_keeps st a f Ha) as [Hc Hk].
    destruct (dead st f); [by eauto|].
    destruct (is_Some_b (prev_ f)); [by eauto|].
    destruct (other_thread (context_of st f) (vm st)); [by eauto|].
    by destruct Hb as [?|[?|?]].
Qed.

Lemma nested_wf : wf nested.
Proof.
  intros c Hc. inversion Hc; subst. split; by eexists.
Defined.

Lemma C4_resume_preconditions_witness :
  fst (resume (Some 2%positive) [Fixnum 7] nested)
    = Raise (FiberError "double resume") /\
  current_fiber (snd (resume (Some 2%positive) [Fixnum 7] nested))
    = Some 3%positive.
Proof.
  destruct (C4_resume_preconditions nested 2 worker [Fixnum 7] eq_refl)
    as (_ & Hprev & _ & Hkeep).
  split.
  - apply Hprev. discriminate.
  - apply Hkeep. right; left. discriminate.
Defined.

(** C3 (as stated, refuted).  [worker] is waiting for the fiber it
    resumed, so its prev link is set: [resume] refuses it with "double
    resume", but [transfer] raises nothing and switches to it. *)
Lemma C3_transfer_has_no_double_resume_check :
  prev_ worker = Some 1%positive /\
  fst (resume (Some 2%positive) [] nested)
    = Raise (FiberError "double resume") /\
  fst (transfer (Some 2%positive) [] nested) = Ok tt.
Proof. repeat split; vm_compute; reflexivity. Qed.

(** C3 (amended).  [transfer] makes two of the three checks of [resume]:
    it raises "dead fiber called" when the target is Dead or its context
    is dead, and "cross thread fiber resuming is illegal" when the context
    is bound to another thread, the dead check coming first.  It does not
    look at the target's prev link.  When both checks pass it switches to
    the target with the target's prev set to the root fiber of the thread,
    whatever the prev link was and whichever fiber called; [resume], when
    its checks pass, sets the prev link to the calling fiber. *)
Theorem C3_transfer_preconditions st a f args :
  wf st ->
  fibers st !! a = Some f ->
  ((status_ f = eDead \/ exists d, data_ f = Some d /\ dead_p d = true) ->
   fst (transfer (Some a) args st) = Raise (FiberError "dead fiber called")) /\
  ((exists d t, data_ f = Some d /\ thread_ d = Some t /\ t <> vm st) ->
   fst (transfer (Some a) args st) =
     Raise (FiberError (if dead st f then "dead fiber called"
                        else "cross thread fiber resuming is illegal"))) /\
  (dead st f = false ->
   other_thread (context_of st f) (vm st) = false ->
   exists r st' f',
     transfer (Some a) args st = (Ok tt, st') /\
     fibers st' !! a = Some f' /\
     root_fiber st' = Some r /\ prev_ f' = Some r /\
     status_ f' = eRunning /\ value_ f' = Some args /\
     current_fiber st' = Some a /\
     (forall c0, current_fiber st = Some c0 -> root_fiber st = Some r)) /\
  (dead st f = false ->
   other_thread (context_of st f) (vm st) = false ->
   prev_ f = None ->
   exists c st' f',
     resume (Some a) args st = (Ok tt, st') /\
     fibers st' !! a = Some f' /\
     prev_ f' = Some c /\
     (forall c0, current_fiber st = Some c0 -> c = c0)).
Proof.
  intros Hwf Ha.
  rewrite (transfer_cascade st a f args Ha), (resume_cascade st a f args Ha).
  split; [|split; [|split]].
  - intros Hd. apply (proj2 (dead_iff st f)) in Hd. by rewrite Hd.
  - intros Ht. apply (proj2 (other_thread_iff st f)) in Ht.
    destruct (dead st f); [done|]. by rewrite Ht.
  - intros -> ->.
    destruct (transfer_switch_spec (with_context st a f) a _ args
                (wf_with_context st a f Hwf) (with_context_lookup st a f Ha))
      as (r & st' & f' & Ht & Hf' & Hr & Hp & Hs & Hv & Hc & Hroot).
    exists r, st', f'. repeat split; try done.
    intros c0 Hc0. rewrite <- (with_context_root st a f).
    apply (Hroot c0). by rewrite with_context_current.
  - intros -> -> ->. cbn [is_Some_b].
    destruct (resume_switch_spec (with_context st a f) a _ args
                (wf_with_context st a f Hwf) (with_context_lookup st a f Ha))
      as (c & st' & f' & Ht & Hf' & Hp & _ & _ & _ & Hcur & _).
    exists c, st', f'. repeat split; try done.
    intros c0 Hc0. apply Hcur. by rewrite with_context_current.
Qed.

Lemma C3_transfer_preconditions_witness :
  exists st' f',
    transfer (Some 2%positive) [Fixnum 7] nested = (Ok tt, st') /\
    fibers st' !! 2%positive = Some f' /\
    prev_ f' = Some 1%positive /\
    current_fiber st' = Some 2%positive.
Proof.
  destruct (C3_transfer_preconditions nested 2 worker [Fixnum 7]
              nested_wf eq_refl) as (_ & _ & Hok & _).
  destruct (Hok eq_refl eq_refl)
    as (r & st' & f' & Ht & Hf' & Hr & Hp & _ & _ & Hc & Hroot).
  exists st', f'. repeat split; try done.
  rewrite Hp. symmetry. apply (Hroot 3%positive). reflexivity.
Defined.

(** [s_yield] on a state whose running fiber is [c]. *)
Lemma current_Some st c :
  current_fiber st = Some c -> current st = (Ok (Some c), st).
Proof.
  intros H. unfold current.
  rewrite (bind_Ok _ _ _ _ _ (get_state_Ok st)). by rewrite H.
Qed.

(** Yielding from a root fiber whose prev link is not the fiber itself
    raises and changes nothing. *)
Lemma s_yield_root st c fc args :
  current_fiber st = Some c ->
  fibers st !! c = Some fc ->
  root_ fc = true ->
  prev_ fc <> Some c ->
  s_yield args st = (Raise (FiberError "can't yield from root fiber"), st).
Proof.
  intros Hc Hfc Hroot Hprev. unfold s_yield.
  rewrite (bind_Ok _ _ _ _ _ (current_Some st c Hc)).
  rewrite (bind_Ok _ _ _ _ _ (deref_Some st c fc Hfc)).
  assert (bool_decide (Some c = prev_ fc) = false) as Hne
    by (apply bool_decide_eq_false; congruence).
  rewrite Hne. cbn [negb].
  assert (assert true st = (Ok tt, st)) as Hassert by reflexivity.
  rewrite (bind_Ok _ _ _ _ _ Hassert).
  rewrite Hroot. apply bind_Raise, when_raise.
Qed.

(** Yielding from a fiber that is not the root and has a resumer [d]:
    the prev link is cleared, the arguments become the pending value of
    [d], the yielding fiber sleeps and [d] runs. *)
Lemma s_yield_switch st c fc d fd args :
  current_fiber st = Some c ->
  fibers st !! c = Some fc ->
  root_ fc = false ->
  prev_ fc = Some d ->
  d <> c ->
  fibers st !! d = Some fd ->
  exists st',
    s_yield args st = (Ok tt, st') /\
    fibers st' !! c = Some (set_status eSleeping (set_prev None fc)) /\
    fibers st' !! d = Some (set_status eRunning (set_value (Some args) fd)) /\
    current_fiber st' = Some d /\
    root_fiber st' = root_fiber st /\
    forall x, x <> c -> x <> d -> fibers st' !! x = fibers st !! x.
Proof.
  intros Hc Hfc Hroot Hprev Hne Hfd. unfold s_yield.
  rewrite (bind_Ok _ _ _ _ _ (current_Some st c Hc)).
  rewrite (bind_Ok _ _ _ _ _ (deref_Some st c fc Hfc)).
  rewrite Hprev.
  assert (bool_decide (Some c = Some d) = false) as Hb
    by (apply bool_decide_eq_false; congruence).
  rewrite Hb. cbn [negb].
  assert (assert true st = (Ok tt, st)) as Hassert by reflexivity.
  rewrite (bind_Ok _ _ _ _ _ Hassert).
  rewrite Hroot, (bind_Ok _ _ _ _ _ (when_false _ _)).
  rewrite (bind_Ok _ _ _ _ _ (update_Some st c fc _ Hfc)).
  erewrite bind_Ok; cycle 1.
  { apply update_Some with (f := fd). cbn. by rewrite lookup_insert_ne. }
  erewrite bind_Ok; cycle 1.
  { apply sleep_Some with (fc := set_prev None fc). cbn.
    rewrite lookup_insert_ne by done. by rewrite lookup_insert_eq. }
  erewrite bind_Ok; cycle 1.
  { apply run_Some with (fa := set_value (Some args) fd). cbn.
    rewrite lookup_insert_ne by done. by rewrite lookup_insert_eq. }
  eexists. split; [reflexivity|]. cbn.
  rewrite lookup_insert_ne by done. rewrite lookup_insert_eq.
  rewrite lookup_insert_eq. repeat split; try done.
  intros x Hxc Hxd. by rewrite !lookup_insert_ne.
Qed.

(** C9 (failing input).  After the root fiber has resumed a fiber and
    that fiber has transferred back to the root fiber, the root fiber is
    running, is its own prev, and a yield from it stops at
    [assert(cur != dest_fib)] instead of raising "can't yield from root
    fiber". *)
Theorem C9_yield_from_root_after_transfer :
  exists st r f,
    resume_then_transfer_to_root one_fiber = (Ok tt, st) /\
    current_fiber st = Some r /\ root_fiber st = Some r /\
    fibers st !! r = Some f /\
    root_ f = true /\ prev_ f = Some r /\
    s_yield [] st = (AssertFailed, st).
Proof.
  eexists _, _, _. split; [vm_compute; reflexivity|].
  repeat split; vm_compute; reflexivity.
Qed.

End FiberFacts.

(** ** VariableScope: locking and promotion to the heap *)

Module VariableScopeFacts.
Import VariableScope.

Section WithConstants.

Variable cScopeLocked : Z.
Variable displace : AddressDisplacement -> Z -> option Z.

#[local] Abbreviation locked_p := (VariableScope.locked_p cScopeLocked).
#[local] Abbreviation set_locked := (VariableScope.set_locked cScopeLocked).
#[local] Abbreviation get_local := (VariableScope.get_local cScopeLocked displace).
#[local] Abbreviation set_local := (VariableScope.set_local cScopeLocked displace).
#[local] Abbreviation get_local_internal := (VariableScope.get_local_internal displace).
#[local] Abbreviation set_local_internal := (VariableScope.set_local_internal displace).
#[local] Abbreviation flush_to_heap := (VariableScope.flush_to_heap cScopeLocked).
#[local] Abbreviation clear_locked := (VariableScope.clear_locked cScopeLocked).
#[local] Abbreviation perform := (VariableScope.perform cScopeLocked displace).
#[local] Abbreviation accesses := (VariableScope.accesses cScopeLocked displace).
#[local] Abbreviation lock_flag := (VariableScope.lock_flag cScopeLocked).
#[local] Abbreviation locks := (VariableScope.locks cScopeLocked).
#[local] Abbreviation flushed := (VariableScope.flushed cScopeLocked).

(** *** The flag word *)

Lemma land_lor_same f m : Z.land (Z.lor f m) m = m.
Proof.
  apply Z.bits_inj'. intros n Hn. rewrite Z.land_spec, Z.lor_spec.
  destruct (Z.testbit f n), (Z.testbit m n); reflexivity.
Qed.

Lemma lor_lor_same f m : Z.lor (Z.lor f m) m = Z.lor f m.
Proof. by rewrite <- Z.lor_assoc, Z.lor_diag. Qed.

Lemma land_lnot_same f m : Z.land (Z.land f (Z.lnot m)) m = 0.
Proof.
  apply Z.bits_inj'. intros n Hn.
  rewrite !Z.land_spec, Z.lnot_spec, Z.bits_0 by done.
  destruct (Z.testbit f n), (Z.testbit m n); reflexivity.
Qed.

Lemma lock_flag_locked vs : cScopeLocked <> 0 -> locked_p (lock_flag vs) = true.
Proof.
  intros Hm. unfold VariableScope.locked_p, lock_flag. cbn.
  rewrite land_lor_same. apply negb_true_iff. by apply Z.eqb_neq.
Qed.

Lemma lock_flag_idem vs : lock_flag (lock_flag vs) = lock_flag vs.
Proof. unfold lock_flag, set_flags. cbn. by rewrite lor_lor_same. Qed.

(** *** The parent chain *)

Lemma locks_lookup l m m' x vs :
  locks l m m' -> m !! x = Some vs ->
  exists vs', m' !! x = Some vs' /\ parent_ vs' = parent_ vs.
Proof.
  intros Hl Hx. rewrite (Hl x), Hx. case_decide; cbn; eauto.
Qed.

Lemma chain_locks l' m m' a l :
  locks l' m m' -> chain m a l -> chain m' a l.
Proof.
  intros Hl Hc. induction Hc as [a vs Ha Hp | a vs p l Ha Hp Hc IH].
  - destruct (locks_lookup _ _ _ _ _ Hl Ha) as (vs' & Ha' & Hp').
    apply (chain_top m' a vs'); [done | congruence].
  - destruct (locks_lookup _ _ _ _ _ Hl Ha) as (vs' & Ha' & Hp').
    apply (chain_up m' a vs' p l); [done | congruence | done].
Qed.

Lemma chain_head m a l : chain m a l -> exists l', l = a :: l'.
Proof. intros [? ? ? ?|? ? ? ? ? ?]; eauto. Qed.

Lemma locks_again l1 l2 m m1 m2 :
  (forall x, x ∈ l2 -> x ∈ l1) ->
  locks l1 m m1 -> locks l2 m1 m2 -> locks l1 m m2.
Proof.
  intros Hsub H1 H2 x. rewrite (H2 x), (H1 x).
  destruct (decide (x ∈ l2)) as [Hx|Hx].
  - rewrite decide_True by auto.
    destruct (m !! x); cbn; [|done]. by rewrite lock_flag_idem.
  - done.
Qed.

Lemma locks_cons a vs l m m' :
  m !! a = Some vs ->
  locks l (<[a := lock_flag vs]> m) m' ->
  locks (a :: l) m m'.
Proof.
  intros Ha Hl x. rewrite (Hl x).
  destruct (decide (x = a)) as [->|Hne].
  - rewrite lookup_insert_eq, Ha. cbn.
    rewrite (decide_True (P := a ∈ a :: l)) by (left).
    case_decide; [by rewrite lock_flag_idem | done].
  - rewrite lookup_insert_ne by done.
    destruct (decide (x ∈ l)) as [Hx|Hx].
    + rewrite decide_True by (by right). done.
    + rewrite decide_False; [done|]. intros Hin.
      apply elem_of_cons in Hin as [?|?]; done.
Qed.

(** The loop locks the chain that starts at [parent], provided the
    recursive call locks the chain that starts at its argument. *)
Lemma set_locked_parents_locks recur n :
  (forall a m l, chain m a l -> (length l <= n)%nat ->
     exists m', recur a m = Some m' /\ locks l m m') ->
  forall l k parent m,
    chain_from m parent l -> (length l <= k)%nat -> (length l <= n)%nat ->
    exists m', set_locked_parents recur k parent m = Some m' /\ locks l m m'.
Proof.
  intros Hrec l. induction l as [|p0 l IH]; intros k parent m Hc Hk Hn.
  - destruct parent as [p|]; cbn in Hc.
    + apply chain_head in Hc as [? ?]. done.
    + destruct k; cbn; (eexists; split; [done|]);
        intros x; by rewrite decide_False by apply not_elem_of_nil.
  - destruct parent as [p|]; cbn in Hc; [|done].
    destruct k as [|k]; [cbn in Hk; lia|]. cbn [set_locked_parents].
    destruct (Hrec p m (p0 :: l) Hc Hn) as (m1 & -> & Hl1).
    assert (exists vs, m !! p = Some vs /\ chain_from m (parent_ vs) l /\ p0 = p)
      as (vs & Hp & Hrest & ->).
    { inversion Hc as [a vs Ha Hpa | a vs q l' Ha Hpa Hq]; subst;
        exists vs; (split; [done|]); (split; [|done]); by rewrite Hpa. }
    destruct (locks_lookup _ _ _ _ _ Hl1 Hp) as (vs1 & -> & Hpar).
    rewrite Hpar.
    assert (chain_from m1 (parent_ vs) l) as Hrest1.
    { destruct (parent_ vs); cbn in *; [|done]. by eapply chain_locks. }
    destruct (IH k (parent_ vs) m1 Hrest1) as (m2 & -> & Hl2);
      [cbn in Hk; lia | cbn in Hn; lia |].
    exists m2. split; [done|].
    eapply locks_again; [|done|done]. intros x Hx. by right.
Qed.

(** With fuel for the length of the chain [set_locked] returns, and what
    it returns is the store with the whole chain locked. *)
Lemma set_locked_locks fuel : forall self m l,
  chain m self l -> (length l <= fuel)%nat ->
  exists m', set_locked fuel self m = Some m' /\ locks l m m'.
Proof.
  induction fuel as [|n IH]; intros self m l Hc Hlen.
  - apply chain_head in Hc as [? ->]. cbn in Hlen. lia.
  - cbn [VariableScope.set_locked].
    inversion Hc as [a vs Ha Hp | a vs p l' Ha Hp Hc']; subst.
    + rewrite Ha, Hp.
      destruct n; cbn; (eexists; split; [done|]);
        (eapply locks_cons; [done|]);
        intros x; by rewrite decide_False by apply not_elem_of_nil.
    + rewrite Ha, Hp. cbn in Hlen.
      destruct (set_locked_parents_locks (set_locked n) n IH l' n (Some p)
                  (<[self := lock_flag vs]> m)) as (m' & Hm' & Hl);
        [|lia|lia|].
      * cbn. eapply chain_locks; [|done].
        instantiate (1 := [self]). intros x.
        destruct (decide (x = self)) as [->|Hne].
        -- rewrite lookup_insert_eq, Ha.
           by rewrite decide_True by (by left).
        -- rewrite lookup_insert_ne by done.
           rewrite decide_False; [done|].
           intros Hin. apply elem_of_cons in Hin as [?|Hin]; [done|].
           by apply not_elem_of_nil in Hin.
      * exists m'. split; [done|]. by eapply locks_cons.
Qed.

(** *** Accesses under the lock *)

Ltac heap_simpl :=
  repeat (cbn [scopes fibers stack log emit store_scope store_stack
               set_lock set_flags set_heap_locals set_isolated
               parent_ heap_locals_ locals_ number_of_locals_ isolated_
               flags_ lock_ fiber_ fst snd] in *;
          rewrite ?lookup_insert_eq, ?insert_insert_eq in *).

Ltac access_done :=
  repeat split; heap_simpl;
  first [ done
        | by rewrite <- ?app_assoc, ?app_nil_r
        | by repeat constructor
        | by rewrite insert_id
        | by rewrite lookup_insert_eq ].

(** A locked scope whose lock is free: [get_local] is the plain access
    [get_local_internal] with the lock taken before its first event and
    released after its last, and it leaves the scope locked. *)
Lemma get_local_bracketed self vs pos h :
  scopes h !! self = Some vs ->
  locked_p vs = true ->
  lock_ vs = false ->
  exists r h0 h' evs,
    get_local_internal self pos h = (r, h0) /\
    log h0 = log h ++ evs /\
    get_local self pos h = (r, h') /\
    log h' = log h ++ EvLock self :: evs ++ [EvUnlock self] /\
    Forall (fun e => lock_event e = false) evs /\
    scopes h' = scopes h /\ stack h' = stack h.
Proof.
  intros Hs Hl Hf.
  unfold VariableScope.get_local, with_lock,
    VariableScope.get_local_internal. rewrite Hs, Hl, Hf. heap_simpl.
  destruct vs as [par hl loc n iso fl lk fib]; cbn in Hf; subst lk.
  heap_simpl. destruct iso.
  - destruct hl as [t|]; heap_simpl.
    + eexists _, _, _, [EvHeapAt self pos]. access_done.
    + eexists _, _, _, []. access_done.
  - unfold get_local_stack, displaced_locals; heap_simpl.
    destruct fib as [fa|]; heap_simpl.
    + destruct (fibers h !! fa) as [[dis|]|]; heap_simpl.
      * destruct (displace dis loc) as [ary|]; heap_simpl.
        -- eexists _, _, _, [EvDisplace loc; EvStackRead (ary + pos)].
           access_done.
        -- eexists _, _, _, [EvDisplace loc]. access_done.
      * eexists _, _, _, [EvStackRead (loc + pos)]. access_done.
      * eexists _, _, _, [EvStackRead (loc + pos)]. access_done.
    + eexists _, _, _, [EvStackRead (loc + pos)]. access_done.
Qed.

(** The same for [set_local]. *)
Lemma set_local_bracketed self vs pos val h :
  scopes h !! self = Some vs ->
  locked_p vs = true ->
  lock_ vs = false ->
  exists r h0 h' evs vs',
    set_local_internal self pos val h = (r, h0) /\
    log h0 = log h ++ evs /\
    set_local self pos val h = (r, h') /\
    log h' = log h ++ EvLock self :: evs ++ [EvUnlock self] /\
    Forall (fun e => lock_event e = false) evs /\
    scopes h' = scopes h0 /\ stack h' = stack h0 /\
    scopes h' !! self = Some vs' /\
    flags_ vs' = flags_ vs /\ lock_ vs' = false /\
    isolated_ vs' = isolated_ vs.
Proof.
  intros Hs Hl Hf.
  unfold VariableScope.set_local, with_lock,
    VariableScope.set_local_internal. rewrite Hs, Hl, Hf. heap_simpl.
  destruct vs as [par hl loc n iso fl lk fib]; cbn in Hf; subst lk.
  heap_simpl. destruct iso.
  - destruct hl as [t|]; heap_simpl.
    + destruct (put t pos val) as [t'|]; heap_simpl.
      * eexists _, _, _, [EvHeapPut self pos], _. access_done.
      * eexists _, _, _, [], _. access_done.
    + eexists _, _, _, [], _. access_done.
  - unfold set_local_stack, displaced_locals; heap_simpl.
    destruct fib as [fa|]; heap_simpl.
    + destruct (fibers h !! fa) as [[dis|]|]; heap_simpl.
      * destruct (displace dis loc) as [ary|]; heap_simpl.
        -- eexists _, _, _, [EvDisplace loc; EvStackWrite (ary + pos)], _.
           access_done.
        -- eexists _, _, _, [EvDisplace loc], _. access_done.
      * eexists _, _, _, [EvStackWrite (loc + pos)], _. access_done.
      * eexists _, _, _, [EvStackWrite (loc + pos)], _. access_done.
    + eexists _, _, _, [EvStackWrite (loc + pos)], _. access_done.
Qed.

(** While the lock is held an access to a locked scope does not
    proceed. *)
Lemma locked_access_blocked self vs pos val h :
  scopes h !! self = Some vs ->
  locked_p vs = true ->
  lock_ vs = true ->
  get_local self pos h = (Blocked, h) /\
  set_local self pos val h = (Blocked, h).
Proof.
  intros Hs Hl Hh.
  unfold VariableScope.get_local, VariableScope.set_local, with_lock.
  by rewrite Hs, Hl, Hh.
Qed.

(** *** Promotion to the heap *)

Lemma flush_to_heap_eq self vs h :
  scopes h !! self = Some vs ->
  lock_ vs = false ->
  flush_to_heap self h =
    (Ok tt,
     {| scopes := <[self := flushed h vs]> (scopes h);
        fibers := fibers h; stack := stack h;
        log := log h ++
               (if locked_p vs then [EvLock self; EvUnlock self] else []) |}).
Proof.
  intros Hs Hf.
  unfold VariableScope.flush_to_heap, with_lock, flush_to_heap_internal,
    VariableScope.clear_locked, flushed, promote.
  rewrite Hs, Hf.
  destruct h as [sc fb st lg]; cbn in Hs.
  destruct vs as [par hl loc n iso fl lk fib]; cbn in Hf; subst lk.
  destruct (locked_p _) eqn:Hl; heap_simpl.
  - destruct iso; unfold emit, store_scope, set_lock, set_flags,
      set_isolated, set_heap_locals; heap_simpl; by rewrite <- ?app_assoc.
  - destruct iso; unfold emit, store_scope, set_lock, set_flags,
      set_isolated, set_heap_locals; heap_simpl; rewrite ?app_nil_r; [|done].
    by rewrite insert_id.
Qed.

Lemma flushed_isolated h vs : isolated_ (flushed h vs) = true.
Proof.
  unfold flushed, promote.
  destruct (locked_p vs), (isolated_ vs) eqn:E; cbn; done.
Qed.

Lemma flushed_unlocked h vs : locked_p (flushed h vs) = false.
Proof.
  unfold flushed. destruct (locked_p vs) eqn:E.
  - unfold VariableScope.locked_p. cbn.
    replace (flags_ (promote h vs)) with (flags_ vs)
      by (unfold promote; by destruct (isolated_ vs)).
    by rewrite land_lnot_same.
  - unfold promote. by destruct (isolated_ vs).
Qed.


Lemma flushed_heap_locals h vs :
  heap_locals_ (flushed h vs) =
    if isolated_ vs then heap_locals_ vs
    else Some (copy_locals (Z.to_nat (number_of_locals_ vs)) (locals_ vs)
                 (stack h)).
Proof.
  unfold flushed, promote. by destruct (locked_p vs), (isolated_ vs).
Qed.



(** *** Sequences of accesses *)

Ltac unfold_access :=
  unfold VariableScope.perform, VariableScope.get_local,
    VariableScope.set_local, VariableScope.flush_to_heap, with_lock,
    VariableScope.get_local_internal, VariableScope.set_local_internal,
    flush_to_heap_internal, VariableScope.clear_locked,
    get_local_stack, set_local_stack, displaced_locals.

Ltac unfold_setters :=
  unfold emit, store_scope, store_stack, set_lock, set_flags,
    set_isolated, set_heap_locals in *.

Ltac log_eq :=
  first [ by rewrite <- ?app_assoc | by (symmetry; apply app_nil_r) ].



(** A scope that is not locked stays so under every access, and no
    access to it takes the lock. *)
Lemma perform_unlocked self a vs h :
  scopes h !! self = Some vs ->
  locked_p vs = false ->
  exists evs vs',
    log (perform self a h) = log h ++ evs /\
    Forall (fun e => lock_event e = false) evs /\
    scopes (perform self a h) !! self = Some vs' /\
    flags_ vs' = flags_ vs.
Proof.
  intros Hs Hl.
  destruct vs as [par hl loc n iso fl lk fib].
  destruct a as [pos|pos val|]; unfold_access; rewrite Hs, Hl;
    destruct iso; try destruct hl as [t|]; heap_simpl;
    try destruct (put t pos val) as [t1|];
    try destruct fib as [fa|]; heap_simpl;
    try destruct (fibers h !! fa) as [[dis|]|]; heap_simpl;
    try destruct (displace dis loc) as [ary|];
    unfold_setters; heap_simpl;
    eexists _, _;
    (split; [log_eq|]); (split; [by repeat constructor|]);
    rewrite ?lookup_insert_eq; eauto.
Qed.

Lemma accesses_unlocked self l : forall vs h,
  scopes h !! self = Some vs ->
  locked_p vs = false ->
  exists evs,
    log (accesses self l h) = log h ++ evs /\
    Forall (fun e => lock_event e = false) evs.
Proof.
  induction l as [|a l IH]; intros vs h Hs Hl; cbn [VariableScope.accesses].
  - exists []. by rewrite app_nil_r.
  - destruct (perform_unlocked self a vs h Hs Hl)
      as (evs & vs' & Hlog & Hev & Hs' & Hfl).
    assert (locked_p vs' = false) as Hl'
      by (unfold VariableScope.locked_p in *; by rewrite Hfl).
    destruct (IH vs' _ Hs' Hl') as (evs' & Hlog' & Hev').
    exists (evs ++ evs'). rewrite Hlog', Hlog.
    split; [by rewrite app_assoc|]. by apply Forall_app.
Qed.

(** A locked scope whose lock is free stays so under reads and writes,
    and each of them runs between taking and releasing the lock. *)
Lemma perform_locked self a vs h :
  is_flush a = false ->
  scopes h !! self = Some vs ->
  locked_p vs = true ->
  lock_ vs = false ->
  exists inner vs',
    log (perform self a h) = log h ++ EvLock self :: inner ++ [EvUnlock self] /\
    Forall (fun e => lock_event e = false) inner /\
    scopes (perform self a h) !! self = Some vs' /\
    flags_ vs' = flags_ vs /\ lock_ vs' = false.
Proof.
  intros Ha Hs Hl Hf. destruct a as [pos|pos val|]; [| |done];
    cbn [VariableScope.perform].
  - destruct (get_local_bracketed self vs pos h Hs Hl Hf)
      as (r & h0 & h' & evs & _ & _ & -> & Hlog & Hev & Hsc & _).
    exists evs, vs. cbn [snd]. rewrite Hsc. by repeat split.
  - destruct (set_local_bracketed self vs pos val h Hs Hl Hf)
      as (r & h0 & h' & evs & vs' & _ & _ & -> & Hlog & Hev & _ & _
          & Hs' & Hfl & Hlk & _).
    exists evs, vs'. cbn [snd]. by repeat split.
Qed.

Lemma accesses_locked self l : forall vs h,
  Forall (fun a => is_flush a = false) l ->
  scopes h !! self = Some vs ->
  locked_p vs = true ->
  lock_ vs = false ->
  exists tr vs',
    log (accesses self l h) = log h ++ tr /\
    locked_trace self (length l) tr /\
    scopes (accesses self l h) !! self = Some vs' /\
    locked_p vs' = true /\ lock_ vs' = false.
Proof.
  induction l as [|a l IH]; intros vs h Hnf Hs Hl Hf;
    cbn [VariableScope.accesses length].
  - exists [], vs. split; [by rewrite app_nil_r|]. split; [constructor|done].
  - inversion Hnf as [|? ? Ha Hnf']; subst.
    destruct (perform_locked self a vs h Ha Hs Hl Hf)
      as (inner & vs' & Hlog & Hev & Hs' & Hfl & Hlk).
    assert (locked_p vs' = true) as Hl'
      by (unfold VariableScope.locked_p in *; by rewrite Hfl).
    destruct (IH vs' _ Hnf' Hs' Hl' Hlk)
      as (tr & vs'' & Hlog' & Htr & Hfin).
    exists (EvLock self :: inner ++ EvUnlock self :: tr), vs''.
    rewrite Hlog', Hlog. split; [|split; [|exact Hfin]].
    + rewrite <- !app_assoc. cbn. by rewrite <- !app_assoc.
    + by constructor.
Qed.

(** *** The claims *)


(** C6 (amended).  When the parent links from a scope reach nil,
    visiting the scopes [l], [set_locked] returns (given fuel for the
    length of the chain) and sets the locked flag of the scope and of
    every ancestor, changing nothing else: a scope of the chain is what
    it was with [flags_ | cScopeLocked] for its flags, and every other
    scope is left as it was.  On a locked scope
    whose lock is free every [get_local] and [set_local], in any sequence
    of reads and writes with no [flush_to_heap] among them, takes the
    lock before its first event and releases it after its last, and
    leaves the scope locked; while the lock is held such an access does
    not proceed. *)
Theorem C6_set_locked_chain (m : gmap positive VariableScope) self l fuel :
  cScopeLocked <> 0 ->
  chain m self l ->
  (length l <= fuel)%nat ->
  (exists m',
     set_locked fuel self m = Some m' /\
     (forall a, a ∈ l -> exists vs', m' !! a = Some vs' /\ locked_p vs' = true) /\
     (forall a, a ∉ l -> m' !! a = m !! a) /\
     (forall a vs, a ∈ l -> m !! a = Some vs ->
        m' !! a = Some (set_flags (Z.lor (flags_ vs) cScopeLocked) vs))) /\
  (forall a h vs accs,
     scopes h !! a = Some vs -> locked_p vs = true -> lock_ vs = false ->
     Forall (fun x => is_flush x = false) accs ->
     exists tr vs',
       log (accesses a accs h) = log h ++ tr /\
       locked_trace a (length accs) tr /\
       scopes (accesses a accs h) !! a = Some vs' /\
       locked_p vs' = true /\ lock_ vs' = false) /\
  (forall a h vs pos val,
     scopes h !! a = Some vs -> locked_p vs = true -> lock_ vs = true ->
     get_local a pos h = (Blocked, h) /\ set_local a pos val h = (Blocked, h)).
Proof.
  intros Hm Hc Hlen. split; [|split].
  - destruct (set_locked_locks fuel self m l Hc Hlen) as (m' & Hm' & Hl).
    exists m'. split; [done|]. split; [|split].
    + intros a Ha. rewrite (Hl a), decide_True by done.
      assert (is_Some (m !! a)) as [vs Hvs].
      { clear -Hc Ha. induction Hc as [b vs Hb Hp | b vs p l Hb Hp Hc IH].
        - apply list_elem_of_singleton in Ha as ->. eauto.
        - apply elem_of_cons in Ha as [->|Ha]; eauto. }
      rewrite Hvs. cbn. eexists. split; [done|]. by apply lock_flag_locked.
    + intros a Ha. by rewrite (Hl a), decide_False.
    + intros a vs Ha Hvs. by rewrite (Hl a), decide_True, Hvs.
  - intros a h vs accs Hs Hl Hf Hnf. by eapply accesses_locked.
  - intros a h vs pos val Hs Hl Hh. by eapply locked_access_blocked.
Qed.

(** C10.  On a scope that is locked, not yet isolated and whose lock is
    free, [flush_to_heap] promotes the locals under the lock and then
    clears the locked flag: afterwards the scope is isolated and no
    longer locked, and in every later sequence of reads, writes and
    flushes no access takes the lock. *)
Theorem C10_flush_clears_locked self vs h :
  scopes h !! self = Some vs ->
  locked_p vs = true ->
  isolated_ vs = false ->
  lock_ vs = false ->
  exists h1 vs1,
    flush_to_heap self h = (Ok tt, h1) /\
    log h1 = log h ++ [EvLock self; EvUnlock self] /\
    scopes h1 !! self = Some vs1 /\
    isolated_ vs1 = true /\
    heap_locals_ vs1 =
      Some (copy_locals (Z.to_nat (number_of_locals_ vs)) (locals_ vs) (stack h)) /\
    locked_p vs1 = false /\
    flags_ vs1 = Z.land (flags_ vs) (Z.lnot cScopeLocked) /\
    (forall accs, exists evs,
       log (accesses self accs h1) = log h1 ++ evs /\
       Forall (fun e => lock_event e = false) evs).
Proof.
  intros Hs Hl Hi Hf.
  pose proof (flush_to_heap_eq self vs h Hs Hf) as Hflush.
  rewrite Hl in Hflush.
  eexists _, (flushed h vs). split; [exact Hflush|]. cbn.
  rewrite lookup_insert_eq. split; [done|]. split; [done|].
  split; [apply flushed_isolated|].
  split; [by rewrite flushed_heap_locals, Hi|].
  split; [apply flushed_unlocked|].
  split.
  - unfold flushed, promote. by rewrite Hl, Hi.
  - intros accs. eapply accesses_unlocked.
    + cbn. by rewrite lookup_insert_eq.
    + apply flushed_unlocked.
Qed.

End WithConstants.

(** C6 (as stated, refuted).  [set_locked] on [leaf] locks the three
    scopes; a [flush_to_heap] on [leaf] then takes and releases the lock
    and clears the flag, and the [get_local] that follows reads the tuple
    without taking the lock: its only event is the heap read. *)
Lemma C6_get_local_after_flush_takes_no_lock :
  set_locked example_cScopeLocked 3 1 example_scopes
    = Some (scopes locked_heap) /\
  locked_p example_cScopeLocked leaf = true /\
  fst (flush_to_heap example_cScopeLocked 1 locked_heap) = Ok tt /\
  log (snd (flush_to_heap example_cScopeLocked 1 locked_heap))
    = [EvLock 1%positive; EvUnlock 1%positive] /\
  fst (get_local example_cScopeLocked example_displace 1 0
         (snd (flush_to_heap example_cScopeLocked 1 locked_heap)))
    = Ok (Fixnum 7) /\
  log (snd (get_local example_cScopeLocked example_displace 1 0
              (snd (flush_to_heap example_cScopeLocked 1 locked_heap))))
    = [EvLock 1%positive; EvUnlock 1%positive; EvHeapAt 1%positive 0].
Proof. repeat split; vm_compute; reflexivity. Qed.

Lemma example_chain : chain example_scopes 1 [1; 2; 3]%positive.
Proof.
  apply (chain_up _ 1%positive leaf 2%positive); [reflexivity..|].
  apply (chain_up _ 2%positive middle 3%positive); [reflexivity..|].
  apply (chain_top _ 3%positive top); reflexivity.
Defined.


Lemma C6_set_locked_chain_witness :
  (exists m',
     set_locked example_cScopeLocked 3 1 example_scopes = Some m' /\
     forall a, a ∈ [1; 2; 3]%positive ->
       exists vs', m' !! a = Some vs' /\
                   locked_p example_cScopeLocked vs' = true) /\
  (exists tr,
     log (accesses example_cScopeLocked example_displace 1
            [Get 0; Put 1 cNil] example_heap) = log example_heap ++ tr /\
     locked_trace 1 2 tr).
Proof.
  destruct (C6_set_locked_chain example_cScopeLocked example_displace
              example_scopes 1 [1; 2; 3]%positive 3
              ltac:(discriminate) example_chain ltac:(cbn; lia))
    as ((m' & Hm' & Hl & _) & Haccess & _).
  split.
  - exists m'. split; assumption.
  - destruct (Haccess 1%positive example_heap leaf [Get 0; Put 1 cNil])
      as (tr & _ & Hlog & Htr & _);
      [reflexivity | reflexivity | reflexivity | repeat constructor |].
    exists tr. split; assumption.
Defined.

Lemma C10_flush_clears_locked_witness :
  exists h1 vs1,
    flush_to_heap example_cScopeLocked 1 example_heap = (Ok tt, h1) /\
    scopes h1 !! 1%positive = Some vs1 /\
    isolated_ vs1 = true /\
    heap_locals_ vs1 = Some [Fixnum 7; cTrue] /\
    locked_p example_cScopeLocked vs1 = false.
Proof.
  destruct (C10_flush_clears_locked example_cScopeLocked example_displace
              1 leaf example_heap eq_refl eq_refl eq_refl eq_refl)
    as (h1 & vs1 & H1 & _ & H3 & H4 & H5 & H6 & _).
  exists h1, vs1. repeat split; assumption.
Defined.

End VariableScopeFacts.

(** ** Thread: join *)

Module ThreadFacts.
Import Thread.












End ThreadFacts.

(** ** ImmixMarker: the mark-in-progress flag *)

Module ImmixMarkerFacts.
Import ImmixMarker.

Section WithEnvironment.

Variable env : Call -> World -> World.
Variable process_mark_stack : bool -> World -> bool * World.
Variable InternalThread_after_fork_child : bool -> bool.

#[local] Abbreviation call := (ImmixMarker.call env).
#[local] Abbreviation mark_loop := (ImmixMarker.mark_loop env process_mark_stack).
#[local] Abbreviation run_loop := (ImmixMarker.run_loop env process_mark_stack).
#[local] Abbreviation run := (ImmixMarker.run env process_mark_stack).
#[local] Abbreviation after_fork_child :=
  (ImmixMarker.after_fork_child InternalThread_after_fork_child).
#[local] Abbreviation stop_by := (ImmixMarker.stop_by env process_mark_stack).

Lemma clear_clears w :
  mature_mark_in_progress_ (memory (clear_mature_mark_in_progress w)) = false.
Proof. reflexivity. Qed.

(** *** Leaving the loop *)

Lemma call_settled k0 c w : stop_by k0 -> settled k0 (call c w).
Proof. intros [He _] Hk. cbn in *. by apply He. Qed.

Lemma call_clock c w : clock (call c w) = S (clock w).
Proof. reflexivity. Qed.

Lemma mark_loop_exits k0 :
  stop_by k0 ->
  forall fuel w,
    (1 <= fuel)%nat -> (k0 <= fuel + clock w)%nat ->
    exists w',
      mark_loop fuel w = Some w' /\
      (clock w < clock w')%nat /\ settled k0 w'.
Proof.
  intros Hstop. induction fuel as [|k IH]; intros w Hfuel Hk; [lia|].
  cbn [ImmixMarker.mark_loop].
  destruct (process_mark_stack (interrupt_p w) w) as [more after] eqn:Hp.
  set (w1 := tick w after).
  assert (settled k0 w1) as Hs1.
  { intros Hc. cbn in *. destruct Hstop as [_ Hpms].
    specialize (Hpms (interrupt_p w) w Hc). by rewrite Hp in Hpms. }
  destruct more; [|exists w1; cbn; repeat split; [lia | done]].
  destruct (thread_exit_ w1) eqn:Hexit; cbn [orb].
  { exists w1. cbn. repeat split; [lia | done]. }
  destruct (collect_full_p w1); [exists w1; cbn; repeat split; [lia | done]|].
  assert (clock w1 < k0)%nat as Hlt.
  { destruct (decide (k0 <= clock w1)%nat) as [Hge|]; [|lia].
    specialize (Hs1 Hge). congruence. }
  cbn in Hlt.
  match goal with
  | |- context [ImmixMarker.mark_loop _ _ k (ImmixMarker.call _ Blocking ?x)] =>
      set (w2 := x)
  end.
  assert (clock w2 >= clock w1)%nat as Hc2.
  { subst w2. destruct (collect_young_p w1); [cbn; lia|].
    destruct (interrupt_p w1); cbn; lia. }
  cbn in Hc2.
  destruct (IH (call Blocking w2)) as (w' & Hw' & Hclk & Hs');
    [lia | rewrite call_clock; lia |].
  exists w'. split; [done|]. split; [|done].
  rewrite call_clock in Hclk. lia.
Qed.

Lemma run_loop_exits k0 :
  stop_by k0 ->
  forall fuel w,
    settled k0 w ->
    (1 <= fuel)%nat -> (k0 + 2 <= fuel + clock w)%nat ->
    exists w', run_loop fuel w = Some w'.
Proof.
  intros Hstop. induction fuel as [|k IH]; intros w Hs Hfuel Hk; [lia|].
  cbn [ImmixMarker.run_loop].
  destruct (thread_exit_ w) eqn:Hexit; [by eexists|].
  assert (clock w < k0)%nat as Hlt.
  { destruct (decide (k0 <= clock w)%nat) as [Hge|]; [|lia].
    specialize (Hs Hge). congruence. }
  destruct (mark_loop_exits k0 Hstop k (call Blocking w))
    as (w1 & -> & Hclk & Hs1); [lia | rewrite call_clock; lia |].
  rewrite call_clock in Hclk.
  destruct (thread_exit_ w1); [by eexists|].
  destruct (collect_full_p w1).
  - apply IH; [by apply call_settled | lia | rewrite !call_clock; lia].
  - apply IH; [by apply call_settled | lia | rewrite !call_clock; lia].
Qed.

(** C8.  Whenever [run] returns, whatever the calls it made did to the
    world, the mark-in-progress flag is clear in the world it returns;
    and it does return once the stop request has reached it: if every
    call from the [k0]-th on returns with [thread_exit_] set, [run]
    returns for any fuel above [k0].  [after_fork_child] leaves the flag
    clear as well, and the marker without its [GCData]. *)
Theorem C8_mark_in_progress_cleared :
  (forall fuel w w',
     run fuel w = Some w' ->
     mature_mark_in_progress_ (memory w') = false) /\
  (forall k0 fuel w,
     stop_by k0 -> (k0 + 1 <= fuel)%nat ->
     exists w',
       run fuel w = Some w' /\
       mature_mark_in_progress_ (memory w') = false) /\
  (forall w,
     mature_mark_in_progress_ (memory (after_fork_child w)) = false /\
     data_ (after_fork_child w) = None).
Proof.
  split; [|split].
  - intros fuel w w' Hrun. unfold ImmixMarker.run in Hrun.
    destruct (run_loop fuel (call BecomeManaged w)) as [w1|]; [|done].
    inversion Hrun. apply clear_clears.
  - intros k0 fuel w Hstop Hfuel. unfold ImmixMarker.run.
    destruct (run_loop_exits k0 Hstop fuel (call BecomeManaged w))
      as (w1 & ->); [by apply call_settled | lia | rewrite call_clock; lia |].
    eexists. split; [done|]. apply clear_clears.
  - intros w. split; reflexivity.
Qed.

End WithEnvironment.

Lemma C8_mark_in_progress_cleared_witness :
  exists w',
    ImmixMarker.run stopping_env idle_mark_stack 1 marking_world = Some w' /\
    mature_mark_in_progress_ (memory w') = false.
Proof.
  destruct (C8_mark_in_progress_cleared stopping_env idle_mark_stack id)
    as (_ & Hexit & _).
  apply (Hexit 0%nat 1%nat marking_world).
  - split; intros; reflexivity.
  - lia.
Defined.

End ImmixMarkerFacts.

(** ** Channels: accounting of entries, and the blocking receive *)

Module ChannelAccounting.

Import Channel ChannelWait.

Lemma pending_send (self : Channel) (val : Object) :
  0 <= semaphore_count_ self < INT_MAX ->
  pending (snd (send self val)) = pending self ++ [val] /\
  0 <= semaphore_count_ (snd (send self val)) <= semaphore_count_ self + 1.
Proof. apply ChannelFacts.send_pending. Qed.

Lemma try_receive_empty (self : Channel) :
  0 <= semaphore_count_ self -> pending self = [] ->
  try_receive self = (cNil, self).
Proof.
  intros Hs Hp. unfold pending in Hp.
  apply app_eq_nil in Hp as [Hv Hr].
  unfold try_receive.
  destruct (0 <? semaphore_count_ self) eqn:E.
  - apply Z.ltb_lt in E.
    destruct (Z.to_nat (semaphore_count_ self)) eqn:En; [lia | discriminate].
  - rewrite Hv. reflexivity.
Qed.

Lemma try_receive_takes (self : Channel) :
  0 <= semaphore_count_ self -> pending self <> [] ->
  fst (try_receive self) :: pending (snd (try_receive self)) ≡ₚ pending self /\
  0 <= semaphore_count_ (snd (try_receive self)) <= semaphore_count_ self.
Proof.
  intros Hs Hp. unfold try_receive, pending in *.
  destruct (0 <? semaphore_count_ self) eqn:E.
  - apply Z.ltb_lt in E. cbn.
    replace (Z.to_nat (semaphore_count_ self))
      with (S (Z.to_nat (semaphore_count_ self - 1))) by lia.
    cbn [repeat]. split; [|lia].
    apply Permutation_middle.
  - apply Z.ltb_ge in E.
    replace (semaphore_count_ self) with 0 in * by lia.
    cbn [Z.to_nat repeat] in *. rewrite app_nil_r in Hp.
    destruct (value_ self) as [|o rest]; [done|].
    cbn. rewrite !app_nil_r. split; [reflexivity | lia].
Qed.

(** As long as the sends cannot take the permit counter past [INT_MAX],
    a run keeps every entry and the counter counts permits. *)
Lemma run_keeps_every_entry (ops : list op) (self : Channel) :
  0 <= semaphore_count_ self ->
  semaphore_count_ self + Z.of_nat (length (sent ops)) <= INT_MAX ->
  pending self ++ sent ops ⊆+
    received ops self ++ pending (snd (run ops self)) /\
  0 <= semaphore_count_ (snd (run ops self))
    <= semaphore_count_ self + Z.of_nat (length (sent ops)).
Proof.
  revert self. induction ops as [|[v|] ops IH]; intros self Hs Hb.
  - cbn. rewrite app_nil_r. split; [reflexivity | lia].
  - unfold received. cbn [run sent length] in Hb |- *.
    destruct (pending_send self v) as (Hp & Hs'); [lia|].
    destruct (IH (snd (send self v))) as [IH1 IH2]; [lia | lia |].
    rewrite Hp, <- app_assoc in IH1. split; [exact IH1 | lia].
  - unfold received. cbn [run sent] in Hb |- *.
    destruct (decide (pending self = [])) as [He|Hne].
    + rewrite (try_receive_empty self Hs He).
      destruct (IH self Hs Hb) as [IH1 IH2]. unfold received in IH1.
      destruct (run ops self) as [os s'] eqn:Er. cbn [fst snd] in *.
      split; [|exact IH2]. apply submseteq_cons. exact IH1.
    + destruct (try_receive_takes self Hs Hne) as (Hp & Hs').
      destruct (try_receive self) as [o s1] eqn:Et. cbn [fst snd] in *.
      destruct (IH s1) as [IH1 IH2]; [lia | lia |]. unfold received in IH1.
      destruct (run ops s1) as [os s'] eqn:Er. cbn [fst snd] in *.
      split; [|lia]. rewrite <- Hp. cbn. apply submseteq_skip. exact IH1.
Qed.

Lemma send_quiet (self : Channel) (val : Object) :
  waiters_ self = 0 ->
  waiters_ (snd (send self val)) = 0 /\
  condition_ (snd (send self val)) = condition_ self.
Proof.
  intros Hw. unfold send. destruct (nil_p val); cbn;
    destruct (0 <? semaphore_count_ self); cbn; rewrite Hw; cbn; done.
Qed.

Lemma try_receive_quiet (self : Channel) :
  waiters_ (snd (try_receive self)) = waiters_ self /\
  condition_ (snd (try_receive self)) = condition_ self.
Proof.
  unfold try_receive. destruct (0 <? semaphore_count_ self); cbn; [done|].
  destruct (value_ self); cbn; done.
Qed.

Lemma run_quiet (ops : list op) (self : Channel) :
  waiters_ self = 0 ->
  waiters_ (snd (run ops self)) = 0 /\
  condition_ (snd (run ops self)) = condition_ self.
Proof.
  revert self. induction ops as [|[v|] ops IH]; intros self Hw.
  - done.
  - cbn [run]. destruct (send_quiet self v Hw) as [Hw' Hc'].
    destruct (IH _ Hw') as [H1 H2]. split; [exact H1 | congruence].
  - cbn [run]. destruct (try_receive_quiet self) as [Hw' Hc'].
    destruct (try_receive self) as [o s1] eqn:Et. cbn [fst snd] in *.
    destruct (IH s1) as [H1 H2]; [congruence|].
    destruct (run ops s1) as [os s'] eqn:Er. cbn [fst snd] in *.
    split; [exact H1 | congruence].
Qed.

Lemma run_int_range (ops : list op) (self : Channel) :
  INT_MIN <= semaphore_count_ self <= INT_MAX ->
  INT_MIN <= semaphore_count_ (snd (run ops self)) <= INT_MAX.
Proof.
  revert self. induction ops as [|[v|] ops IH]; intros self Hs.
  - exact Hs.
  - cbn [run]. apply IH.
    destruct (decide (v = cNil)) as [->|Hv].
    + destruct (ChannelFacts.send_permit self) as [_ ->]. apply wrap_int_range.
    + destruct (ChannelFacts.send_payload self v Hv) as [_ ->].
      destruct (0 <? semaphore_count_ self); [|exact Hs].
      unfold INT_MIN, INT_MAX. lia.
  - cbn [run].
    assert (INT_MIN <= semaphore_count_ (snd (try_receive self)) <= INT_MAX)
      as Hs'.
    { unfold try_receive. destruct (0 <? semaphore_count_ self) eqn:E; cbn.
      - apply Z.ltb_lt in E. unfold INT_MIN, INT_MAX in *. lia.
      - destruct (value_ self); cbn; exact Hs. }
    destruct (try_receive self) as [o s1] eqn:Et. cbn [fst snd] in *.
    specialize (IH s1 Hs').
    destruct (run ops s1) as [os s'] eqn:Er. cbn [fst snd] in *. exact IH.
Qed.

(** [n] permits in a row, with nobody waiting. *)
Lemma sends_permits (n : nat) (self : Channel) :
  INT_MIN <= semaphore_count_ self <= INT_MAX ->
  value_ (sends (repeat cNil n) self) = value_ self /\
  semaphore_count_ (sends (repeat cNil n) self)
    = wrap_int (semaphore_count_ self + Z.of_nat n).
Proof.
  revert self. induction n as [|n IH]; intros self Hs.
  - cbn [repeat sends Z.of_nat]. rewrite Z.add_0_r.
    split; [done|]. symmetry. by apply wrap_int_small.
  - cbn [repeat sends].
    destruct (ChannelFacts.send_permit self) as [Hv Hc].
    destruct (IH (snd (send self cNil))) as [-> ->].
    { rewrite Hc. apply wrap_int_range. }
    split; [exact Hv|]. rewrite Hc, wrap_int_add. f_equal. lia.
Qed.

(** Nothing that is sent is lost while the permit counter can hold what
    it counts: over any sequence of sends and receives on a fresh channel
    with at most [INT_MAX] sends, every entry sent (a nil counts as one
    entry) has either been handed to a receiver or is still pending, with
    its multiplicity. *)
Theorem sent_entries_received_or_pending (ops : list op) :
  Z.of_nat (length (sent ops)) <= INT_MAX ->
  sent ops ⊆+ received ops create ++ pending (snd (run ops create)).
Proof.
  intros Hb. apply (run_keeps_every_entry ops create); cbn; lia.
Qed.

Lemma sent_entries_received_or_pending_witness :
  [Fixnum 5; cNil; cNil] ⊆+
    received [Send (Fixnum 5); Send cNil; TryReceive; Send cNil] create ++
    pending (snd (run [Send (Fixnum 5); Send cNil; TryReceive; Send cNil] create)).
Proof.
  apply (sent_entries_received_or_pending
           [Send (Fixnum 5); Send cNil; TryReceive; Send cNil]).
  vm_compute. discriminate.
Defined.

(** The counters of a fresh channel under any sequence of sends and
    receives.  The count of waiting receivers stays zero and the
    condition variable is never signalled: with nobody waiting, [send]
    never signals.  The permit counter stays an [int]; with at most
    [INT_MAX] sends it is never negative and never more than the number
    of sends.  The increment of [send] has no bound of its own: the
    permit after [INT_MAX] outstanding ones takes the counter to
    [INT_MIN], and the receive that follows finds neither a permit nor a
    value. *)
Theorem fresh_channel_counters :
  (forall ops,
     waiters_ (snd (run ops create)) = 0 /\
     condition_ (snd (run ops create)) = 0%nat /\
     INT_MIN <= semaphore_count_ (snd (run ops create)) <= INT_MAX /\
     (Z.of_nat (length (sent ops)) <= INT_MAX ->
      0 <= semaphore_count_ (snd (run ops create))
        <= Z.of_nat (length (sent ops)))) /\
  (let full := sends (repeat cNil (Z.to_nat INT_MAX)) create in
   semaphore_count_ full = INT_MAX /\
   semaphore_count_ (snd (send full cNil)) = INT_MIN /\
   value_ (snd (send full cNil)) = [] /\
   try_receive (snd (send full cNil)) = (cNil, snd (send full cNil))).
Proof.
  split.
  - intros ops.
    destruct (run_quiet ops create eq_refl) as [Hw Hc].
    split; [exact Hw|]. split; [exact Hc|]. split.
    + apply run_int_range. cbn. unfold INT_MIN, INT_MAX. lia.
    + intros Hb.
      destruct (run_keeps_every_entry ops create) as [_ H]; cbn; [lia | lia |].
      cbn in H. lia.
  - intros full.
    destruct (sends_permits (Z.to_nat INT_MAX) create) as [Hv Hs].
    { cbn. unfold INT_MIN, INT_MAX. lia. }
    fold full in Hv, Hs.
    assert (semaphore_count_ full = INT_MAX) as Hfull.
    { rewrite Hs. rewrite Z2Nat.id by (unfold INT_MAX; lia).
      cbn [semaphore_count_ create]. reflexivity. }
    destruct (ChannelFacts.send_permit full) as [Hv1 Hs1].
    rewrite Hfull in Hs1. rewrite Hv in Hv1. cbn [value_ create] in Hv1.
    split; [exact Hfull|]. split; [exact Hs1|]. split; [exact Hv1|].
    unfold try_receive. rewrite Hs1, Hv1. reflexivity.
Qed.

Lemma fresh_channel_counters_witness :
  0 <= semaphore_count_ (snd (run [Send cNil; Send cNil; TryReceive] create)) <= 2.
Proof.
  destruct fresh_channel_counters as [H _].
  destruct (H [Send cNil; Send cNil; TryReceive]) as (_ & _ & _ & Hb).
  apply Hb. vm_compute. discriminate.
Defined.

(** With a permit or a queued object available, [receive_timeout] does
    what [try_receive] does, at once: it never waits, pins nothing and
    does not look at its argument, so that even a duration of a wrong
    type is accepted. *)
Theorem receive_timeout_available
    (duration : Object) (pin async0 : bool) (wakes : list Wake)
    (async_end : bool) (w : World) :
  available (channel w) = true ->
  receive_timeout duration pin async0 wakes async_end w =
    Some (Value (fst (try_receive (channel w))),
          set_channel w (snd (try_receive (channel w)))).
Proof.
  unfold available, receive_timeout, try_receive. intros Ha.
  destruct (0 <? semaphore_count_ (channel w)); [reflexivity|].
  cbn in Ha. destruct (value_ (channel w)) as [|o rest]; [discriminate|].
  reflexivity.
Qed.

Lemma receive_timeout_available_witness :
  receive_timeout cTrue false false [] false
    {| channel := snd (send create (Fixnum 5)); pinned := false;
       waiter := false; thread_sleep := cNil |} =
  Some (Value (Fixnum 5),
        {| channel := create; pinned := false; waiter := false;
           thread_sleep := cNil |}).
Proof.
  apply (receive_timeout_available cTrue false false [] false
           {| channel := snd (send create (Fixnum 5)); pinned := false;
              waiter := false; thread_sleep := cNil |}).
  reflexivity.
Defined.

Lemma wait_loop_spurious (timed : bool) (ws rest : list Wake) (c : Channel) :
  Forall spurious ws -> available c = false ->
  wait_loop timed (ws ++ rest) c = wait_loop timed rest c.
Proof.
  induction 1 as [|w ws (Hd & Ha & Hc) _ IH]; intros Hav; [reflexivity|].
  cbn [app wait_loop]. rewrite Hd, Hc, Hav, Ha, andb_false_r. cbn.
  apply IH. exact Hav.
Qed.

(** A receiver blocked on an empty channel is handed what the next
    [send] brings: after any number of spurious wake-ups, the wake-up
    caused by [send val] makes [receive_timeout] return [val] (nil for a
    permit); the channel is empty again, its count of waiters is what it
    was, and the sender has signalled the condition variable once. *)
Theorem receive_timeout_handoff
    (duration : Object) (timed : bool) (spur : list Wake) (wk : Wake)
    (later : list Wake) (val : Object) (w : World) :
  use_timed_wait duration = Some timed ->
  value_ (channel w) = [] -> semaphore_count_ (channel w) = 0 ->
  0 <= waiters_ (channel w) ->
  Forall spurious spur -> sent_by val wk ->
  receive_timeout duration true true (spur ++ wk :: later) true w =
    Some (Value val,
          {| channel :=
               {| value_ := []; semaphore_count_ := 0;
                  waiters_ := waiters_ (channel w);
                  condition_ := S (condition_ (channel w)) |};
             pinned := false; waiter := false; thread_sleep := cFalse |}).
Proof.
  intros Hd Hv Hs Hw Hsp [Hsend Hcode].
  unfold receive_timeout. rewrite Hs, Hv, Hd. cbn [Z.ltb Z.compare empty_p negb].
  rewrite wait_loop_spurious by (try assumption; reflexivity).
  cbn [wait_loop]. rewrite Hcode, andb_false_r, Hsend.
  unfold send, available. cbn.
  assert ((0 <? waiters_ (channel w) + 1) = true) as E by (apply Z.ltb_lt; lia).
  destruct val; cbn; rewrite ?Z.add_0_l, E;
    try change (wrap_int 1) with 1; cbn; repeat f_equal; lia.
Qed.

Lemma receive_timeout_handoff_witness :
  receive_timeout cNil true true
    [ {| code := Thread.cReady; during := fun c => c; async := true |};
      {| code := Thread.cReady; during := fun c => snd (send c (Fixnum 7));
         async := true |} ] true
    {| channel := create; pinned := false; waiter := false;
       thread_sleep := cNil |} =
  Some (Value (Fixnum 7),
        {| channel := {| value_ := []; semaphore_count_ := 0; waiters_ := 0;
                         condition_ := 1 |};
           pinned := false; waiter := false; thread_sleep := cFalse |}).
Proof.
  apply (receive_timeout_handoff cNil false
           [ {| code := Thread.cReady; during := fun c => c; async := true |} ]
           {| code := Thread.cReady; during := fun c => snd (send c (Fixnum 7));
              async := true |}
           [] (Fixnum 7)
           {| channel := create; pinned := false; waiter := false;
              thread_sleep := cNil |}).
  - reflexivity.
  - reflexivity.
  - reflexivity.
  - cbn. lia.
  - repeat constructor.
  - split; reflexivity.
Defined.

(** A timed receive on a channel that stays empty returns false when the
    deadline expires, however many spurious wake-ups came before, and
    gives the channel back as it took it; an untimed receive in the same
    situation is still blocked. *)
Theorem receive_timeout_expires
    (duration : Object) (spur : list Wake) (wk : Wake) (later : list Wake)
    (w : World) :
  use_timed_wait duration = Some true ->
  value_ (channel w) = [] -> semaphore_count_ (channel w) = 0 ->
  Forall spurious spur -> timed_out wk ->
  receive_timeout duration true true (spur ++ wk :: later) true w =
    Some (Value cFalse,
          {| channel := channel w; pinned := false; waiter := false;
             thread_sleep := cFalse |}) /\
  receive true true spur true w = None.
Proof.
  intros Hd Hv Hs Hsp [Hsame Hcode].
  unfold receive, receive_timeout.
  rewrite Hs, Hv, Hd. cbn [Z.ltb Z.compare empty_p negb use_timed_wait].
  split.
  - rewrite wait_loop_spurious by (try assumption; reflexivity).
    cbn [wait_loop]. rewrite Hcode, Hsame. cbn.
    repeat f_equal. destruct (channel w); cbn in *. subst. f_equal. lia.
  - rewrite <- (app_nil_r spur).
    rewrite wait_loop_spurious by (try assumption; reflexivity).
    reflexivity.
Qed.

Lemma receive_timeout_expires_witness :
  receive_timeout (Fixnum 2) true true
    [ {| code := Thread.cReady; during := fun c => c; async := true |};
      {| code := Thread.cTimedOut; during := fun c => c; async := true |} ]
    true
    {| channel := create; pinned := false; waiter := false;
       thread_sleep := cNil |} =
    Some (Value cFalse,
          {| channel := create; pinned := false; waiter := false;
             thread_sleep := cFalse |}) /\
  receive true true
    [ {| code := Thread.cReady; during := fun c => c; async := true |} ] true
    {| channel := create; pinned := false; waiter := false;
       thread_sleep := cNil |} = None.
Proof.
  apply (receive_timeout_expires (Fixnum 2)
           [ {| code := Thread.cReady; during := fun c => c; async := true |} ]
           {| code := Thread.cTimedOut; during := fun c => c; async := true |}
           []
           {| channel := create; pinned := false; waiter := false;
              thread_sleep := cNil |}).
  - reflexivity.
  - reflexivity.
  - reflexivity.
  - repeat constructor.
  - split; reflexivity.
Defined.

End ChannelAccounting.

(** ** The pool of fiber stacks: its size, recycling, and collections *)

Module FiberStacksPoolFacts.

Import FiberStacks FiberStacksPool.

Lemma first_fit_ext (stack_size : N) (l l' : list FiberStack) :
  Forall2 (fun s t => fits stack_size s = fits stack_size t) l l' ->
  forall i, first_fit l stack_size i = first_fit l' stack_size i.
Proof.
  induction 1 as [|s t l l' Hst _ IH]; intros i; [reflexivity|].
  cbn [first_fit]. fold (fits stack_size s) (fits stack_size t).
  rewrite Hst. destruct (fits stack_size t); [reflexivity | apply IH].
Qed.

Lemma first_fit_app (stack_size : N) (l : list FiberStack) (s : FiberStack) :
  forall i, first_fit l stack_size i = None -> fits stack_size s = true ->
  first_fit (l ++ [s]) stack_size i = Some (i + length l)%nat.
Proof.
  induction l as [|t l IH]; intros i Hn Hs; cbn [app first_fit length] in *.
  - fold (fits stack_size s). rewrite Hs. f_equal. lia.
  - fold (fits stack_size t) in *. destruct (fits stack_size t); [discriminate|].
    rewrite (IH (S i) Hn Hs). f_equal. lia.
Qed.

Lemma least_refs_ext (l l' : list FiberStack) :
  Forall2 (fun s t => refs_ s = refs_ t) l l' ->
  forall i a b, same_candidate a b ->
  same_candidate (least_refs l i a) (least_refs l' i b).
Proof.
  induction 1 as [|s t l l' Hst _ IH]; intros i a b Hab; [exact Hab|].
  cbn [least_refs]. apply IH.
  destruct a as [[k x]|], b as [[k' y]|]; cbn in Hab |- *; try contradiction.
  - destruct Hab as [-> Hr]. rewrite Hst, Hr.
    destruct (refs_ t <? refs_ y); cbn; auto.
  - auto.
Qed.

Lemma Forall2_alter_same {A} (R : A -> A -> Prop) (f : A -> A) (i : nat)
    (l : list A) :
  (forall x, R x x) -> (forall x, R x (f x)) -> Forall2 R l (alter f i l).
Proof.
  intros Hrefl Hf. revert i. induction l as [|x l IH]; intros [|i]; cbn.
  - constructor.
  - constructor.
  - constructor; [apply Hf|]. clear IH. induction l; constructor; auto.
  - constructor; [apply Hrefl | apply IH].
Qed.

Lemma alter_last {A} (f : A -> A) (l : list A) (x : A) :
  alter f (length l) (l ++ [x]) = l ++ [f x].
Proof. induction l as [|y l IH]; cbn; [reflexivity | by rewrite IH]. Qed.

Lemma orphan_inc_ref (s : FiberStack) (user : positive) :
  refs_ (orphan (inc_ref s) user) = refs_ s /\
  size_ (orphan (inc_ref s) user) = size_ s.
Proof.
  unfold orphan, inc_ref, dec_ref. cbn.
  destruct (decide (user_ s = Some user)); cbn; split; (lia || reflexivity).
Qed.

Lemma fits_orphan_inc_ref (stack_size : N) (s : FiberStack) (user : positive) :
  fits stack_size s = fits stack_size (orphan (inc_ref s) user).
Proof.
  unfold fits, unused_p.
  destruct (orphan_inc_ref s user) as [-> ->]. reflexivity.
Qed.

Lemma refs_alter_back (user : positive) (i : nat) (l : list FiberStack) :
  refs_ <$> alter inc_ref i (alter (fun s => orphan (inc_ref s) user) i l) =
  refs_ <$> alter inc_ref i l.
Proof.
  revert i. induction l as [|x l IH]; intros [|i]; cbn; try reflexivity.
  - f_equal. destruct (orphan_inc_ref x user) as [Hr _].
    change (refs_ (orphan (inc_ref x) user) + 1 = refs_ x + 1).
    rewrite Hr. reflexivity.
  - f_equal. apply IH.
Qed.

(** A lease that is given back is leased again: when [allocate] has
    returned a stack and that stack is orphaned by its user, the next
    [allocate] of the same size returns the same stack, without calling
    [malloc] and without growing the pool, and the reference counts are
    again what they were after the first lease. *)
Theorem allocate_recycles (malloc malloc' : N -> option positive)
    (self self1 : FiberStacks) (stack_size : N) (i : nat) (user : positive) :
  allocate malloc self stack_size = Done (i, self1) ->
  exists self2,
    allocate malloc' (orphan_at self1 i user) stack_size = Done (i, self2) /\
    length (stacks_ self2) = length (stacks_ self1) /\
    refs_ <$> stacks_ self2 = refs_ <$> stacks_ self1.
Proof.
  intros H. unfold allocate in H.
  set (l := stacks_ self) in *.
  set (back := fun s => orphan (inc_ref s) user).
  assert (Forall2 (fun s t => fits stack_size s = fits stack_size t)
            l (alter back i l)) as Hfits.
  { apply Forall2_alter_same; [reflexivity|].
    intros x. apply fits_orphan_inc_ref. }
  assert (Forall2 (fun s t => refs_ s = refs_ t) l (alter back i l)) as Hrefs.
  { apply Forall2_alter_same; [reflexivity|].
    intros x. symmetry. apply (orphan_inc_ref x user). }
  assert (alter (fun s => orphan s user) i (alter inc_ref i l) = alter back i l)
    as Hback by apply list_alter_alter_eq.
  destruct (first_fit l stack_size 0) as [j|] eqn:Hff.
  - inversion H; subst j self1; clear H.
    unfold allocate, orphan_at. cbn [stacks_ max_stacks_]. rewrite Hback.
    rewrite <- (first_fit_ext stack_size l _ Hfits 0%nat), Hff.
    eexists. split; [reflexivity|]. cbn [stacks_].
    split; [by rewrite !length_alter|]. apply refs_alter_back.
  - destruct (N.of_nat (length l) <? max_stacks_ self)%N eqn:Hmax.
    + unfold FiberStack_allocate, new_FiberStack in H. cbn in H.
      destruct (malloc stack_size) as [a|]; [|discriminate].
      inversion H; subst i self1; clear H.
      unfold allocate, orphan_at. cbn [stacks_ max_stacks_].
      rewrite alter_last.
      rewrite (first_fit_app stack_size l _ 0 Hff).
      * cbn [Nat.add]. eexists. split; [reflexivity|]. cbn [stacks_].
        rewrite alter_last.
        split; [by rewrite !length_app|].
        rewrite !fmap_app. f_equal.
      * unfold fits, unused_p, orphan, inc_ref, dec_ref. cbn.
        apply N.leb_refl.
    + destruct (least_refs l 0 None) as [[j best]|] eqn:Hlr; [|discriminate].
      inversion H; subst j self1; clear H.
      unfold allocate, orphan_at. cbn [stacks_ max_stacks_]. rewrite Hback.
      rewrite <- (first_fit_ext stack_size l _ Hfits 0%nat), Hff.
      rewrite length_alter, Hmax.
      pose proof (least_refs_ext l _ Hrefs 0%nat None None I) as Hsame.
      rewrite Hlr in Hsame.
      destruct (least_refs (alter back i l) 0 None) as [[j best']|];
        [|contradiction].
      destruct Hsame as [<- _].
      eexists. split; [reflexivity|]. cbn [stacks_].
      split; [by rewrite !length_alter|]. apply refs_alter_back.
Qed.

Lemma allocate_recycles_witness :
  exists self2,
    allocate (fun _ => None)
      (orphan_at
         {| max_stacks_ := 2;
            stacks_ := [ {| address_ := Some 1%positive; size_ := 4096;
                            refs_ := 1; user_ := None |} ] |}
         0 5%positive) 4096 = Done (0%nat, self2) /\
    length (stacks_ self2) = 1%nat /\
    refs_ <$> stacks_ self2 = [1].
Proof.
  apply (allocate_recycles (fun _ => Some 1%positive) (fun _ => None)
           {| max_stacks_ := 2; stacks_ := [] |}
           {| max_stacks_ := 2;
              stacks_ := [ {| address_ := Some 1%positive; size_ := 4096;
                              refs_ := 1; user_ := None |} ] |}
           4096 0 5%positive).
  reflexivity.
Defined.

Lemma extends_refl (self : FiberStacks) : extends self self.
Proof. split; [reflexivity|]. intros j s H. exists s. auto. Qed.

Lemma extends_trans (a b c : FiberStacks) :
  extends a b -> extends b c -> extends a c.
Proof.
  intros [Hm1 H1] [Hm2 H2]. split; [congruence|].
  intros j s Hs. destruct (H1 j s Hs) as (s' & Hs' & Ha & Hz).
  destruct (H2 j s' Hs') as (s'' & Hs'' & Ha' & Hz').
  exists s''. split; [exact Hs''|]. split; congruence.
Qed.

Lemma extends_alter (f : FiberStack -> FiberStack) (i : nat)
    (self : FiberStacks) :
  (forall s, address_ (f s) = address_ s /\ size_ (f s) = size_ s) ->
  extends self {| max_stacks_ := max_stacks_ self;
                  stacks_ := alter f i (stacks_ self) |}.
Proof.
  intros Hf. split; [reflexivity|]. intros j s Hs. cbn [stacks_].
  rewrite list_lookup_alter. destruct (decide (i = j)) as [->|_].
  - rewrite Hs. cbn. exists (f s). split; [reflexivity | apply Hf].
  - exists s. auto.
Qed.

Lemma allocate_keeps (malloc : N -> option positive) (self self' : FiberStacks)
    (stack_size : N) (i : nat) :
  allocate malloc self stack_size = Done (i, self') ->
  extends self self' /\ (within_maximum self -> within_maximum self').
Proof.
  unfold allocate, within_maximum. intros H.
  destruct (first_fit (stacks_ self) stack_size 0) as [j|].
  - inversion H; subst. split.
    + apply extends_alter. intros s. split; reflexivity.
    + cbn. by rewrite length_alter.
  - destruct (N.of_nat (length (stacks_ self)) <? max_stacks_ self)%N eqn:E.
    + destruct (FiberStack_allocate malloc (new_FiberStack stack_size));
        [|discriminate|discriminate].
      inversion H; subst. apply N.ltb_lt in E. split.
      * split; [reflexivity|]. intros j s Hs. exists s. cbn [stacks_].
        rewrite lookup_app_l by (by eapply lookup_lt_Some). auto.
      * intros _. cbn. rewrite length_app. cbn. lia.
    + destruct (least_refs (stacks_ self) 0 None) as [[j best]|];
        [|discriminate].
      inversion H; subst. split.
      * apply extends_alter. intros s. split; reflexivity.
      * cbn. by rewrite length_alter.
Qed.

Lemma orphan_at_keeps (self : FiberStacks) (i : nat) (user : positive) :
  extends self (orphan_at self i user) /\
  (within_maximum self -> within_maximum (orphan_at self i user)).
Proof.
  split.
  - apply extends_alter. intros s. unfold orphan, dec_ref.
    destruct (decide (user_ s = Some user)); split; reflexivity.
  - unfold within_maximum, orphan_at. cbn. by rewrite length_alter.
Qed.

Lemma serve_keeps (malloc : N -> option positive) (reqs : list request) :
  forall self self', serve malloc reqs self = Done self' ->
  extends self self' /\ (within_maximum self -> within_maximum self').
Proof.
  induction reqs as [|[stack_size|i user] reqs IH]; intros self self' H;
    cbn [serve] in H.
  - inversion H; subst. split; [apply extends_refl | auto].
  - destruct (allocate malloc self stack_size) as [[i self1]| |] eqn:Ha;
      [|discriminate|discriminate].
    destruct (allocate_keeps _ _ _ _ _ Ha) as [He Hw].
    destruct (IH _ _ H) as [He' Hw'].
    split; [eapply extends_trans; eassumption | auto].
  - destruct (orphan_at_keeps self i user) as [He Hw].
    destruct (IH _ _ H) as [He' Hw'].
    split; [eapply extends_trans; eassumption | auto].
Qed.

(** The pool never holds more stacks than its configured maximum:
    whatever leases are requested and given back, in any order, a pool
    that starts empty ends with at most [max_stacks_] stacks. *)
Theorem pool_within_maximum (malloc : N -> option positive)
    (max_stacks : N) (reqs : list request) (self : FiberStacks) :
  serve malloc reqs {| max_stacks_ := max_stacks; stacks_ := [] |} = Done self ->
  (N.of_nat (length (stacks_ self)) <= max_stacks)%N.
Proof.
  intros H. destruct (serve_keeps _ _ _ _ H) as [[Hm _] Hw].
  cbn in Hm. rewrite <- Hm. apply Hw. unfold within_maximum. cbn. lia.
Qed.

Lemma pool_within_maximum_witness :
  (N.of_nat (length (stacks_
     {| max_stacks_ := 1;
        stacks_ := [ {| address_ := Some 1%positive; size_ := 4096;
                        refs_ := 2; user_ := None |} ] |})) <= 1)%N.
Proof.
  apply (pool_within_maximum (fun _ => Some 1%positive) 1
           [Lease 4096; Orphan 0 7%positive; Lease 16; Lease 8192]).
  reflexivity.
Defined.

(** A [FiberStack*] handed out by the pool stays valid: no sequence of
    leases and returns removes a stack from the pool, moves it to another
    position, or changes the address or the size of its memory. *)
Theorem pool_stacks_stable (malloc : N -> option positive)
    (reqs : list request) (self self' : FiberStacks) (j : nat)
    (s : FiberStack) :
  serve malloc reqs self = Done self' ->
  stacks_ self !! j = Some s ->
  exists s', stacks_ self' !! j = Some s' /\
    address_ s' = address_ s /\ size_ s' = size_ s.
Proof.
  intros H Hs. destruct (serve_keeps _ _ _ _ H) as [[_ He] _].
  apply He. exact Hs.
Qed.

Lemma pool_stacks_stable_witness :
  exists s',
    stacks_ {| max_stacks_ := 1;
               stacks_ := [ {| address_ := Some 1%positive; size_ := 4096;
                               refs_ := 3; user_ := None |} ] |} !! 0%nat
      = Some s' /\
    address_ s' = Some 1%positive /\ size_ s' = 4096%N.
Proof.
  apply (pool_stacks_stable (fun _ => None)
           [Lease 8192; Lease 16]
           {| max_stacks_ := 1;
              stacks_ := [ {| address_ := Some 1%positive; size_ := 4096;
                              refs_ := 1; user_ := None |} ] |}
           _ 0 {| address_ := Some 1%positive; size_ := 4096;
                  refs_ := 1; user_ := None |}).
  - reflexivity.
  - reflexivity.
Defined.

Lemma marks_reached (reached : list (option positive)) (datas : Datas)
    (a : positive) :
  foldr Info_mark (gc_clear_mark datas) reached !! a =
  marked_if_reached reached a <$> datas !! a.
Proof.
  induction reached as [|x reached IH]; cbn [foldr].
  - unfold gc_clear_mark. rewrite lookup_fmap.
    destruct (datas !! a) as [d|]; [|reflexivity]. cbn.
    unfold clear_mark, marked_if_reached. f_equal. f_equal.
    rewrite bool_decide_eq_false_2 by (apply not_elem_of_nil).
    by rewrite andb_false_r.
  - set (m := foldr Info_mark (gc_clear_mark datas) reached) in *.
    assert (forall d, marked_if_reached (x :: reached) a d =
                      if bool_decide (x = Some a)
                      then {| dead := dead d; mark := negb (dead d);
                              call_frame := call_frame d |}
                      else marked_if_reached reached a d) as Hcons.
    { intros d. unfold marked_if_reached.
      destruct (decide (x = Some a)) as [->|Hne].
      - rewrite (bool_decide_eq_true_2 (Some a = Some a)) by reflexivity.
        rewrite (bool_decide_eq_true_2 (Some a ∈ Some a :: reached))
          by (apply elem_of_cons; auto).
        by rewrite andb_true_r.
      - rewrite (bool_decide_eq_false_2 (x = Some a)) by exact Hne.
        f_equal. f_equal. apply bool_decide_ext.
        rewrite elem_of_cons.
        split; [intros [E|E]; [congruence | exact E] | auto]. }
    unfold Info_mark. destruct x as [b|].
    + destruct (m !! b) as [e|] eqn:Hb.
      * destruct (dead e) eqn:Hde.
        -- rewrite IH. destruct (datas !! a) as [d|] eqn:Hd; [|reflexivity].
           cbn. f_equal. rewrite Hcons.
           destruct (decide (b = a)) as [->|Hne].
           ++ rewrite bool_decide_eq_true_2 by reflexivity.
              rewrite IH in Hb. inversion Hb; subst e.
              cbn in Hde. unfold marked_if_reached. rewrite Hde. reflexivity.
           ++ rewrite bool_decide_eq_false_2 by congruence. reflexivity.
        -- destruct (decide (b = a)) as [->|Hne].
           ++ rewrite lookup_insert_eq. rewrite IH in Hb.
              destruct (datas !! a) as [d|]; [|discriminate].
              inversion Hb; subst e. cbn in Hde |- *. f_equal.
              rewrite Hcons, bool_decide_eq_true_2 by reflexivity.
              unfold set_mark, marked_if_reached. cbn. rewrite Hde. reflexivity.
           ++ rewrite lookup_insert_ne by exact Hne. rewrite IH.
              destruct (datas !! a) as [d|]; [|reflexivity]. cbn. f_equal.
              rewrite Hcons, bool_decide_eq_false_2 by congruence. reflexivity.
      * rewrite IH. destruct (datas !! a) as [d|] eqn:Hd; [|reflexivity].
        cbn. f_equal. rewrite Hcons.
        destruct (decide (b = a)) as [->|Hne].
        -- rewrite IH in Hb. discriminate.
        -- rewrite bool_decide_eq_false_2 by congruence. reflexivity.
    + rewrite IH. destruct (datas !! a) as [d|]; [|reflexivity]. cbn. f_equal.
      rewrite Hcons, bool_decide_eq_false_2 by discriminate. reflexivity.
Qed.

(** A collection kills exactly the contexts the collector did not reach:
    a registered context is dead afterwards if it was dead before or if
    no fiber reached in this collection points to it, whatever marks it
    carried from earlier collections; and the collector is asked to scan
    a context exactly when the context was alive and has been reached,
    so a dead context is never scanned. *)
Theorem collection_kills_unreached (reached : list (option positive))
    (datas : Datas) (a : positive) (d : FiberData) :
  datas !! a = Some d ->
  (exists d', fst (collection reached datas) !! a = Some d' /\
     dead d' = dead d || negb (bool_decide (Some a ∈ reached)) /\
     call_frame d' = call_frame d) /\
  (scan a ∈ snd (collection reached datas) <->
     dead d = false /\ Some a ∈ reached).
Proof.
  intros Hd. unfold collection, gc_scan. cbn [fst snd].
  set (m := foldr Info_mark (gc_clear_mark datas) reached).
  assert (m !! a = Some (marked_if_reached reached a d)) as Hm.
  { unfold m. rewrite marks_reached, Hd. reflexivity. }
  split.
  - rewrite lookup_fmap, Hm. cbn. eexists. split; [reflexivity|].
    unfold gc_scan_data, marked_if_reached. cbn.
    destruct (dead d); cbn; [auto|].
    destruct (bool_decide (Some a ∈ reached)); cbn; auto.
  - rewrite list_elem_of_In, in_concat. split.
    + intros (calls & Hin & Hs). apply in_map_iff in Hin as ([b e] & <- & Hbe).
      apply list_elem_of_In, elem_of_map_to_list in Hbe.
      assert (b = a) as ->.
      { unfold gc_scan_calls in Hs.
        destruct (dead e); [destruct Hs|].
        destruct (true && negb (mark e)); [destruct Hs|].
        destruct (call_frame e); cbn in Hs; intuition congruence. }
      rewrite Hm in Hbe. inversion Hbe; subst e.
      unfold gc_scan_calls, marked_if_reached in Hs. cbn in Hs.
      destruct (dead d); [destruct Hs|]. cbn in Hs.
      destruct (decide (Some a ∈ reached)) as [Hr|Hr]; [auto|].
      rewrite bool_decide_eq_false_2 in Hs by exact Hr. destruct Hs.
    + intros [Hl Hr].
      exists (gc_scan_calls true a (marked_if_reached reached a d)). split.
      * apply in_map_iff. exists (a, marked_if_reached reached a d).
        split; [reflexivity|].
        apply list_elem_of_In, elem_of_map_to_list. exact Hm.
      * unfold gc_scan_calls, marked_if_reached. cbn. rewrite Hl. cbn.
        rewrite bool_decide_eq_true_2 by exact Hr. cbn.
        destruct (call_frame d); cbn; auto.
Qed.

Lemma collection_kills_unreached_witness :
  (exists d', fst (collection [Some 2%positive] two_contexts) !! 1%positive
                = Some d' /\
     dead d' = false || negb (bool_decide (Some 1%positive ∈ [Some 2%positive])) /\
     call_frame d' = Some 9%positive) /\
  (scan 1 ∈ snd (collection [Some 2%positive] two_contexts) <->
     false = false /\ Some 1%positive ∈ [Some 2%positive]).
Proof.
  apply (collection_kills_unreached [Some 2%positive] two_contexts 1
           {| dead := false; mark := true; call_frame := Some 9%positive |}).
  reflexivity.
Defined.

End FiberStacksPoolFacts.

(** ** Fibers: one running fiber per thread, and the values that travel
    with a switch *)

Module FiberReturnFacts.

Import Fiber FiberReturn.

(** *** Rules for triples *)

Lemma triple_bind {A B} (P : State -> Prop) (m : M A) (k : A -> M B)
    (Q : A -> State -> Prop) (R : B -> State -> Prop) (E : State -> Prop) :
  triple P m Q E -> (forall a, triple (Q a) (k a) R E) ->
  triple P (m ≫= k) R E.
Proof.
  intros Hm Hk st HP. specialize (Hm st HP).
  unfold mbind, M_bind. destruct (m st) as [[a| | |] st']; try exact Hm.
  apply (Hk a st' Hm).
Qed.

Lemma triple_weaken {A} (P P' : State -> Prop) (m : M A)
    (Q Q' : A -> State -> Prop) (E : State -> Prop) :
  triple P' m Q' E -> (forall st, P st -> P' st) ->
  (forall a st, Q' a st -> Q a st) -> triple P m Q E.
Proof.
  intros Hm HP HQ st Hst. specialize (Hm st (HP st Hst)).
  destruct (m st) as [[a| | |] st']; auto.
Qed.

Lemma triple_ret {A} (P : State -> Prop) (a : A) (E : State -> Prop) :
  triple P (mret a) (fun _ => P) E.
Proof. intros st HP. exact HP. Qed.

Lemma triple_get_state (P : State -> Prop) (E : State -> Prop) :
  triple P get_state (fun s st => s = st /\ P st) E.
Proof. intros st HP. cbn. auto. Qed.

Lemma triple_when (P E : State -> Prop) (b : bool) (reason : string) :
  (forall st, P st -> E st) ->
  triple P (when b (raise_fiber_error reason)) (fun _ => P) E.
Proof. intros HE st HP. destruct b; [apply HE, HP | exact HP]. Qed.

Lemma triple_assert (P E : State -> Prop) (b : bool) :
  (forall st, P st -> E st) -> triple P (assert b) (fun _ => P) E.
Proof. intros HE st HP. unfold assert. destruct b; [exact HP | apply HE, HP]. Qed.

Lemma triple_deref (P E : State -> Prop) (p : option positive) :
  (forall st, P st -> E st) -> triple P (deref p) (fun _ => P) E.
Proof.
  intros HE st HP. unfold deref. destruct p as [a|]; [|apply HE, HP].
  destruct (fibers st !! a); [exact HP | apply HE, HP].
Qed.

Lemma triple_switch_to (P : State -> Prop) (d c : option positive)
    (E : State -> Prop) :
  triple P (switch_to d c) (fun _ => P) E.
Proof. intros st HP. exact HP. Qed.

(** [update] writes one fiber, or stops where it is. *)
Lemma triple_update_gen (P Q E : State -> Prop) (p : option positive)
    (g : Fiber -> Fiber) :
  (forall st, P st -> E st) ->
  (forall st a f, P st -> p = Some a -> fibers st !! a = Some f ->
     Q {| vm := vm st; current_fiber := current_fiber st;
          root_fiber := root_fiber st;
          fibers := <[a := g f]> (fibers st) |}) ->
  triple P (update p g) (fun _ => Q) E.
Proof.
  intros HE HQ st HP. unfold update, mbind, M_bind, deref.
  destruct p as [a|]; [|apply HE, HP].
  destruct (fibers st !! a) as [f|] eqn:Hf; [|apply HE, HP].
  cbn. apply (HQ st a f HP eq_refl Hf).
Qed.

(** A write that marks no fiber Running keeps the invariant. *)
Lemma triple_update_status (R : option positive -> Prop)
    (p : option positive) (g : Fiber -> Fiber) :
  (forall f, status_ (g f) = eRunning -> status_ f = eRunning) ->
  triple (fun st => one_running st /\ R (current_fiber st)) (update p g)
    (fun _ st => one_running st /\ R (current_fiber st)) one_running.
Proof.
  intros Hg. apply triple_update_gen; [tauto|].
  intros st a f [Hone HR] _ Hf. split; [|exact HR].
  unfold one_running. cbn.
  apply map_Forall_insert_2; [|exact Hone].
  intros Hr. apply (Hone a f Hf), Hg, Hr.
Qed.

Lemma none_one_running (st : State) : none_running st -> one_running st.
Proof. intros Hnone a f Hf Hr. destruct (Hnone a f Hf Hr). Qed.

Lemma triple_update_none (p : option positive) (g : Fiber -> Fiber) :
  (forall f, status_ (g f) = eRunning -> status_ f = eRunning) ->
  triple none_running (update p g) (fun _ => none_running) one_running.
Proof.
  intros Hg. apply triple_update_gen; [apply none_one_running|].
  intros st a f Hnone _ Hf. unfold none_running. cbn.
  apply map_Forall_insert_2; [|exact Hnone].
  intros Hr. apply (Hnone a f Hf), Hg, Hr.
Qed.

Lemma triple_update (p : option positive) (g : Fiber -> Fiber) :
  (forall f, status_ (g f) = eRunning -> status_ f = eRunning) ->
  triple one_running (update p g) (fun _ => one_running) one_running.
Proof.
  intros Hg.
  eapply triple_weaken;
    [apply (triple_update_status (fun _ => True) p g Hg) | |]; cbn; tauto.
Qed.

Lemma triple_ensure_data (self : option positive) :
  triple one_running (ensure_data self) (fun _ => one_running) one_running.
Proof.
  unfold ensure_data.
  eapply triple_bind; [apply triple_deref; auto|]. intros f.
  destruct (data_ f); [apply triple_ret|].
  eapply triple_bind; [apply triple_get_state|]. intros st0.
  eapply triple_bind with (Q := fun _ => one_running).
  - eapply triple_weaken; [apply (triple_update self) | |].
    + intros g Hr. exact Hr.
    + intros st [_ H]. exact H.
    + intros ? st H. exact H.
  - intros ?. apply triple_ret.
Qed.

(** [Fiber::current] returns the fiber the VM is executing; the root
    fiber it allocates when there is none is the only running fiber. *)
Lemma triple_current :
  triple one_running current
    (fun c st => one_running st /\ current_fiber st = c) one_running.
Proof.
  intros st Hone. unfold current, mbind, M_bind, get_state.
  destruct (current_fiber st) as [c|] eqn:Hc; cbn.
  - auto.
  - split; [|reflexivity]. unfold one_running. cbn.
    apply map_Forall_insert_2; [reflexivity|].
    intros a f Hf Hr. specialize (Hone a f Hf Hr). congruence.
Qed.

Lemma triple_sleep (c : option positive) :
  triple (fun st => one_running st /\ current_fiber st = c) (sleep c)
    (fun _ => none_running) one_running.
Proof.
  unfold sleep. apply triple_update_gen; [tauto|].
  intros st a f [Hone Hc] -> Hf. unfold none_running. cbn.
  intros x g Hx Hr. destruct (decide (x = a)) as [->|Hne].
  - rewrite lookup_insert_eq in Hx. inversion Hx; subst g. discriminate.
  - rewrite lookup_insert_ne in Hx by congruence.
    specialize (Hone x g Hx Hr). congruence.
Qed.

Lemma triple_run (p : option positive) :
  triple none_running (run p) (fun _ => one_running) one_running.
Proof.
  unfold run.
  eapply triple_bind with
    (Q := fun _ st => forall a f, fibers st !! a = Some f ->
                      status_ f = eRunning -> p = Some a).
  - apply triple_update_gen; [apply none_one_running|].
    intros st a f Hnone -> Hf x g Hx Hr. cbn in Hx.
    destruct (decide (x = a)) as [->|Hne]; [reflexivity|].
    rewrite lookup_insert_ne in Hx by congruence.
    destruct (Hnone x g Hx Hr).
  - intros ?. eapply triple_bind; [apply triple_get_state|].
    intros st0 st [-> Hp]. cbn. intros x g Hx Hr. cbn in *.
    apply (Hp x g Hx Hr).
Qed.

(** The last steps of every switch. *)
Lemma triple_switch (self cur : option positive) :
  triple (fun st => one_running st /\ current_fiber st = cur)
    (_ ← sleep cur; _ ← run self; switch_to self cur)
    (fun _ => one_running) one_running.
Proof.
  eapply triple_bind; [apply triple_sleep|]. intros ?.
  eapply triple_bind; [apply triple_run|]. intros ?.
  apply triple_switch_to.
Qed.

Ltac keep_status := let H := fresh in intros ? H; exact H.

Ltac step_with tac := eapply triple_bind; [tac|]; intros ?.

Lemma triple_drop_state {A} (P : State -> Prop) (s0 : State) (m : M A)
    (Q : A -> State -> Prop) (E : State -> Prop) :
  triple P m Q E -> triple (fun st => s0 = st /\ P st) m Q E.
Proof. intros Hm st [_ HP]. apply Hm, HP. Qed.

Lemma triple_resume (self : option positive) (args : list Object) :
  triple one_running (resume self args) (fun _ => one_running) one_running.
Proof.
  unfold resume.
  step_with ltac:(apply triple_ensure_data).
  step_with ltac:(apply triple_deref; auto).
  step_with ltac:(apply triple_when; auto).
  step_with ltac:(apply triple_when; auto).
  step_with ltac:(apply triple_get_state).
  eapply triple_bind with (Q := fun _ => one_running).
  { apply triple_drop_state. apply triple_when; auto. }
  intros ?.
  step_with ltac:(apply triple_update; keep_status).
  eapply triple_bind; [apply triple_current|]. intros cur.
  step_with ltac:(apply (triple_update_status (fun c => c = cur)); keep_status).
  apply triple_switch.
Qed.

Lemma triple_transfer (self : option positive) (args : list Object) :
  triple one_running (transfer self args) (fun _ => one_running) one_running.
Proof.
  unfold transfer.
  step_with ltac:(apply triple_ensure_data).
  step_with ltac:(apply triple_deref; auto).
  step_with ltac:(apply triple_when; auto).
  step_with ltac:(apply triple_get_state).
  eapply triple_bind with (Q := fun _ => one_running).
  { apply triple_drop_state. apply triple_when; auto. }
  intros ?.
  step_with ltac:(apply triple_update; keep_status).
  eapply triple_bind; [apply triple_current|]. intros cur.
  step_with ltac:(apply triple_get_state).
  eapply triple_bind with
    (Q := fun _ st => one_running st /\ current_fiber st = cur).
  { apply triple_drop_state. apply triple_assert; tauto. }
  intros ?.
  step_with ltac:(apply (triple_update_status (fun c => c = cur)); keep_status).
  apply triple_switch.
Qed.

Lemma triple_s_yield (args : list Object) :
  triple one_running (s_yield args) (fun _ => one_running) one_running.
Proof.
  unfold s_yield.
  eapply triple_bind; [apply triple_current|]. intros cur.
  step_with ltac:(apply triple_deref; tauto).
  step_with ltac:(apply triple_assert; tauto).
  step_with ltac:(apply triple_when; tauto).
  step_with ltac:(apply (triple_update_status (fun c => c = cur)); keep_status).
  step_with ltac:(apply (triple_update_status (fun c => c = cur)); keep_status).
  apply triple_switch.
Qed.

Lemma triple_finish (obj exc : option Object) :
  triple one_running (finish obj exc) (fun _ => one_running) one_running.
Proof.
  unfold finish.
  eapply triple_bind; [apply triple_current|]. intros fib.
  eapply triple_bind with (Q := fun _ => none_running).
  { apply triple_update_gen; [tauto|].
    intros st a f [Hone Hc] -> Hf x g Hx Hr. cbn in Hx.
    destruct (decide (x = a)) as [->|Hne].
    - rewrite lookup_insert_eq in Hx. inversion Hx; subst g. discriminate.
    - rewrite lookup_insert_ne in Hx by congruence.
      specialize (Hone x g Hx Hr). congruence. }
  intros ?.
  eapply triple_bind;
    [apply triple_deref; apply none_one_running|]. intros f.
  eapply triple_bind;
    [apply triple_deref; apply none_one_running|]. intros d.
  destruct (data_ d).
  2:{ intros st H. apply none_one_running, H. }
  step_with ltac:(apply triple_assert; apply none_one_running).
  eapply triple_bind with (Q := fun _ => none_running).
  { destruct obj; [intros st H; exact H|].
    destruct exc; [|intros st H; exact H].
    apply triple_update_none. keep_status. }
  intros ?.
  step_with ltac:(apply triple_run).
  step_with ltac:(apply triple_update; keep_status).
  apply triple_switch_to.
Qed.

(** Every switching primitive keeps the scheduling invariant of the
    thread, however it ends: if the only fiber marked Running is the one
    the VM is executing, this is so again after [resume], [transfer] and
    [s_yield] (whether they switch, raise or stop) and after the end of
    a fiber's block in [start_on_stack]. *)
Theorem switches_keep_one_running (st : State) :
  one_running st ->
  (forall self args, one_running (snd (resume self args st))) /\
  (forall self args, one_running (snd (transfer self args st))) /\
  (forall args, one_running (snd (s_yield args st))) /\
  (forall obj exc, one_running (snd (finish obj exc st))).
Proof.
  intros Hone.
  assert (forall A (m : M A),
            triple one_running m (fun _ => one_running) one_running ->
            one_running (snd (m st))) as Hrun.
  { intros A m Hm. specialize (Hm st Hone).
    destruct (m st) as [[a| | |] st']; exact Hm. }
  repeat split; intros; apply Hrun.
  - apply triple_resume.
  - apply triple_transfer.
  - apply triple_s_yield.
  - apply triple_finish.
Qed.

Lemma nested_one_running : one_running nested.
Proof.
  intros a f Hf Hr. unfold nested in *. cbn in *.
  destruct (decide (a = 1%positive)) as [->|H1].
  { rewrite lookup_insert_eq in Hf. inversion Hf; subst f. discriminate. }
  rewrite lookup_insert_ne in Hf by congruence.
  destruct (decide (a = 2%positive)) as [->|H2].
  { rewrite lookup_insert_eq in Hf. inversion Hf; subst f. discriminate. }
  rewrite lookup_insert_ne in Hf by congruence.
  destruct (decide (a = 3%positive)) as [->|H3]; [reflexivity|].
  rewrite lookup_singleton_ne in Hf by congruence. discriminate.
Qed.

Lemma switches_keep_one_running_witness :
  (forall self args, one_running (snd (resume self args nested))) /\
  (forall self args, one_running (snd (transfer self args nested))) /\
  (forall args, one_running (snd (s_yield args nested))) /\
  (forall obj exc, one_running (snd (finish obj exc nested))).
Proof. apply (switches_keep_one_running nested nested_one_running). Defined.

(** [Fiber.yield] on a thread that has not used fibers yet raises "can't
    yield from root fiber": [Fiber::current] first allocates the root
    fiber of the thread, running and current, and leaves the other fibers
    alone; a second yield raises again and changes nothing. *)
Theorem yield_outside_any_fiber (st : State) (args : list Object) :
  current_fiber st = None ->
  exists r f st',
    s_yield args st = (Raise (FiberError "can't yield from root fiber"), st') /\
    fibers st !! r = None /\
    current_fiber st' = Some r /\ root_fiber st' = Some r /\
    fibers st' !! r = Some f /\ root_ f = true /\ status_ f = eRunning /\
    (forall x g, fibers st !! x = Some g -> fibers st' !! x = Some g) /\
    s_yield args st' = (Raise (FiberError "can't yield from root fiber"), st').
Proof.
  intros Hc.
  set (r := fresh (dom (fibers st))).
  set (f := {| status_ := eRunning; root_ := true; prev_ := None;
               value_ := None; exception_ := None;
               data_ := Some (new_fiber_data (vm st) true) |}).
  set (st' := {| vm := vm st; current_fiber := Some r; root_fiber := Some r;
                 fibers := <[r := f]> (fibers st) |}).
  assert (fibers st !! r = None) as Hfresh
    by (apply not_elem_of_dom, is_fresh).
  assert (current st = (Ok (Some r), st')) as Hcur.
  { unfold current. rewrite (FiberFacts.bind_Ok _ _ _ _ _ (FiberFacts.get_state_Ok st)).
    rewrite Hc. reflexivity. }
  assert (fibers st' !! r = Some f) as Hf by apply lookup_insert_eq.
  assert (s_yield args st' =
          (Raise (FiberError "can't yield from root fiber"), st')) as Hagain.
  { apply (FiberFacts.s_yield_root st' r f); [reflexivity | exact Hf | reflexivity |].
    discriminate. }
  exists r, f, st'. repeat split; try done.
  - unfold s_yield. rewrite (FiberFacts.bind_Ok _ _ _ _ _ Hcur).
    rewrite (FiberFacts.bind_Ok _ _ _ _ _ (FiberFacts.deref_Some st' r f Hf)).
    reflexivity.
  - intros x g Hx. cbn. rewrite lookup_insert_ne; [exact Hx | congruence].
Qed.

Lemma yield_outside_any_fiber_witness :
  exists r f st',
    s_yield [Fixnum 1] one_fiber =
      (Raise (FiberError "can't yield from root fiber"), st') /\
    fibers one_fiber !! r = None /\
    current_fiber st' = Some r /\ root_fiber st' = Some r /\
    fibers st' !! r = Some f /\ root_ f = true /\ status_ f = eRunning /\
    (forall x g, fibers one_fiber !! x = Some g -> fibers st' !! x = Some g) /\
    s_yield [Fixnum 1] st' =
      (Raise (FiberError "can't yield from root fiber"), st').
Proof. apply (yield_outside_any_fiber one_fiber [Fixnum 1]). reflexivity. Defined.

Lemma resume_return_value (st : State) (c : positive) (fc : Fiber) :
  current_fiber st = Some c -> fibers st !! c = Some fc ->
  exception_ fc = None ->
  resume_return st = (Ok (unwrap (value_ fc)), st).
Proof.
  intros Hc Hfc He. unfold resume_return.
  rewrite (FiberFacts.bind_Ok _ _ _ _ _ (FiberFacts.current_Some st c Hc)).
  rewrite (FiberFacts.bind_Ok _ _ _ _ _ (FiberFacts.deref_Some st c fc Hfc)).
  rewrite He. reflexivity.
Qed.

Lemma yield_return_value (st : State) (c : positive) (fc : Fiber) :
  current_fiber st = Some c -> fibers st !! c = Some fc ->
  yield_return st = (Ok (unwrap (value_ fc)), st).
Proof.
  intros Hc Hfc. unfold yield_return.
  rewrite (FiberFacts.bind_Ok _ _ _ _ _ (FiberFacts.current_Some st c Hc)).
  rewrite (FiberFacts.bind_Ok _ _ _ _ _ (FiberFacts.deref_Some st c fc Hfc)).
  reflexivity.
Qed.

(** What a fiber passes to [Fiber.yield] is what the [resume] (or
    [transfer]) that entered it returns in its resumer: nil for no
    argument, the argument itself for one, the array of them for
    several. *)
Theorem yield_value_reaches_resumer
    (st : State) (c d : positive) (fc fd : Fiber) (args : list Object) :
  current_fiber st = Some c ->
  fibers st !! c = Some fc ->
  root_ fc = false ->
  prev_ fc = Some d ->
  d <> c ->
  fibers st !! d = Some fd ->
  exception_ fd = None ->
  exists st',
    s_yield args st = (Ok tt, st') /\
    resume_return st' = (Ok (unwrap (Some args)), st') /\
    transfer_return st' = (Ok (unwrap (Some args)), st').
Proof.
  intros Hc Hfc Hroot Hprev Hne Hfd Hexc.
  destruct (FiberFacts.s_yield_switch st c fc d fd args Hc Hfc Hroot Hprev Hne Hfd)
    as (st' & Hy & _ & Hd' & Hcur & _).
  exists st'. split; [exact Hy|].
  split; apply (resume_return_value st' d _ Hcur Hd'); exact Hexc.
Qed.

Lemma yield_value_reaches_resumer_witness :
  exists st',
    s_yield [Fixnum 1; Fixnum 2] nested = (Ok tt, st') /\
    resume_return st' = (Ok (ArrayValue [Fixnum 1; Fixnum 2]), st') /\
    transfer_return st' = (Ok (ArrayValue [Fixnum 1; Fixnum 2]), st').
Proof.
  apply (yield_value_reaches_resumer nested 3 2 inner worker
           [Fixnum 1; Fixnum 2]); try reflexivity.
  discriminate.
Defined.

(** What is passed to [resume] is what the [Fiber.yield] that suspended
    the fiber returns in it, unwrapped in the same way. *)
Theorem resume_value_reaches_fiber
    (st : State) (a : positive) (fa : Fiber) (args : list Object) :
  wf st ->
  fibers st !! a = Some fa ->
  dead st fa = false ->
  prev_ fa = None ->
  other_thread (context_of st fa) (vm st) = false ->
  exists st',
    resume (Some a) args st = (Ok tt, st') /\
    yield_return st' = (Ok (unwrap (Some args)), st').
Proof.
  intros Hwf Ha Hdead Hprev Hother.
  rewrite (FiberFacts.resume_cascade st a fa args Ha), Hdead, Hprev, Hother.
  cbn [is_Some_b].
  destruct (FiberFacts.resume_switch_spec (with_context st a fa) a
              (fiber_with_context st fa) args)
    as (c & st' & fa' & Hr & Ha' & _ & _ & Hv & Hcur & _).
  { apply FiberFacts.wf_with_context, Hwf. }
  { apply FiberFacts.with_context_lookup, Ha. }
  exists st'. split; [exact Hr|].
  rewrite (yield_return_value st' a fa' Hcur Ha'), Hv. reflexivity.
Qed.

Lemma resume_value_reaches_fiber_witness :
  exists st',
    resume (Some 2%positive) [Fixnum 7] one_fiber = (Ok tt, st') /\
    yield_return st' = (Ok (Value (Fixnum 7)), st').
Proof.
  apply (resume_value_reaches_fiber one_fiber 2 fresh_fiber [Fixnum 7]);
    try reflexivity.
  intros c Hc. discriminate.
Defined.

(** The end of a fiber's block, for a fiber [c] whose resumer [d] still
    has its context. *)
Lemma finish_spec (st : State) (c d : positive) (fc fd : Fiber)
    (dd : FiberData) (obj exc : option Object) :
  current_fiber st = Some c ->
  fibers st !! c = Some fc ->
  prev_ fc = Some d ->
  d <> c ->
  fibers st !! d = Some fd ->
  data_ fd = Some dd ->
  let fd' :=
    set_value (match obj with Some o => Some [o] | None => None end)
      (set_status eRunning
         (match obj, exc with
          | None, Some e => set_exception (Some e) fd
          | _, _ => fd
          end)) in
  let st' :=
    {| vm := vm st; current_fiber := Some d; root_fiber := root_fiber st;
       fibers := <[d := fd']> (<[c := set_status eDead fc]> (fibers st)) |} in
  finish obj exc st = (Ok tt, st').
Proof.
  intros Hc Hfc Hprev Hne Hfd Hdata fd' st'. unfold finish.
  rewrite (FiberFacts.bind_Ok _ _ _ _ _ (FiberFacts.current_Some st c Hc)).
  rewrite (FiberFacts.bind_Ok _ _ _ _ _ (FiberFacts.update_Some st c fc _ Hfc)).
  erewrite FiberFacts.bind_Ok; cycle 1.
  { apply FiberFacts.deref_Some. cbn. apply lookup_insert_eq. }
  cbn [set_status prev_]. rewrite Hprev.
  erewrite FiberFacts.bind_Ok; cycle 1.
  { apply FiberFacts.deref_Some with (f := fd). cbn.
    rewrite lookup_insert_ne by congruence. exact Hfd. }
  rewrite Hdata. cbn [is_Some_b].
  erewrite FiberFacts.bind_Ok; cycle 1.
  { reflexivity. }
  unfold st', fd'. destruct obj as [o|]; [|destruct exc as [e|]].
  - erewrite FiberFacts.bind_Ok; cycle 1.
    { reflexivity. }
    erewrite FiberFacts.bind_Ok; cycle 1.
    { apply FiberFacts.run_Some with (fa := fd). cbn.
      rewrite lookup_insert_ne by congruence. exact Hfd. }
    erewrite FiberFacts.bind_Ok; cycle 1.
    { apply FiberFacts.update_Some. cbn. apply lookup_insert_eq. }
    cbn. unfold switch_to. cbn. rewrite insert_insert_eq. reflexivity.
  - erewrite FiberFacts.bind_Ok; cycle 1.
    { apply FiberFacts.update_Some with (f := fd). cbn.
      rewrite lookup_insert_ne by congruence. exact Hfd. }
    erewrite FiberFacts.bind_Ok; cycle 1.
    { apply FiberFacts.run_Some. cbn. apply lookup_insert_eq. }
    erewrite FiberFacts.bind_Ok; cycle 1.
    { apply FiberFacts.update_Some. cbn. apply lookup_insert_eq. }
    cbn. unfold switch_to. cbn. rewrite !insert_insert_eq. reflexivity.
  - erewrite FiberFacts.bind_Ok; cycle 1.
    { reflexivity. }
    erewrite FiberFacts.bind_Ok; cycle 1.
    { apply FiberFacts.run_Some with (fa := fd). cbn.
      rewrite lookup_insert_ne by congruence. exact Hfd. }
    erewrite FiberFacts.bind_Ok; cycle 1.
    { apply FiberFacts.update_Some. cbn. apply lookup_insert_eq. }
    cbn. unfold switch_to. cbn. rewrite insert_insert_eq. reflexivity.
Qed.

(** When the block of a fiber returns a value, the fiber is Dead, its
    resumer runs again and the [resume] that entered the fiber returns
    that value; from then on every [resume] and every [transfer] of the
    finished fiber raises "dead fiber called". *)
Theorem finished_fiber_returns_and_stays_dead
    (st : State) (c d : positive) (fc fd : Fiber) (dd : FiberData)
    (obj : Object) (exc : option Object) :
  current_fiber st = Some c ->
  fibers st !! c = Some fc ->
  prev_ fc = Some d ->
  d <> c ->
  fibers st !! d = Some fd ->
  data_ fd = Some dd ->
  exception_ fd = None ->
  exists st' fc',
    finish (Some obj) exc st = (Ok tt, st') /\
    fibers st' !! c = Some fc' /\ status_ fc' = eDead /\
    current_fiber st' = Some d /\
    resume_return st' = (Ok (Value obj), st') /\
    (forall args,
       fst (resume (Some c) args st') =
         Raise (FiberError "dead fiber called")) /\
    (forall args,
       fst (transfer (Some c) args st') =
         Raise (FiberError "dead fiber called")).
Proof.
  intros Hc Hfc Hprev Hne Hfd Hdata Hexc.
  pose proof (finish_spec st c d fc fd dd (Some obj) exc
                Hc Hfc Hprev Hne Hfd Hdata) as Hfin.
  lazy beta iota zeta in Hfin. eexists _, (set_status eDead fc).
  split; [exact Hfin|].
  assert (forall m : gmap positive Fiber,
            <[d := set_value (Some [obj]) (set_status eRunning fd)]>
              (<[c := set_status eDead fc]> m) !! c
            = Some (set_status eDead fc)) as Hlook.
  { intros m. rewrite lookup_insert_ne by congruence. apply lookup_insert_eq. }
  split; [apply Hlook|]. split; [reflexivity|]. split; [reflexivity|].
  split; [|split].
  - rewrite (resume_return_value _ d
               (set_value (Some [obj]) (set_status eRunning fd)));
      [reflexivity | reflexivity | apply lookup_insert_eq | exact Hexc].
  - intros args. erewrite FiberFacts.resume_cascade by apply Hlook.
    reflexivity.
  - intros args. erewrite FiberFacts.transfer_cascade by apply Hlook.
    reflexivity.
Qed.

Lemma finished_fiber_returns_and_stays_dead_witness :
  exists st' fc',
    finish (Some (Fixnum 9)) None nested = (Ok tt, st') /\
    fibers st' !! 3%positive = Some fc' /\ status_ fc' = eDead /\
    current_fiber st' = Some 2%positive /\
    resume_return st' = (Ok (Value (Fixnum 9)), st') /\
    (forall args,
       fst (resume (Some 3%positive) args st') =
         Raise (FiberError "dead fiber called")) /\
    (forall args,
       fst (transfer (Some 3%positive) args st') =
         Raise (FiberError "dead fiber called")).
Proof.
  apply (finished_fiber_returns_and_stays_dead nested 3 2 inner worker
           (new_fiber_data 1 false) (Fixnum 9) None); try reflexivity.
  discriminate.
Defined.

(** An exception that ends the block of a fiber is raised by the
    [resume] that entered the fiber, once: the resumer's exception slot
    is cleared when it is raised, so that a later return into the same
    fiber finds none. *)
Theorem escaping_exception_raised_once
    (st : State) (c d : positive) (fc fd : Fiber) (dd : FiberData)
    (e : Object) :
  current_fiber st = Some c ->
  fibers st !! c = Some fc ->
  prev_ fc = Some d ->
  d <> c ->
  fibers st !! d = Some fd ->
  data_ fd = Some dd ->
  exists st' st'',
    finish None (Some e) st = (Ok tt, st') /\
    resume_return st' = (Ok (Raised e), st'') /\
    resume_return st'' = (Ok (Value cNil), st'').
Proof.
  intros Hc Hfc Hprev Hne Hfd Hdata.
  pose proof (finish_spec st c d fc fd dd None (Some e)
                Hc Hfc Hprev Hne Hfd Hdata) as Hfin.
  lazy beta iota zeta in Hfin. eexists _, _. split; [exact Hfin|].
  split.
  - unfold resume_return.
    erewrite FiberFacts.bind_Ok; cycle 1.
    { apply FiberFacts.current_Some. reflexivity. }
    erewrite FiberFacts.bind_Ok; cycle 1.
    { apply FiberFacts.deref_Some. cbn. apply lookup_insert_eq. }
    cbn [exception_ set_value set_status set_exception].
    erewrite FiberFacts.bind_Ok; cycle 1.
    { apply FiberFacts.update_Some. cbn. apply lookup_insert_eq. }
    reflexivity.
  - rewrite (resume_return_value _ d
               (set_exception None
                  (set_value None
                     (set_status eRunning (set_exception (Some e) fd)))));
      [reflexivity | reflexivity | apply lookup_insert_eq | reflexivity].
Qed.

Lemma escaping_exception_raised_once_witness :
  exists st' st'',
    finish None (Some (Ref 40)) nested = (Ok tt, st') /\
    resume_return st' = (Ok (Raised (Ref 40)), st'') /\
    resume_return st'' = (Ok (Value cNil), st'').
Proof.
  apply (escaping_exception_raised_once nested 3 2 inner worker
           (new_fiber_data 1 false) (Ref 40)); try reflexivity.
  discriminate.
Defined.

End FiberReturnFacts.

(** ** Variable scopes: what is written is read back, and promotion and
    marking keep the locals *)

Module VariableScopePrimsFacts.

Import VariableScope VariableScopePrims.

Section WithConstants.

Variable cScopeLocked : Z.
Variable displace : AddressDisplacement -> Z -> option Z.

#[local] Abbreviation locked_p := (VariableScope.locked_p cScopeLocked).
#[local] Abbreviation get_local := (VariableScope.get_local cScopeLocked displace).
#[local] Abbreviation set_local := (VariableScope.set_local cScopeLocked displace).
#[local] Abbreviation flush_to_heap := (VariableScope.flush_to_heap cScopeLocked).
#[local] Abbreviation displaced_locals := (VariableScope.displaced_locals displace).
#[local] Abbreviation set_local_prim :=
  (VariableScopePrims.set_local_prim cScopeLocked displace).
#[local] Abbreviation locals := (VariableScopePrims.locals cScopeLocked displace).
#[local] Abbreviation locals_from :=
  (VariableScopePrims.locals_from cScopeLocked displace).
#[local] Abbreviation Info_mark := (VariableScopePrims.Info_mark displace).

#[local] Abbreviation slot := (VariableScopePrims.slot displace).

Ltac simpl_heap :=
  repeat (cbn [scopes fibers stack log emit store_scope store_stack
               set_lock set_flags set_heap_locals set_isolated
               parent_ heap_locals_ locals_ number_of_locals_ isolated_
               flags_ lock_ fiber_ fst snd] in *;
          rewrite ?lookup_insert_eq, ?insert_insert_eq in * ).

Ltac unfold_heap :=
  unfold emit, store_scope, store_stack, set_lock, set_flags,
    set_heap_locals, set_isolated in *.

Ltac written :=
  repeat split; unfold_heap; simpl_heap;
  rewrite ?insert_id by eassumption; auto.

(** A read returns the slot and changes nothing but the trace. *)
Lemma get_local_slot (self : positive) (vs : VariableScope) (pos : Z)
    (h : Heap) :
  scopes h !! self = Some vs -> (locked_p vs = true -> lock_ vs = false) ->
  exists h', get_local self pos h = (slot vs h pos, h') /\
    scopes h' = scopes h /\ stack h' = stack h /\ fibers h' = fibers h.
Proof.
  intros Hs Hf.
  unfold VariableScope.get_local, with_lock, get_local_internal,
    VariableScopePrims.slot, get_local_stack, VariableScope.displaced_locals.
  rewrite Hs.
  destruct vs as [par hl loc n iso fl lk fib].
  destruct (locked_p _) eqn:Hl;
    [cbn in Hf; specialize (Hf eq_refl); subst lk|];
    simpl_heap; rewrite ?Hs; simpl_heap.
  - destruct iso; simpl_heap.
    + destruct hl as [t|]; simpl_heap; eexists; (split; [reflexivity|]);
        simpl_heap; rewrite ?insert_id by exact Hs; auto.
    + destruct fib as [fa|]; simpl_heap.
      * destruct (fibers h !! fa) as [[dis|]|]; simpl_heap.
        -- destruct (displace dis loc) as [ary|]; simpl_heap;
             eexists; (split; [reflexivity|]);
             simpl_heap; rewrite ?insert_id by exact Hs; auto.
        -- eexists; (split; [reflexivity|]);
             simpl_heap; rewrite ?insert_id by exact Hs; auto.
        -- eexists; (split; [reflexivity|]);
             simpl_heap; rewrite ?insert_id by exact Hs; auto.
      * eexists; (split; [reflexivity|]);
          simpl_heap; rewrite ?insert_id by exact Hs; auto.
  - destruct iso; simpl_heap.
    + destruct hl as [t|]; simpl_heap; eexists; (split; [reflexivity|]); auto.
    + destruct fib as [fa|]; simpl_heap.
      * destruct (fibers h !! fa) as [[dis|]|]; simpl_heap.
        -- destruct (displace dis loc) as [ary|]; simpl_heap;
             eexists; (split; [reflexivity|]); auto.
        -- eexists; (split; [reflexivity|]); auto.
        -- eexists; (split; [reflexivity|]); auto.
      * eexists; (split; [reflexivity|]); auto.
Qed.

(** What a write that returns has done. *)
Lemma set_local_effect (self : positive) (vs : VariableScope) (pos : Z)
    (val : Object) (h h1 : Heap) :
  scopes h !! self = Some vs ->
  set_local self pos val h = (Ok tt, h1) ->
  (locked_p vs = true -> lock_ vs = false) /\
  fibers h1 = fibers h /\
  if isolated_ vs then
    exists t t', heap_locals_ vs = Some t /\ put t pos val = Some t' /\
      scopes h1 = <[self := set_heap_locals (Some t') vs]> (scopes h) /\
      stack h1 = stack h
  else
    exists ary, fst (displaced_locals vs h) = Ok ary /\
      scopes h1 = scopes h /\ stack h1 = <[ary + pos := val]> (stack h).
Proof.
  intros Hs.
  unfold VariableScope.set_local, with_lock, set_local_internal,
    set_local_stack, VariableScope.displaced_locals.
  rewrite Hs.
  destruct vs as [par hl loc n iso fl lk fib].
  destruct (locked_p _) eqn:Hl; simpl_heap.
  - destruct lk; [discriminate|]. simpl_heap. rewrite ?Hs. simpl_heap.
    destruct iso; simpl_heap.
    + destruct hl as [t|]; simpl_heap; [|discriminate].
      destruct (put t pos val) as [t'|] eqn:Hput; simpl_heap; [|discriminate].
      intros H; inversion H; subst h1; clear H.
      split; [auto|]. split; [reflexivity|]. exists t, t'. written.
    + destruct fib as [fa|]; simpl_heap.
      * destruct (fibers h !! fa) as [[dis|]|]; simpl_heap.
        -- destruct (displace dis loc) as [ary|]; simpl_heap; [|discriminate].
           intros H; inversion H; subst h1; clear H.
           split; [auto|]. split; [reflexivity|]. exists ary. written.
        -- intros H; inversion H; subst h1; clear H.
           split; [auto|]. split; [reflexivity|]. exists loc. written.
        -- intros H; inversion H; subst h1; clear H.
           split; [auto|]. split; [reflexivity|]. exists loc. written.
      * intros H; inversion H; subst h1; clear H.
        split; [auto|]. split; [reflexivity|]. exists loc. written.
  - intros H. split; [discriminate|]. revert H.
    destruct iso; simpl_heap.
    + destruct hl as [t|]; simpl_heap; [|discriminate].
      destruct (put t pos val) as [t'|] eqn:Hput; simpl_heap; [|discriminate].
      intros H; inversion H; subst h1; clear H.
      split; [reflexivity|]. exists t, t'. written.
    + destruct fib as [fa|]; simpl_heap.
      * destruct (fibers h !! fa) as [[dis|]|]; simpl_heap.
        -- destruct (displace dis loc) as [ary|]; simpl_heap; [|discriminate].
           intros H; inversion H; subst h1; clear H.
           split; [reflexivity|]. exists ary. written.
        -- intros H; inversion H; subst h1; clear H.
           split; [reflexivity|]. exists loc. written.
        -- intros H; inversion H; subst h1; clear H.
           split; [reflexivity|]. exists loc. written.
      * intros H; inversion H; subst h1; clear H.
        split; [reflexivity|]. exists loc. written.
Qed.

Lemma displaced_locals_ext (vs : VariableScope) (h h' : Heap) :
  fibers h' = fibers h ->
  fst (displaced_locals vs h') = fst (displaced_locals vs h).
Proof.
  intros Hf. unfold VariableScope.displaced_locals. rewrite Hf.
  destruct (fiber_ vs) as [fa|]; [|reflexivity].
  destruct (fibers h !! fa) as [[dis|]|]; try reflexivity.
  destruct (displace dis (locals_ vs)); reflexivity.
Qed.

Lemma slot_ext (vs : VariableScope) (h h' : Heap) (pos : Z) :
  fibers h' = fibers h -> stack h' = stack h ->
  slot vs h' pos = slot vs h pos.
Proof.
  intros Hf Hst. unfold VariableScopePrims.slot.
  rewrite (displaced_locals_ext vs h h' Hf), Hst. reflexivity.
Qed.

Lemma put_at (t t' : list Object) (pos : Z) (val : Object) :
  put t pos val = Some t' ->
  at_ t' pos = val /\
  forall pos', pos' <> pos -> at_ t' pos' = at_ t pos'.
Proof.
  unfold put, at_. intros H.
  destruct ((0 <=? pos) && (pos <? Z.of_nat (length t))) eqn:E; [|discriminate].
  inversion H; subst t'; clear H.
  apply andb_prop in E as [E1 E2].
  apply Z.leb_le in E1. apply Z.ltb_lt in E2. split.
  - destruct (0 <=? pos) eqn:E; [|apply Z.leb_gt in E; lia].
    rewrite list_lookup_insert_eq by lia. reflexivity.
  - intros pos' Hne. destruct (0 <=? pos') eqn:E; [|reflexivity].
    apply Z.leb_le in E. rewrite list_lookup_insert_ne by lia. reflexivity.
Qed.

(** The slots of a scope once a write has returned. *)
Lemma set_local_slots (self : positive) (vs : VariableScope)
    (pos : Z) (val : Object) (h h1 : Heap) :
  scopes h !! self = Some vs ->
  set_local self pos val h = (Ok tt, h1) ->
  exists vs1,
    scopes h1 !! self = Some vs1 /\
    (locked_p vs1 = true -> lock_ vs1 = false) /\
    slot vs1 h1 pos = Ok val /\
    forall pos', pos' <> pos -> slot vs1 h1 pos' = slot vs h pos'.
Proof.
  intros Hs Hset.
  destruct (set_local_effect self vs pos val h h1 Hs Hset) as (Hlk & Hfib & Hcase).
  destruct (isolated_ vs) eqn:Hiso.
  - destruct Hcase as (t & t' & Ht & Hput & Hsc & Hst).
    exists (set_heap_locals (Some t') vs).
    split; [rewrite Hsc; apply lookup_insert_eq|]. split; [exact Hlk|].
    destruct (put_at t t' pos val Hput) as [Hat Hother].
    unfold VariableScopePrims.slot. cbn. rewrite Hiso, Ht, Hat.
    split; [reflexivity|]. intros pos' Hne. by rewrite (Hother pos' Hne).
  - destruct Hcase as (ary & Hary & Hsc & Hst).
    exists vs. split; [rewrite Hsc; exact Hs|]. split; [exact Hlk|].
    unfold VariableScopePrims.slot.
    rewrite Hiso, (displaced_locals_ext vs h h1 Hfib), Hary, Hst.
    split; [by rewrite fn_lookup_insert|].
    intros pos' Hne. by rewrite fn_lookup_insert_ne by lia.
Qed.

(** What [set_local] writes, [get_local] reads back: after a write that
    returns, a read of the same local returns the value written and a
    read of any other local returns what it returned before, whether the
    scope lives on the (possibly displaced) stack or on the heap and
    whether or not it is lock-protected. *)
Theorem set_local_get_local (self : positive) (vs : VariableScope)
    (pos : Z) (val : Object) (h h1 : Heap) :
  scopes h !! self = Some vs ->
  set_local self pos val h = (Ok tt, h1) ->
  fst (get_local self pos h1) = Ok val /\
  forall pos', pos' <> pos ->
    fst (get_local self pos' h1) = fst (get_local self pos' h).
Proof.
  intros Hs Hset.
  destruct (set_local_effect self vs pos val h h1 Hs Hset) as (Hlk & _).
  destruct (set_local_slots self vs pos val h h1 Hs Hset)
    as (vs1 & Hs1 & Hlk1 & Hsame & Hother).
  assert (forall p, fst (get_local self p h) = slot vs h p) as Hbefore.
  { intros p. destruct (get_local_slot self vs p h Hs Hlk) as (h' & -> & _).
    reflexivity. }
  assert (forall p, fst (get_local self p h1) = slot vs1 h1 p) as Hafter.
  { intros p. destruct (get_local_slot self vs1 p h1 Hs1 Hlk1) as (h' & -> & _).
    reflexivity. }
  split; [by rewrite Hafter|].
  intros pos' Hne. rewrite Hafter, Hbefore. by apply Hother.
Qed.

(** [set_local_prim] checks the index it has converted to an [int]
    before it writes: a converted index that is negative or not below
    the number of locals raises an [ArgumentError] and leaves the store
    as it is; when the primitive returns, it returns nil, the converted
    index was in range, [get_local] reads the object back there, and no
    stack slot outside the locals of the scope has changed.  An index
    within the range of an [int] is its own conversion, so that for
    such an index the check is a check of the index passed.  An index
    outside that range is taken for the one it wraps to: the primitive
    does with [number + 2 ^ 32] exactly what it does with [number], so
    that the index [2 ^ 32] writes local 0 and raises nothing. *)
Theorem set_local_prim_checked (self : positive) (vs : VariableScope)
    (number : Z) (object : Object) (h : Heap) :
  scopes h !! self = Some vs ->
  (to_int number < 0 \/ number_of_locals_ vs <= to_int number ->
   exists reason,
     set_local_prim self number object h = (ArgumentError reason, h)) /\
  (forall r h1,
     set_local_prim self number object h = (Return r, h1) ->
     r = cNil /\ 0 <= to_int number < number_of_locals_ vs /\
     fst (get_local self (to_int number) h1) = Ok object /\
     forall a, stack h1 a <> stack h a ->
       exists ary, fst (displaced_locals vs h) = Ok ary /\
         ary <= a < ary + number_of_locals_ vs) /\
  (INT_MIN <= number <= INT_MAX -> to_int number = number) /\
  set_local_prim self (number + 2 ^ 32) object h
    = set_local_prim self number object h /\
  (0 < number_of_locals_ vs ->
   set_local_prim self (2 ^ 32) object h = set_local_prim self 0 object h /\
   forall reason,
     fst (set_local_prim self (2 ^ 32) object h) <> ArgumentError reason).
Proof.
  intros Hs.
  assert (forall n, to_int (n + 2 ^ 32) = to_int n) as Hwrap.
  { intros n. unfold to_int, wrap_int. f_equal.
    replace (n + 2 ^ 32 + 2 ^ 31) with (n + 2 ^ 31 + 1 * 2 ^ 32) by lia.
    apply Z_mod_plus_full. }
  split; [|split; [|split; [|split]]].
  - unfold VariableScopePrims.set_local_prim. rewrite Hs.
    intros Hout. destruct (to_int number <? 0) eqn:E1; [eauto|].
    apply Z.ltb_ge in E1.
    destruct (number_of_locals_ vs <=? to_int number) eqn:E2; [eauto|].
    apply Z.leb_gt in E2. lia.
  - unfold VariableScopePrims.set_local_prim. rewrite Hs.
    intros r h1.
    destruct (to_int number <? 0) eqn:E1; [discriminate|].
    destruct (number_of_locals_ vs <=? to_int number) eqn:E2; [discriminate|].
    apply Z.ltb_ge in E1. apply Z.leb_gt in E2.
    destruct (set_local self (to_int number) object h) as [[[]| |] h'] eqn:Hset;
      [|discriminate|discriminate].
    intros H; inversion H; subst r h1; clear H.
    split; [reflexivity|]. split; [lia|].
    split.
    { destruct (set_local_slots self vs _ _ h h' Hs Hset)
        as (vs1 & Hs1 & Hlk1 & Hsame & _).
      destruct (get_local_slot self vs1 (to_int number) h' Hs1 Hlk1)
        as (h2 & -> & _).
      exact Hsame. }
    destruct (set_local_effect self vs _ _ h h' Hs Hset) as (_ & _ & Hcase).
    intros a Ha. destruct (isolated_ vs).
    + destruct Hcase as (t & t' & _ & _ & _ & Hst). congruence.
    + destruct Hcase as (ary & Hary & _ & Hst). exists ary. split; [exact Hary|].
      destruct (decide (a = ary + to_int number)) as [->|Hne]; [lia|].
      rewrite Hst, fn_lookup_insert_ne in Ha by congruence. congruence.
  - apply wrap_int_small.
  - unfold VariableScopePrims.set_local_prim. by rewrite Hwrap.
  - intros Hn.
    assert (set_local_prim self (2 ^ 32) object h = set_local_prim self 0 object h)
      as Heq.
    { unfold VariableScopePrims.set_local_prim.
      by rewrite <- (Hwrap 0), Z.add_0_l. }
    split; [exact Heq|]. intros reason. rewrite Heq.
    unfold VariableScopePrims.set_local_prim. rewrite Hs.
    change (to_int 0) with 0. cbn [Z.ltb Z.compare].
    assert ((number_of_locals_ vs <=? 0) = false) as -> by (apply Z.leb_gt; lia).
    destruct (set_local self 0 object h) as [[[]| |] h']; cbn; discriminate.
Qed.

(** The slots [locals] collects. *)
Lemma locals_from_slots (self : positive) (vs : VariableScope) (count : nat) :
  forall i h,
    scopes h !! self = Some vs ->
    (locked_p vs = true -> lock_ vs = false) ->
    fst (locals_from self count i h) = slots displace vs h count i.
Proof.
  induction count as [|k IH]; intros i h Hs Hlk; [reflexivity|].
  cbn [VariableScopePrims.locals_from VariableScopePrims.slots].
  destruct (get_local_slot self vs i h Hs Hlk) as (h' & -> & Hsc & Hst & Hfb).
  destruct (slot vs h i) as [o| |]; [|reflexivity|reflexivity].
  assert (scopes h' !! self = Some vs) as Hs' by (rewrite Hsc; exact Hs).
  specialize (IH (i + 1) h' Hs' Hlk).
  assert (slots displace vs h' k (i + 1) = slots displace vs h k (i + 1)) as Hext.
  { clear -Hst Hfb. generalize (i + 1). induction k as [|k IHk]; intros j;
      [reflexivity|].
    cbn [VariableScopePrims.slots]. rewrite (slot_ext vs h h' j Hfb Hst), IHk.
    reflexivity. }
  rewrite Hext in IH.
  destruct (locals_from self k (i + 1) h') as [[os| |] h2]; cbn [fst] in *;
    rewrite <- IH; reflexivity.
Qed.

Lemma copy_locals_lookup (count : nat) : forall addr mem n,
  (n < count)%nat ->
  copy_locals count addr mem !! n = Some (mem (addr + Z.of_nat n)).
Proof.
  induction count as [|k IH]; intros addr mem n Hn; [lia|].
  cbn [copy_locals]. destruct n as [|n].
  - cbn. by rewrite Z.add_0_r.
  - change ((mem addr :: copy_locals k (addr + 1) mem) !! S n)
      with (copy_locals k (addr + 1) mem !! n).
    rewrite IH by lia. do 2 f_equal. lia.
Qed.

Lemma copy_locals_at (count : nat) (addr : Z) (mem : Z -> Object) (i : Z) :
  0 <= i < Z.of_nat count ->
  at_ (copy_locals count addr mem) i = mem (addr + i).
Proof.
  intros Hi. unfold at_.
  destruct (0 <=? i) eqn:E; [|apply Z.leb_gt in E; lia].
  rewrite copy_locals_lookup by lia. cbn. f_equal. lia.
Qed.

(** Promotion keeps the locals: on a scope whose stack slots are where
    [locals_] says (no fiber has displaced them), [locals] returns after
    [flush_to_heap] the tuple it returned before, although the scope has
    moved from the stack to the heap and is no longer lock-protected. *)
Theorem flush_to_heap_keeps_locals (self : positive) (vs : VariableScope)
    (h : Heap) :
  scopes h !! self = Some vs ->
  lock_ vs = false ->
  fst (displaced_locals vs h) = Ok (locals_ vs) ->
  fst (locals self (snd (flush_to_heap self h))) = fst (locals self h).
Proof.
  intros Hs Hf Hnom.
  rewrite (VariableScopeFacts.flush_to_heap_eq cScopeLocked self vs h Hs Hf).
  cbn [snd]. unfold VariableScopePrims.locals. rewrite Hs. cbn [scopes].
  rewrite lookup_insert_eq.
  set (vs' := flushed cScopeLocked h vs).
  set (h1 := {| scopes := <[self := vs']> (scopes h); fibers := fibers h;
                stack := stack h; log := _ |}).
  assert (number_of_locals_ vs' = number_of_locals_ vs) as Hn.
  { unfold vs', flushed, promote.
    destruct (locked_p vs), (isolated_ vs); reflexivity. }
  rewrite Hn.
  rewrite (locals_from_slots self vs' _ 0 h1);
    [| apply lookup_insert_eq
     | intros _; unfold vs', flushed, promote;
       destruct (locked_p vs), (isolated_ vs); exact Hf ].
  rewrite (locals_from_slots self vs _ 0 h Hs (fun _ => Hf)).
  destruct (isolated_ vs) eqn:Hiso.
  - assert (forall k i, slots displace vs' h1 k i = slots displace vs h k i) as E.
    { induction k as [|k IH]; intros i; [reflexivity|].
      cbn [VariableScopePrims.slots]. rewrite IH.
      unfold VariableScopePrims.slot, vs', flushed, promote. rewrite Hiso.
      destruct (locked_p vs); cbn; rewrite Hiso; reflexivity. }
    apply E.
  - set (n := Z.to_nat (number_of_locals_ vs)).
    assert (forall k i, 0 <= i -> (Z.to_nat i + k = n)%nat ->
              slots displace vs' h1 k i = slots displace vs h k i) as E.
    { induction k as [|k IH]; intros i Hi Hk; [reflexivity|].
      cbn [VariableScopePrims.slots]. rewrite IH by lia.
      assert (slot vs' h1 i = slot vs h i) as ->; [|reflexivity].
      unfold VariableScopePrims.slot at 2. rewrite Hiso, Hnom.
      unfold VariableScopePrims.slot, vs', flushed, promote. rewrite Hiso.
      destruct (locked_p vs); cbn; fold n;
        rewrite copy_locals_at by lia; reflexivity. }
    apply E; lia.
Qed.

Lemma mark_slots_spec (call : MarkCall) (ary : Z) (count : nat) :
  forall i mem,
    (forall j, (i <= j < i + count)%nat ->
       mark_slots call ary count i mem (ary + Z.of_nat j) =
       default (mem (ary + Z.of_nat j)) (call j (mem (ary + Z.of_nat j)))) /\
    (forall a, ~ (ary + Z.of_nat i <= a < ary + Z.of_nat i + Z.of_nat count) ->
       mark_slots call ary count i mem a = mem a).
Proof.
  induction count as [|k IH]; intros i mem.
  - split; [intros j Hj; lia | reflexivity].
  - cbn [mark_slots].
    set (mem' := match call i (mem (ary + Z.of_nat i)) with
                 | Some tmp => <[ary + Z.of_nat i := tmp]> mem
                 | None => mem
                 end).
    destruct (IH (S i) mem') as [Hin Hout].
    assert (forall a, a <> ary + Z.of_nat i -> mem' a = mem a) as Hmem.
    { intros a Ha. unfold mem'.
      destruct (call i (mem (ary + Z.of_nat i))); [|reflexivity].
      by rewrite fn_lookup_insert_ne. }
    split.
    + intros j Hj. destruct (decide (j = i)) as [->|Hne].
      * rewrite Hout by lia. unfold mem'.
        destruct (call i (mem (ary + Z.of_nat i))); cbn;
          [apply fn_lookup_insert | reflexivity].
      * rewrite Hin by lia. rewrite Hmem by lia. reflexivity.
    + intros a Ha. rewrite Hout by lia. apply Hmem. lia.
Qed.

(** A mark pass rewrites each local of a stack scope to where the
    collector says its object now is, and nothing else: slot [i] of the
    (displaced) locals holds the answer of the [i]-th [mark.call] when
    there is one and its old content otherwise, every other stack slot
    and every scope is unchanged, so that [get_local] afterwards reads
    the relocated object. *)
Theorem Info_mark_relocates (call : MarkCall) (self : positive)
    (vs : VariableScope) (h : Heap) (ary : Z) :
  scopes h !! self = Some vs ->
  isolated_ vs = false ->
  (locked_p vs = true -> lock_ vs = false) ->
  0 <= number_of_locals_ vs < 2 ^ 64 ->
  fst (displaced_locals vs h) = Ok ary ->
  exists h1,
    Info_mark call self h = (Ok tt, h1) /\
    scopes h1 = scopes h /\ fibers h1 = fibers h /\
    (forall a, ~ (ary <= a < ary + number_of_locals_ vs) ->
       stack h1 a = stack h a) /\
    (forall i, (i < Z.to_nat (number_of_locals_ vs))%nat ->
       fst (get_local self (Z.of_nat i) h1) =
       Ok (default (stack h (ary + Z.of_nat i))
             (call i (stack h (ary + Z.of_nat i))))).
Proof.
  intros Hs Hiso Hlk Hn Hary. unfold VariableScopePrims.Info_mark.
  rewrite Hs, Hiso.
  destruct (displaced_locals vs h) as [r h'] eqn:Hd. cbn [fst] in Hary. subst r.
  assert (scopes h' = scopes h /\ fibers h' = fibers h /\ stack h' = stack h)
    as (Hsc & Hfb & Hst).
  { unfold VariableScope.displaced_locals in Hd.
    destruct (fiber_ vs) as [fa|]; [|by inversion Hd].
    destruct (fibers h !! fa) as [[dis|]|]; try (by inversion Hd).
    destruct (displace dis (locals_ vs)); by inversion Hd. }
  rewrite Z.mod_small by exact Hn.
  destruct (mark_slots_spec call ary (Z.to_nat (number_of_locals_ vs)) 0
              (stack h')) as [Hin Hout].
  eexists. split; [reflexivity|]. cbn [scopes fibers stack].
  split; [exact Hsc|]. split; [exact Hfb|]. split.
  - intros a Ha. rewrite Hout by lia. by rewrite Hst.
  - intros i Hi.
    set (h1 := {| scopes := scopes h'; fibers := fibers h';
                  stack := mark_slots call ary _ 0 (stack h');
                  log := log h' |}).
    assert (scopes h1 !! self = Some vs) as Hs1 by (cbn; rewrite Hsc; exact Hs).
    destruct (get_local_slot self vs (Z.of_nat i) h1 Hs1 Hlk) as (h2 & -> & _).
    cbn [fst]. unfold VariableScopePrims.slot. rewrite Hiso.
    rewrite (displaced_locals_ext vs h h1) by exact Hfb.
    rewrite Hd. cbn [fst stack h1]. rewrite Hin by lia. by rewrite Hst.
Qed.

End WithConstants.

Lemma set_local_get_local_witness :
  fst (get_local example_cScopeLocked example_displace 1 1
         (snd (set_local example_cScopeLocked example_displace 1 1 (Fixnum 9)
                 example_heap))) = Ok (Fixnum 9) /\
  forall pos', pos' <> 1 ->
    fst (get_local example_cScopeLocked example_displace 1 pos'
           (snd (set_local example_cScopeLocked example_displace 1 1
                   (Fixnum 9) example_heap))) =
    fst (get_local example_cScopeLocked example_displace 1 pos' example_heap).
Proof.
  apply (set_local_get_local example_cScopeLocked example_displace
           1 leaf 1 (Fixnum 9) example_heap).
  - reflexivity.
  - reflexivity.
Defined.

Lemma set_local_prim_checked_witness :
  (forall r h1,
     set_local_prim example_cScopeLocked example_displace
       1 1 cTrue example_heap = (Return r, h1) ->
     r = cNil /\ 0 <= 1 < number_of_locals_ leaf /\
     fst (get_local example_cScopeLocked example_displace 1 1 h1) = Ok cTrue /\
     forall a, stack h1 a <> stack example_heap a ->
       exists ary,
         fst (displaced_locals example_displace leaf example_heap) = Ok ary /\
         ary <= a < ary + number_of_locals_ leaf) /\
  (forall reason,
     fst (set_local_prim example_cScopeLocked example_displace
            1 (2 ^ 32) cTrue example_heap) <> ArgumentError reason).
Proof.
  destruct (set_local_prim_checked example_cScopeLocked example_displace
              1 leaf 1 cTrue example_heap eq_refl) as (_ & Hret & _).
  destruct (set_local_prim_checked example_cScopeLocked example_displace
              1 leaf 0 cTrue example_heap eq_refl) as (_ & _ & _ & _ & Hwrap).
  split; [exact Hret|].
  apply Hwrap. reflexivity.
Defined.

Lemma flush_to_heap_keeps_locals_witness :
  fst (locals example_cScopeLocked example_displace 1
         (snd (flush_to_heap example_cScopeLocked 1 example_heap))) =
  fst (locals example_cScopeLocked example_displace 1 example_heap).
Proof.
  apply (flush_to_heap_keeps_locals example_cScopeLocked example_displace
           1 leaf example_heap).
  - reflexivity.
  - reflexivity.
  - reflexivity.
Defined.

Lemma Info_mark_relocates_witness :
  exists h1,
    Info_mark example_displace
      (fun i _ => match i with O => Some (Ref 77) | _ => None end)
      1 example_heap = (Ok tt, h1) /\
    scopes h1 = scopes example_heap /\ fibers h1 = fibers example_heap /\
    (forall a, ~ (100 <= a < 100 + number_of_locals_ leaf) ->
       stack h1 a = stack example_heap a) /\
    (forall i, (i < Z.to_nat (number_of_locals_ leaf))%nat ->
       fst (get_local example_cScopeLocked example_displace 1 (Z.of_nat i) h1) =
       Ok (default (stack example_heap (100 + Z.of_nat i))
             (match i with O => Some (Ref 77) | _ => None end))).
Proof.
  apply (Info_mark_relocates example_cScopeLocked example_displace
           (fun i _ => match i with O => Some (Ref 77) | _ => None end)
           1 leaf example_heap 100).
  - reflexivity.
  - reflexivity.
  - reflexivity.
  - cbn. lia.
  - reflexivity.
Defined.

End VariableScopePrimsFacts.

(** ** Thread locals and fiber locals *)

Module ThreadLocalsFacts.

Import ThreadLocals.

Lemma aref_store (t : LookupTable) (key key' : positive) (value : Object) :
  aref (store t key value) key' =
  if decide (key = key') then value else aref t key'.
Proof.
  unfold aref, store. destruct (decide (key = key')) as [->|Hne].
  - by rewrite lookup_insert_eq.
  - by rewrite lookup_insert_ne.
Qed.

Lemma aref_remove (t : LookupTable) (key key' : positive) :
  aref (remove t key) key' = if decide (key = key') then cNil else aref t key'.
Proof.
  unfold aref, remove. destruct (decide (key = key')) as [->|Hne].
  - by rewrite lookup_delete_eq.
  - by rewrite lookup_delete_ne.
Qed.

(** Where the primitives find the storage once a table has been
    written. *)
Lemma storage_put_table (self : Thread) (st : State) (a : positive)
    (t t' : LookupTable) :
  tables st !! a = Some t ->
  storage self (put_table a t' st) =
  match storage self st with
  | OfFiber fib b u => if decide (b = a) then OfFiber fib a t' else OfFiber fib b u
  | other => other
  end.
Proof.
  intros Ha. unfold storage, put_table, as_table. cbn.
  destruct (negb (bool_decide (Some (vm st) = vm_ self))); [reflexivity|].
  destruct (current_fiber st) as [fib|]; [|reflexivity].
  destruct (fibers st !! fib) as [f|]; [|reflexivity].
  destruct (root_ f); [reflexivity|].
  destruct (fiber_locals_ f) as [| | | | |b]; try reflexivity.
  destruct (decide (b = a)) as [->|Hne].
  - rewrite lookup_insert_eq, Ha. by rewrite decide_True.
  - rewrite lookup_insert_ne by congruence.
    destruct (tables st !! b); [by rewrite decide_False | reflexivity].
Qed.

Lemma as_table_put_table (st : State) (a : positive) (t' : LookupTable)
    (o : Object) (b : positive) (u : LookupTable) :
  as_table st o = Some (b, u) ->
  as_table (put_table a t' st) o =
  Some (b, if decide (b = a) then t' else u).
Proof.
  unfold as_table, put_table. cbn. destruct o as [| | | | |c]; try discriminate.
  destruct (tables st !! c) as [w|] eqn:Hc; [|discriminate].
  intros H; inversion H; subst c w; clear H.
  destruct (decide (b = a)) as [->|Hne].
  - by rewrite lookup_insert_eq.
  - rewrite lookup_insert_ne by congruence. by rewrite Hc.
Qed.

Lemma as_table_Some (st : State) (o : Object) (a : positive) (t : LookupTable) :
  as_table st o = Some (a, t) -> o = Ref a /\ tables st !! a = Some t.
Proof.
  unfold as_table. destruct o as [| | | | |c]; try discriminate.
  destruct (tables st !! c) eqn:Hc; [|discriminate].
  intros H; inversion H; subst. auto.
Qed.

Lemma storage_OfFiber (self : Thread) (st : State) (fib a : positive)
    (t : LookupTable) :
  storage self st = OfFiber fib a t ->
  tables st !! a = Some t /\
  exists f, current_fiber st = Some fib /\ fibers st !! fib = Some f /\
    root_ f = false /\ fiber_locals_ f = Ref a /\ vm_ self = Some (vm st).
Proof.
  unfold storage.
  destruct (bool_decide (Some (vm st) = vm_ self)) eqn:Hvm; cbn; [|discriminate].
  apply bool_decide_eq_true in Hvm.
  destruct (current_fiber st) as [fib'|]; [|discriminate].
  destruct (fibers st !! fib') as [f|] eqn:Hf; [|discriminate].
  destruct (root_ f) eqn:Hr; [discriminate|].
  destruct (as_table st (fiber_locals_ f)) as [[b u]|] eqn:Ht.
  - intros H; inversion H; subst. apply as_table_Some in Ht as [Hl Hb].
    split; [exact Hb|]. exists f. auto.
  - destruct (nil_p (fiber_locals_ f)); discriminate.
Qed.

Lemma storage_FiberWithout (self : Thread) (st : State) (fib : positive) :
  storage self st = FiberWithout fib ->
  exists f, current_fiber st = Some fib /\ fibers st !! fib = Some f /\
    root_ f = false /\ fiber_locals_ f = cNil /\ vm_ self = Some (vm st).
Proof.
  unfold storage.
  destruct (bool_decide (Some (vm st) = vm_ self)) eqn:Hvm; cbn; [|discriminate].
  apply bool_decide_eq_true in Hvm.
  destruct (current_fiber st) as [fib'|]; [|discriminate].
  destruct (fibers st !! fib') as [f|] eqn:Hf; [|discriminate].
  destruct (root_ f) eqn:Hr; [discriminate|].
  destruct (as_table st (fiber_locals_ f)) as [[b u]|] eqn:Ht; [discriminate|].
  destruct (fiber_locals_ f) eqn:Hl; cbn; try discriminate.
  intros H; inversion H; subst. exists f. auto.
Qed.

(** What [locals_store] has done when it returns: it has written one
    table, [a], which holds [store t key value] afterwards, and the
    primitives find their storage there. *)
Lemma locals_store_effect (self : Thread) (key : positive) (value : Object)
    (st st1 : State) (r : Object) :
  locals_store self key value st = (Return r, st1) ->
  r = value /\
  exists a t,
    (storage self st1 = OfThread /\ storage self st = OfThread /\
     as_table st1 (locals_ self) = Some (a, store t key value) /\
     as_table st (locals_ self) = Some (a, t)) \/
    (exists fib, storage self st1 = OfFiber fib a (store t key value) /\
       (storage self st = OfFiber fib a t \/
        storage self st = FiberWithout fib /\ t = ∅ /\ tables st !! a = None)).
Proof.
  unfold locals_store, check_frozen. destruct (frozen_ self); [discriminate|].
  destruct (storage self st) as [|fib a t|fib|fib|] eqn:Hst; try discriminate.
  - destruct (as_table st (locals_ self)) as [[a t]|] eqn:Ht; [|discriminate].
    intros H; inversion H; subst r st1; clear H. split; [reflexivity|].
    exists a, t. left.
    destruct (as_table_Some _ _ _ _ Ht) as [_ Ha].
    rewrite (storage_put_table self st a t _ Ha), Hst.
    rewrite (as_table_put_table st a _ _ a t Ht), decide_True by reflexivity.
    auto.
  - intros H; inversion H; subst r st1; clear H. split; [reflexivity|].
    exists a, t. right. exists fib.
    destruct (storage_OfFiber _ _ _ _ _ Hst) as [Ha _].
    rewrite (storage_put_table self st a t _ Ha), Hst.
    rewrite decide_True by reflexivity. auto.
  - intros H; inversion H; subst r st1; clear H. split; [reflexivity|].
    set (a := fresh (dom (tables st))).
    assert (tables st !! a = None) as Hfresh
      by (apply not_elem_of_dom, is_fresh).
    exists a, ∅. right. exists fib.
    destruct (storage_FiberWithout _ _ _ Hst) as (f & Hc & Hf & Hr & Hl & Hvm).
    split; [|auto].
    unfold storage, as_table. cbn.
    rewrite Hvm, bool_decide_eq_true_2 by reflexivity. cbn.
    rewrite Hc, lookup_alter_eq, Hf. cbn. rewrite Hr.
    by rewrite lookup_insert_eq.
Qed.

Lemma all_keys_has_key (t : LookupTable) (key : positive) :
  key ∈ all_keys t <-> has_key t key = cTrue.
Proof.
  unfold all_keys, has_key. rewrite list_elem_of_fmap. split.
  - intros ([k v] & -> & Hin). apply elem_of_map_to_list in Hin. cbn.
    by rewrite Hin.
  - destruct (t !! key) as [v|] eqn:Hk; [|discriminate]. intros _.
    exists (key, v). split; [reflexivity|]. by apply elem_of_map_to_list.
Qed.

Lemma has_key_store (t : LookupTable) (key : positive) (value : Object) :
  has_key (store t key value) key = cTrue.
Proof. unfold has_key, store. by rewrite lookup_insert_eq. Qed.

(** What [locals_store] stores, [locals_aref] finds: after a store that
    returns, a read of the same key made in the same context (the same
    calling thread, the same active fiber) returns the value, the key is
    reported by [locals_has_key] and listed by [locals_keys], and every
    other key reads as before; this holds whether the storage is the
    thread's table, the active fiber's table, or a table that the store
    had to create for the fiber. *)
Theorem locals_store_aref (self : Thread) (key : positive) (value : Object)
    (st st1 : State) (r : Object) :
  locals_store self key value st = (Return r, st1) ->
  r = value /\
  locals_aref self key st1 = Return value /\
  locals_has_key self key st1 = Return cTrue /\
  (exists keys, locals_keys self st1 = ReturnKeys keys /\ key ∈ keys) /\
  forall key', key' <> key ->
    locals_aref self key' st1 = locals_aref self key' st.
Proof.
  intros Hstore.
  destruct (locals_store_effect self key value st st1 r Hstore)
    as (-> & a & t & [(Hs1 & Hs & Ht1 & Ht)|(fib & Hs1 & Hs)]).
  - unfold locals_aref, locals_has_key, locals_keys.
    rewrite Hs1, Hs, Ht1, Ht. split; [reflexivity|].
    split; [by rewrite aref_store, decide_True|].
    split; [by rewrite has_key_store|]. split.
    + eexists. split; [reflexivity|]. apply all_keys_has_key, has_key_store.
    + intros key' Hne. by rewrite aref_store, decide_False.
  - unfold locals_aref, locals_has_key, locals_keys. rewrite Hs1.
    split; [reflexivity|].
    split; [by rewrite aref_store, decide_True|].
    split; [by rewrite has_key_store|]. split.
    + eexists. split; [reflexivity|]. apply all_keys_has_key, has_key_store.
    + intros key' Hne. rewrite aref_store, decide_False by congruence.
      destruct Hs as [->|(-> & -> & _)]; reflexivity.
Qed.

(** Fiber locals are private to the fiber: a store made while a fiber
    other than the root fiber is active on the thread's own VM leaves the
    thread's table as it was, so that every read that resolves to the
    thread's storage (made from another thread, or while the root fiber
    is active) returns what it returned before. *)
Theorem fiber_store_is_private (self : Thread) (key : positive)
    (value : Object) (st st1 : State) (r : Object) (fib a : positive)
    (f : Fiber) (t : LookupTable) :
  vm_ self = Some (vm st) ->
  current_fiber st = Some fib ->
  fibers st !! fib = Some f ->
  root_ f = false ->
  as_table st (locals_ self) = Some (a, t) ->
  fiber_locals_ f <> Ref a ->
  locals_store self key value st = (Return r, st1) ->
  as_table st1 (locals_ self) = Some (a, t) /\
  forall v cur key',
    storage self (seen_from v cur st) = OfThread ->
    storage self (seen_from v cur st1) = OfThread /\
    locals_aref self key' (seen_from v cur st1) =
    locals_aref self key' (seen_from v cur st).
Proof.
  intros Hvm Hcur Hf Hroot Ht Hne Hstore.
  destruct (as_table_Some _ _ _ _ Ht) as [Hl Ha].
  assert (tables st1 !! a = Some t /\
          forall x g, fibers st !! x = Some g ->
            exists g', fibers st1 !! x = Some g' /\ root_ g' = root_ g) as [Ha1 Hfib].
  { unfold locals_store, check_frozen in Hstore.
    destruct (frozen_ self); [discriminate|].
    assert (storage self st =
            match as_table st (fiber_locals_ f) with
            | Some (b, u) => OfFiber fib b u
            | None => if nil_p (fiber_locals_ f) then FiberWithout fib
                      else FiberOther fib
            end) as Hs.
    { unfold storage. rewrite Hvm, bool_decide_eq_true_2 by reflexivity.
      cbn. by rewrite Hcur, Hf, Hroot. }
    rewrite Hs in Hstore.
    destruct (as_table st (fiber_locals_ f)) as [[b u]|] eqn:Hfl.
    - inversion Hstore; subst r st1; clear Hstore. cbn.
      apply as_table_Some in Hfl as [Hb _].
      rewrite lookup_insert_ne by congruence. split; [exact Ha|]. eauto.
    - destruct (nil_p (fiber_locals_ f)); [|discriminate].
      inversion Hstore; subst r st1; clear Hstore. cbn. split.
      + rewrite lookup_insert_ne; [exact Ha|].
        intros E. pose proof (is_fresh (dom (tables st))) as Hfresh.
        rewrite E in Hfresh. apply Hfresh, elem_of_dom. eauto.
      + intros x g Hx. rewrite lookup_alter.
        destruct (decide (fib = x)) as [->|_]; rewrite Hx; cbn; eauto. }
  assert (as_table st1 (locals_ self) = Some (a, t)) as Ht1
    by (rewrite Hl; unfold as_table; by rewrite Ha1).
  split; [exact Ht1|].
  intros v cur key' Hview.
  assert (storage self (seen_from v cur st1) = OfThread) as Hview1.
  { revert Hview. unfold storage, seen_from. cbn.
    destruct (negb (bool_decide (Some v = vm_ self))); [reflexivity|].
    destruct cur as [c|]; [|reflexivity].
    destruct (fibers st !! c) as [g|] eqn:Hg; [|discriminate].
    destruct (Hfib c g Hg) as (g' & -> & ->).
    destruct (root_ g); [reflexivity|].
    destruct (as_table _ (fiber_locals_ g)) as [[? ?]|];
      [discriminate|]. destruct (nil_p (fiber_locals_ g)); discriminate. }
  split; [exact Hview1|].
  unfold locals_aref. rewrite Hview, Hview1.
  change (as_table (seen_from v cur st1) (locals_ self))
    with (as_table st1 (locals_ self)).
  change (as_table (seen_from v cur st) (locals_ self))
    with (as_table st (locals_ self)).
  by rewrite Ht, Ht1.
Qed.

(** [locals_remove] returns what [locals_aref] would have returned and
    removes the key: afterwards the key reads nil, [locals_has_key]
    answers false for it, and every other key reads as before.  It
    leaves every fiber as it was and creates no table: the tables of the
    heap are at the addresses they were at.  For a fiber that has no
    table yet it returns nil and changes nothing at all. *)
Theorem locals_remove_aref (self : Thread) (key : positive)
    (st st1 : State) (r : Object) :
  locals_remove self key st = (Return r, st1) ->
  locals_aref self key st = Return r /\
  locals_aref self key st1 = Return cNil /\
  locals_has_key self key st1 = Return cFalse /\
  (forall key', key' <> key ->
     locals_aref self key' st1 = locals_aref self key' st) /\
  fibers st1 = fibers st /\
  dom (tables st1) = dom (tables st) /\
  (forall fib, storage self st = FiberWithout fib -> r = cNil /\ st1 = st).
Proof.
  unfold locals_remove, check_frozen. destruct (frozen_ self); [discriminate|].
  destruct (storage self st) as [|fib a t|fib|fib|] eqn:Hst; try discriminate.
  - destruct (as_table st (locals_ self)) as [[a t]|] eqn:Ht; [|discriminate].
    intros H; inversion H; subst r st1; clear H.
    destruct (as_table_Some _ _ _ _ Ht) as [_ Ha].
    unfold locals_aref, locals_has_key.
    rewrite (storage_put_table self st a t _ Ha), Hst.
    rewrite (as_table_put_table st a _ _ a t Ht), decide_True by reflexivity.
    rewrite Ht. split; [reflexivity|].
    split; [by rewrite aref_remove, decide_True|].
    split; [unfold has_key, remove; by rewrite lookup_delete_eq|].
    split; [intros key' Hne; by rewrite aref_remove, decide_False|].
    split; [reflexivity|].
    split; [cbn; by apply dom_insert_lookup_L | intros fib; discriminate].
  - intros H; inversion H; subst r st1; clear H.
    destruct (storage_OfFiber _ _ _ _ _ Hst) as [Ha _].
    unfold locals_aref, locals_has_key.
    rewrite (storage_put_table self st a t _ Ha), Hst.
    rewrite decide_True by reflexivity. split; [reflexivity|].
    split; [by rewrite aref_remove, decide_True|].
    split; [unfold has_key, remove; by rewrite lookup_delete_eq|].
    split; [intros key' Hne; by rewrite aref_remove, decide_False|].
    split; [reflexivity|].
    split; [cbn; by apply dom_insert_lookup_L | intros fib'; discriminate].
  - intros H; inversion H; subst r st1; clear H.
    unfold locals_aref, locals_has_key. rewrite Hst. auto 10.
Qed.

Lemma locals_store_aref_witness :
  Fixnum 3 = Fixnum 3 /\
  locals_aref main_thread 7
    (snd (locals_store main_thread 7 (Fixnum 3) in_fiber)) = Return (Fixnum 3) /\
  locals_has_key main_thread 7
    (snd (locals_store main_thread 7 (Fixnum 3) in_fiber)) = Return cTrue /\
  (exists keys,
     locals_keys main_thread
       (snd (locals_store main_thread 7 (Fixnum 3) in_fiber)) = ReturnKeys keys /\
     7%positive ∈ keys) /\
  forall key', key' <> 7%positive ->
    locals_aref main_thread key'
      (snd (locals_store main_thread 7 (Fixnum 3) in_fiber)) =
    locals_aref main_thread key' in_fiber.
Proof.
  apply (locals_store_aref main_thread 7 (Fixnum 3) in_fiber).
  reflexivity.
Defined.

Lemma fiber_store_is_private_witness :
  as_table (snd (locals_store main_thread 7 (Fixnum 3) in_fiber))
    (locals_ main_thread) = Some (10%positive, ∅) /\
  forall v cur key',
    storage main_thread (seen_from v cur in_fiber) = OfThread ->
    storage main_thread
      (seen_from v cur (snd (locals_store main_thread 7 (Fixnum 3) in_fiber)))
      = OfThread /\
    locals_aref main_thread key'
      (seen_from v cur (snd (locals_store main_thread 7 (Fixnum 3) in_fiber))) =
    locals_aref main_thread key' (seen_from v cur in_fiber).
Proof.
  apply (fiber_store_is_private main_thread 7 (Fixnum 3) in_fiber _
           (Fixnum 3) 5 10 {| root_ := false; fiber_locals_ := cNil |} ∅);
    try reflexivity.
  discriminate.
Defined.

Lemma locals_remove_aref_witness :
  (locals_aref main_thread 7
     (snd (locals_store main_thread 7 (Fixnum 3) in_fiber)) = Return (Fixnum 3) /\
   locals_aref main_thread 7
     (snd (locals_remove main_thread 7
             (snd (locals_store main_thread 7 (Fixnum 3) in_fiber))))
     = Return cNil /\
   locals_has_key main_thread 7
     (snd (locals_remove main_thread 7
             (snd (locals_store main_thread 7 (Fixnum 3) in_fiber))))
     = Return cFalse) /\
  (cNil = cNil /\ in_fiber = in_fiber).
Proof.
  destruct (locals_remove_aref main_thread 7
              (snd (locals_store main_thread 7 (Fixnum 3) in_fiber))
              _ _ eq_refl) as (H1 & H2 & H3 & _).
  destruct (locals_remove_aref main_thread 7 in_fiber in_fiber cNil eq_refl)
    as (_ & _ & _ & _ & _ & _ & H7).
  split; [by repeat split|].
  apply (H7 5%positive). reflexivity.
Defined.

End ThreadLocalsFacts.

(** ** The JIT primitives *)

Module JITFacts.

Import JIT.

(** No primitive of the JIT module turns the JIT on or off: over any
    sequence of calls the truth value of [enabled] stays what it was.
    On a JIT that is not enabled every call leaves the object untouched
    and answers false (0 for the threshold), [enable] included. *)
Theorem JIT_enabled_never_changes (CBOOL : Object -> bool)
    (ps : list primitive) (self : JIT) :
  CBOOL cTrue = true ->
  CBOOL (enabled_ (snd (calls CBOOL ps self))) = CBOOL (enabled_ self) /\
  (CBOOL (enabled_ self) = false ->
   snd (calls CBOOL ps self) = self /\
   fst (calls CBOOL ps self) = map refused ps).
Proof.
  intros Htrue. revert self. induction ps as [|p ps IH]; intros self.
  - cbn. auto.
  - cbn [calls].
    assert (CBOOL (enabled_ (snd (call CBOOL p self))) = CBOOL (enabled_ self) /\
            (CBOOL (enabled_ self) = false ->
             call CBOOL p self = (refused p, self))) as [Hsame Hoff].
    { destruct p; cbn; destruct (CBOOL (enabled_ self)) eqn:E; cbn; auto;
        split; auto; discriminate. }
    destruct (call CBOOL p self) as [o self1] eqn:Hc. cbn [snd] in Hsame.
    destruct (IH self1) as [IH1 IH2].
    destruct (calls CBOOL ps self1) as [os self2] eqn:Hcs. cbn [fst snd] in *.
    split; [congruence|].
    intros Hdis. specialize (Hoff Hdis). inversion Hoff; subst o self1.
    destruct (IH2 Hdis) as [-> ->]. auto.
Qed.

Lemma JIT_enabled_never_changes_witness :
  (fun o : Object => negb (nil_p o) && negb (bool_decide (o = cFalse)))
    (enabled_ (snd (calls
       (fun o => negb (nil_p o) && negb (bool_decide (o = cFalse)))
       [enable; compile; sync_get] {| enabled_ := cNil |}))) =
  (fun o : Object => negb (nil_p o) && negb (bool_decide (o = cFalse)))
    (enabled_ {| enabled_ := cNil |}) /\
  ((fun o : Object => negb (nil_p o) && negb (bool_decide (o = cFalse)))
     (enabled_ {| enabled_ := cNil |}) = false ->
   snd (calls (fun o => negb (nil_p o) && negb (bool_decide (o = cFalse)))
          [enable; compile; sync_get] {| enabled_ := cNil |}) =
     {| enabled_ := cNil |} /\
   fst (calls (fun o => negb (nil_p o) && negb (bool_decide (o = cFalse)))
          [enable; compile; sync_get] {| enabled_ := cNil |}) =
     map refused [enable; compile; sync_get]).
Proof.
  apply (JIT_enabled_never_changes
           (fun o => negb (nil_p o) && negb (bool_decide (o = cFalse)))
           [enable; compile; sync_get] {| enabled_ := cNil |}).
  reflexivity.
Defined.

End JITFacts.

(** ** Requests for a collection *)

Module SharedStateFacts.

Import SharedState.

Lemma granted_app (l1 l2 : list bool) :
  granted (l1 ++ l2) = (granted l1 + granted l2)%nat.
Proof.
  induction l1 as [|[] l1 IH]; cbn [app granted]; [reflexivity|lia|exact IH].
Qed.

Lemma run_app (s1 s2 : list (nat * access)) (m : Machine) :
  run (s1 ++ s2) m = run s2 (run s1 m).
Proof.
  revert m. induction s1 as [|[t a] s1 IH]; intros m; cbn [app run]; auto.
Qed.

(** Whatever the schedule: a request that has been written is reported
    or still pending, and [set_stop] is counted. *)
Lemma run_accounts (sched : list (nat * access)) : forall m,
  (0 < written sched + pending (shared m) ->
   granted (answers m)
     < granted (answers (run sched m)) + pending (shared (run sched m)))%nat /\
  (granted (answers m) <= granted (answers (run sched m)))%nat /\
  stop_ (shared (run sched m)) = (stop_ (shared m) + stops sched)%nat.
Proof.
  induction sched as [|[t a] sched IH]; intros m.
  - cbn. repeat split; lia.
  - cbn [run]. destruct (IH (perform t a m)) as (H1 & H2 & H3).
    destruct a; cbn [written stops]; unfold pending in *; cbn in *;
      rewrite ?granted_app in *; cbn in *.
    + repeat split; lia.
    + destruct (c_ m t); cbn in *;
        destruct (check_gc_ (shared m)); repeat split; lia.
    + repeat split; lia.
    + repeat split; lia.
    + repeat split; lia.
Qed.

(** What one call does when no other call overlaps it. *)
Lemma call_accounts (thread : nat) (r : request) (m : Machine) :
  let m' := run (map (pair thread) (accesses r)) m in
  granted (answers m') =
    (granted (answers m)
     + match r with CheckGc => pending (shared m) | _ => 0 end)%nat /\
  pending (shared m') =
    match r with
    | GcSoon => 1%nat
    | CheckGc => 0%nat
    | _ => pending (shared m)
    end /\
  stop_ (shared m') =
    (stop_ (shared m) + match r with GcSoon => 1 | _ => 0 end)%nat.
Proof.
  destruct r; cbn; unfold pending; cbn.
  - repeat split; lia.
  - rewrite fn_lookup_insert, granted_app.
    destruct (check_gc_ (shared m)) eqn:E; cbn; rewrite ?E; repeat split; lia.
  - repeat split; lia.
  - repeat split; lia.
Qed.

Lemma serial_accounts (calls : list (nat * request)) : forall m,
  (granted (answers (run (serial calls) m))
     + pending (shared (run (serial calls) m))
     <= granted (answers m) + pending (shared m) + requested calls)%nat /\
  stop_ (shared (run (serial calls) m))
    = (stop_ (shared m) + requested calls)%nat.
Proof.
  induction calls as [|[t r] calls IH]; intros m.
  - cbn. repeat split; lia.
  - cbn [serial]. rewrite run_app.
    destruct (call_accounts t r m) as (Hg & Hp & Hs).
    destruct (IH (run (map (pair t) (accesses r)) m)) as (H1 & H3).
    cbn zeta in Hg, Hp, Hs.
    assert (pending (shared m) <= 1)%nat
      by (unfold pending; destruct (check_gc_ (shared m)); lia).
    destruct r; cbn [requested]; repeat split; lia.
Qed.

Lemma written_serial (calls : list (nat * request)) :
  written (serial calls) = requested calls.
Proof.
  induction calls as [|[t r] calls IH]; [reflexivity|].
  destruct r; cbn; rewrite ?IH; reflexivity.
Qed.

(** The request for a collection, between threads that read and write
    the flags with no lock.  When no two calls overlap, [check_gc_p]
    consumes the request it reports: on a state with no request pending
    it answers true at most as often as [gc_soon] was called (requests
    made before a check are merged into one), [set_stop] has been
    called once per [gc_soon], and the flag has been set once per
    [gc_soon].  In every schedule of the accesses,
    overlapping or not, no request is lost: once [gc_soon] has set the
    flag, a [check_gc_p] has answered true or the flag is still set.
    Two calls of [check_gc_p] that overlap can both report the one
    request there is: in [overlapping], where each thread makes the
    accesses of one call in order, one [gc_soon] is answered true
    twice. *)
Theorem gc_request_reported_once :
  (forall calls m,
     check_gc_ (shared m) = false ->
     (granted (answers (run (serial calls) m))
        <= granted (answers m) + requested calls)%nat /\
     stop_ (shared (run (serial calls) m))
       = (stop_ (shared m) + requested calls)%nat /\
     written (serial calls) = requested calls) /\
  (forall sched m,
     (0 < written sched)%nat ->
     (granted (answers m) < granted (answers (run sched m)))%nat \/
     check_gc_ (shared (run sched m)) = true) /\
  (project 0 overlapping = gc_soon /\
   project 1 overlapping = check_gc_p /\
   project 2 overlapping = check_gc_p /\
   (forall thread, (2 < thread)%nat -> project thread overlapping = []) /\
   written overlapping = 1%nat /\
   answers (run overlapping boot) = [true; true]).
Proof.
  split; [|split].
  - intros calls m Hm. destruct (serial_accounts calls m) as (H1 & H3).
    unfold pending in H1. rewrite Hm in H1.
    split; [lia|]. split; [exact H3 | apply written_serial].
  - intros sched m Hw. destruct (run_accounts sched m) as (H1 & _ & _).
    unfold pending in H1.
    destruct (check_gc_ (shared (run sched m))); [by right|].
    left. lia.
  - repeat split.
    intros thread Ht. destruct thread as [|[|[|thread]]]; [lia|lia|lia|].
    reflexivity.
Qed.

Lemma gc_request_reported_once_witness :
  (granted (answers (run (serial [(0, GcSoon); (1, GcSoon); (1, CheckGc);
                                  (2, CheckGc)]%nat) boot)) <= 0 + 2)%nat /\
  ((0 < granted (answers (run overlapping boot)))%nat \/
   check_gc_ (shared (run overlapping boot)) = true).
Proof.
  destruct gc_request_reported_once as (Hserial & Hany & _).
  split.
  - destruct (Hserial [(0, GcSoon); (1, GcSoon); (1, CheckGc); (2, CheckGc)]%nat
                boot eq_refl) as [H _]. exact H.
  - apply (Hany overlapping boot). cbn. lia.
Defined.

End SharedStateFacts.

(** ** The marker leaves its loop only when it is told to *)

Module ImmixMarkerLoopFacts.

Import ImmixMarker.

Section WithEnvironment.

Variable env : Call -> World -> World.
Variable process_mark_stack : bool -> World -> bool * World.

#[local] Abbreviation run_loop := (ImmixMarker.run_loop env process_mark_stack).
#[local] Abbreviation run := (ImmixMarker.run env process_mark_stack).

Lemma run_loop_exit (fuel : nat) : forall w w',
  run_loop fuel w = Some w' -> thread_exit_ w' = true.
Proof.
  induction fuel as [|k IH]; intros w w' H; [discriminate|].
  cbn [ImmixMarker.run_loop] in H.
  destruct (thread_exit_ w) eqn:E; [by inversion H; subst|].
  destruct (ImmixMarker.mark_loop env process_mark_stack k _) as [w1|];
    [|discriminate].
  destruct (thread_exit_ w1) eqn:E1; [by inversion H; subst|].
  destruct (collect_full_p w1); apply (IH _ _ H).
Qed.

(** [run] does not return on its own: whatever the calls it makes do,
    when it returns the marker has been told to exit ([thread_exit_] is
    set); a request for a full collection or an empty mark stack alone
    never ends it. *)
Theorem run_returns_only_on_exit (fuel : nat) (w w' : World) :
  run fuel w = Some w' -> thread_exit_ w' = true.
Proof.
  unfold ImmixMarker.run. intros H.
  destruct (run_loop fuel _) as [w1|] eqn:Hl; [|discriminate].
  inversion H; subst w'. cbn. apply (run_loop_exit _ _ _ Hl).
Qed.

End WithEnvironment.

Lemma run_returns_only_on_exit_witness :
  thread_exit_
    {| memory := {| mature_mark_in_progress_ := false; interrupt_ := false;
                    collect_full_ := false; collect_young_ := false |};
       thread_exit_ := true; data_ := Some 1%positive; clock := 1 |} = true.
Proof.
  apply (run_returns_only_on_exit stopping_env idle_mark_stack 1 marking_world).
  reflexivity.
Defined.

End ImmixMarkerLoopFacts.

(** ** Join and the end of a thread never block each other *)

Module ThreadProgressFacts.

Import Thread ThreadProgress.



(** [Thread::join] waits once and does not test [alive] again when the
    wait returns.  With a condition variable that wakes spuriously a
    [join] with nil timeout can therefore return the handle while the
    thread it joins is still running its function and still alive. *)
Theorem join_returns_on_spurious_wakeup (self v : positive) :
  exists s,
    rtc (step true self cNil) (running v) s /\
    joiner s = JReturned (Some self) /\
    alive_ (thread s) = cTrue /\
    target s = TRunning.
Proof.
  exists {| thread := {| vm_ := Some v; alive_ := cTrue |};
            join_lock_ := None; target := TRunning;
            joiner := JReturned (Some self) |}.
  split; [|done]. unfold running.
  eapply rtc_l; [by apply step_join_lock|].
  eapply rtc_l; [apply step_join_enter|]. cbn.
  eapply rtc_l; [by apply step_join_spurious|].
  eapply rtc_l; [apply step_join_resume|]. cbn.
  apply rtc_refl.
Qed.

End ThreadProgressFacts.

(** ** A thread whose VM is gone *)

Module ThreadSignalsFacts.

Import Thread ThreadSignals.

Section WithVM.

Variable VM : Type.
Variable zombie_p : VM -> bool.
Variable register_raise : Object -> VM -> VM.
Variable register_kill : VM -> VM.
Variable vm_wakeup : VM -> VM.
Variable raise_thread_kill : VM -> VM.
Variable CBOOL : Object -> bool.

#[local] Abbreviation finalize_instance :=
  (ThreadSignals.finalize_instance VM zombie_p).
#[local] Abbreviation raise :=
  (ThreadSignals.raise VM register_raise vm_wakeup).
#[local] Abbreviation kill :=
  (ThreadSignals.kill VM register_kill vm_wakeup raise_thread_kill).
#[local] Abbreviation wakeup := (ThreadSignals.wakeup VM vm_wakeup CBOOL).

(** Once [finalize_instance] has discarded the VM of a zombie thread,
    the thread object is inert: it has no VM, the VM is gone from the
    heap and no other thread or VM has changed; from then on [raise] and
    [kill] return nil, [wakeup] fails and [join] returns nil at once, for
    any caller, and none of them changes anything.  A second
    [finalize_instance] does nothing. *)
Theorem finalized_thread_is_inert (self v : positive) (t : Thread) (m : VM)
    (st : State VM) :
  threads VM st !! self = Some t ->
  vm_ t = Some v ->
  vms VM st !! v = Some m ->
  zombie_p m = true ->
  let st1 := finalize_instance self st in
  threads VM st1 !! self = Some {| vm_ := None; alive_ := alive_ t |} /\
  vms VM st1 !! v = None /\
  (forall x, x <> self -> threads VM st1 !! x = threads VM st !! x) /\
  (forall w, w <> v -> vms VM st1 !! w = vms VM st !! w) /\
  finalize_instance self st1 = st1 /\
  forall caller,
    let st2 := {| current := caller; vms := vms VM st1;
                  threads := threads VM st1 |} in
    (forall exc, raise self exc st2 = (Return cNil, st2)) /\
    kill self st2 = (Return cNil, st2) /\
    wakeup self st2 = (Failure, st2) /\
    forall timeout code,
      join self {| vm_ := None; alive_ := alive_ t |} timeout code = inl None.
Proof.
  intros Ht Hv Hm Hz st1.
  assert (st1 = {| current := current VM st; vms := delete v (vms VM st);
                   threads := <[self := {| vm_ := None; alive_ := alive_ t |}]>
                                (threads VM st) |}) as ->.
  { unfold st1, ThreadSignals.finalize_instance. by rewrite Ht, Hv, Hm, Hz. }
  cbn [threads vms current].
  split; [apply lookup_insert_eq|].
  split; [apply lookup_delete_eq|].
  split; [intros x Hx; by rewrite lookup_insert_ne|].
  split; [intros w Hw; by rewrite lookup_delete_ne|].
  split.
  { unfold ThreadSignals.finalize_instance. cbn.
    by rewrite lookup_insert_eq. }
  intros caller.
  unfold ThreadSignals.raise, ThreadSignals.kill, ThreadSignals.wakeup. cbn.
  rewrite lookup_insert_eq. cbn.
  split; [reflexivity|]. split; [reflexivity|].
  split; [by destruct (CBOOL (alive_ t))|].
  intros timeout code. reflexivity.
Qed.

End WithVM.

Lemma finalized_thread_is_inert_witness :
  let st : State bool :=
    {| current := Some 2%positive; vms := {[7%positive := true]};
       threads := {[1%positive := {| vm_ := Some 7%positive;
                                      alive_ := cFalse |}]} |} in
  let st1 := ThreadSignals.finalize_instance bool (fun b => b) 1 st in
  threads bool st1 !! 1%positive = Some {| vm_ := None; alive_ := cFalse |} /\
  vms bool st1 !! 7%positive = None /\
  (forall x, x <> 1%positive -> threads bool st1 !! x = threads bool st !! x) /\
  (forall w, w <> 7%positive -> vms bool st1 !! w = vms bool st !! w) /\
  ThreadSignals.finalize_instance bool (fun b => b) 1 st1 = st1 /\
  forall caller,
    let st2 := {| current := caller; vms := vms bool st1;
                  threads := threads bool st1 |} in
    (forall exc,
       ThreadSignals.raise bool (fun _ b => b) (fun b => b) 1 exc st2
         = (Return cNil, st2)) /\
    ThreadSignals.kill bool (fun b => b) (fun b => b) (fun b => b) 1 st2
      = (Return cNil, st2) /\
    ThreadSignals.wakeup bool (fun b => b) true_p 1 st2 = (Failure, st2) /\
    forall timeout code,
      join 1 {| vm_ := None; alive_ := cFalse |} timeout code = inl None.
Proof.
  apply (finalized_thread_is_inert bool (fun b => b) (fun _ b => b)
           (fun b => b) (fun b => b) (fun b => b) true_p
           1 7 {| vm_ := Some 7%positive; alive_ := cFalse |} true
           {| current := Some 2%positive; vms := {[7%positive := true]};
              threads := {[1%positive := {| vm_ := Some 7%positive;
                                             alive_ := cFalse |}]} |}).
  - reflexivity.
  - reflexivity.
  - reflexivity.
  - reflexivity.
Defined.

End ThreadSignalsFacts.
